(** * ResClient: resource cache, subscription state machine and collection diff

    A shallow embedding of the RES client (class [ResClient]) and of its
    collection value type (class [ResCollection]), with the properties of the
    cache, the request counter, the model type registry and the
    synchronisation diff that the design document states about them.

    JavaScript objects used as dictionaries ([cache], [modelTypes],
    [requests], [_map]) are finite maps; where such an object is read
    under a key that the caller or the server chooses ([getResource],
    [_getCachedResource], [_getModelType]), the lookup is [Js.read], which
    also finds what every object inherits.  Arrays are lists; numbers that
    the code only counts with are integers in [Z], and the request counter
    is counted up as a number is ([Js.increment]); a value that may be
    [undefined] is an [option]. *)

From Stdlib Require Import ZArith Lia Ascii.
From stdpp Require Import base option list gmap strings fin_maps.

Local Open Scope Z_scope.

(** ** JavaScript preliminaries *)

Module Js.

(** A JavaScript value, as far as the client looks into one.  Numbers are
    the integers the code counts with.  [VObj] is an object by its
    content, [VRef] an object of the caller by its place in the store,
    where it can be mutated. *)
#[warnings="-register-all"]
Inductive value :=
| VUndefined
| VNull
| VBool (b : bool)
| VNum (z : Z)
| VStr (s : string)
| VObj (fields : gmap string value)
| VRef (l : positive).

(** [v ? ... : ...], [v || ...]: objects are truthy, and so is every
    string but the empty one and every number but 0. *)
Definition truthy (v : value) : bool :=
  match v with
  | VUndefined | VNull => false
  | VBool b => b
  | VNum z => negb (z =? 0)
  | VStr s => negb (String.eqb s "")
  | VObj _ | VRef _ => true
  end.

(** Errors a piece of code can throw.  [Thrown] is a [throw] of a plain
    string, [ReferenceError] the read of an identifier that is bound
    nowhere, [TypeError] a property access on [undefined] or [null],
    [ResError] the error built from an error response of the server. *)
Inductive error :=
| Error (msg : string)
| Thrown (msg : string)
| ReferenceError (name : string)
| TypeError (msg : string)
| ResError (code message : string) (data : value) (method : string)
           (params : value).

(** How a call ends: with a value, or with an exception. *)
Inductive completion (A : Type) :=
| Normal (a : A)
| Throw (e : error).
Arguments Normal {A} a.
Arguments Throw {A} e.

(** [a[i]] on an array: [undefined] outside of [0 .. length - 1]. *)
Definition get {A} (a : list A) (i : Z) : option A :=
  if decide (0 ≤ i) then a !! Z.to_nat i else None.

(** Relative index of [Array.prototype.slice] and [splice]. *)
Definition rel (len i : Z) : Z :=
  if decide (i < 0) then Z.max (len + i) 0 else Z.min i len.

(** [a.slice(from, to)]. *)
Definition slice {A} (a : list A) (from to : Z) : list A :=
  let len := Z.of_nat (length a) in
  let k := rel len from in
  let final := rel len to in
  take (Z.to_nat (final - k)) (drop (Z.to_nat k) a).

(** [a.splice(start, deleteCount, ...items)], where [start] may be
    [undefined] (which converts to 0).  Returns the new array. *)
Definition splice {A} (a : list A) (start : option Z) (deleteCount : Z)
    (items : list A) : list A :=
  let len := Z.of_nat (length a) in
  let k := rel len (default 0 start) in
  let dc := Z.min (Z.max deleteCount 0) (len - k) in
  take (Z.to_nat k) a ++ items ++ drop (Z.to_nat (k + dc)) a.

(** The indices visited by [for (i = hi; i >= lo; i--)]. *)
Definition downto (hi lo : Z) : list Z := reverse (seqZ lo (hi - lo + 1)).

(** Strings, as the sequences of their characters. *)

(** The first place from [k] on where [c] stands in [s], the first
    character of [s] being at [k]; -1 when there is none. *)
Fixpoint indexFrom (c : ascii) (s : string) (k : Z) : Z :=
  match s with
  | EmptyString => -1
  | String d s' => if Ascii.eqb d c then k else indexFrom c s' (k + 1)
  end.

(** [s] without its first [n] characters. *)
Fixpoint dropString (n : nat) (s : string) : string :=
  match n, s with
  | O, _ => s
  | S n, String _ s' => dropString n s'
  | S _, EmptyString => EmptyString
  end.

(** [s.indexOf(c, from)] for a search string of the one character [c]. *)
Definition indexOf (c : ascii) (s : string) (from : Z) : Z :=
  let k := Z.min (Z.max from 0) (Z.of_nat (String.length s)) in
  indexFrom c (dropString (Z.to_nat k) s) k.

(** The last place where [c] stands in [s], the first character of [s]
    being at [k], and [found] when there is none. *)
Fixpoint lastIndexFrom (c : ascii) (s : string) (k found : Z) : Z :=
  match s with
  | EmptyString => found
  | String d s' =>
      lastIndexFrom c s' (k + 1) (if Ascii.eqb d c then k else found)
  end.

(** [s.lastIndexOf(c)] for a search string of the one character [c]. *)
Definition lastIndexOf (c : ascii) (s : string) : Z := lastIndexFrom c s 0 (-1).

(** [s.substr(start, length)], and [s.substr(start)] for no [length]. *)
Definition substr (s : string) (start : Z) (length : option Z) : string :=
  let size := Z.of_nat (String.length s) in
  let k := rel size start in
  let n :=
    match length with
    | Some n => Z.min (Z.max n 0) (size - k)
    | None => size - k
    end in
  String.substring (Z.to_nat k) (Z.to_nat n) s.

(** The properties that every object inherits from [Object.prototype]: an
    object used as a dictionary has a value under these names without
    having been given one. *)
Definition inherited (k : string) : bool :=
  bool_decide (k ∈ ["constructor"; "hasOwnProperty"; "isPrototypeOf";
                    "propertyIsEnumerable"; "toLocaleString"; "toString";
                    "valueOf"; "__proto__"; "__defineGetter__";
                    "__defineSetter__"; "__lookupGetter__";
                    "__lookupSetter__"]).

(** What [o[k]] gives for an object [o] that is used as a dictionary: the
    value stored under [k]; for a [k] that nothing is stored under and
    that names a property of [Object.prototype], that property (a function,
    or the prototype itself for [__proto__]: truthy, and without any of
    the properties and methods that the code goes on to use); [undefined]
    otherwise. *)
Inductive field (A : Type) :=
| Own (a : A)
| Inherited (k : string)
| Undefined.
Arguments Own {A} a.
Arguments Inherited {A} k.
Arguments Undefined {A}.

Definition read {A} (o : gmap string A) (k : string) : field A :=
  match o !! k with
  | Some a => Own a
  | None => if inherited k then Inherited k else Undefined
  end.

(** Numbers are doubles, with 53 bits for the digits: [number z] is the
    number nearest to the integer [z], the one with the even last digit
    when two are as near.  Every integer up to [2 ^ 53] is a number; above,
    only every second one is, then every fourth, and so on.  (The largest
    number, near [2 ^ 1024], is out of the reach of the counting that is
    done here.) *)
Definition number (z : Z) : Z :=
  let a := Z.abs z in
  if decide (a ≤ 2 ^ 53) then z
  else
    let ulp := 2 ^ (Z.log2 a - 52) in
    let q := a / ulp in
    let r := a mod ulp in
    let digits :=
      if decide (2 * r < ulp) then q
      else if decide (ulp < 2 * r) then q + 1
      else if Z.even q then q else q + 1 in
    Z.sgn z * (digits * ulp).

(** The value of [n] after [n++], for a number [n] that is an integer. *)
Definition increment (n : Z) : Z := number (n + 1).

End Js.

(** ** The diff of two rid sequences: [_patchDiff] *)

Module PatchDiff.

(** A rid read from an array: [None] is [undefined]. *)
Abbreviation rid := (option string).

(** The callbacks [_patchDiff] invokes, in the order it invokes them.
    [_patchDiff] reads no result of a callback and has no effect of its
    own, so that a run of it is the sequence of its calls. *)
Inductive call :=
| OnKeep (id : rid) (m n idx : Z)
| OnAdd (id : rid) (n idx : Z)
| OnRemove (id : rid) (m idx : Z).

#[global] Instance call_eq_dec : EqDecision call.
Proof. solve_decision. Defined.

Section diff.
Variables a b : list string.

(** [while (s < m && s < n && a[s] === b[s]) s++], which runs at most
    [m - s] times. *)
Fixpoint trimStart (fuel : nat) (s m n : Z) : Z :=
  match fuel with
  | O => s
  | S fuel =>
      if bool_decide (s < m) && bool_decide (s < n)
         && bool_decide (Js.get a s = Js.get b s)
      then trimStart fuel (s + 1) m n
      else s
  end.

(** [while (s <= m && s <= n && a[m - 1] === b[n - 1]) { m--; n--; }],
    which runs at most [m - s + 1] times. *)
Fixpoint trimEnd (fuel : nat) (s m n : Z) : Z * Z :=
  match fuel with
  | O => (m, n)
  | S fuel =>
      if bool_decide (s ≤ m) && bool_decide (s ≤ n)
         && bool_decide (Js.get a (m - 1) = Js.get b (n - 1))
      then trimEnd fuel s (m - 1) (n - 1)
      else (m, n)
  end.
End diff.

(** The LCS matrix [c], row by row: [c[i + 1][0] = 0] and
    [c[i + 1][j + 1] = aa[i] === bb[j] ? c[i][j] + 1
                                        : max(c[i + 1][j], c[i][j + 1])]. *)
Fixpoint lcsRow (x : string) (bb : list string) (prev : list Z) (left : Z)
    : list Z :=
  match bb, prev with
  | y :: bb', cij :: ((cij1 :: _) as prev') =>
      let v := if decide (x = y) then cij + 1 else Z.max left cij1 in
      v :: lcsRow x bb' prev' v
  | _, _ => []
  end.

Fixpoint lcsRows (aa bb : list string) (prev : list Z) : list (list Z) :=
  match aa with
  | [] => []
  | x :: aa' =>
      let row := 0 :: lcsRow x bb prev 0 in
      row :: lcsRows aa' bb row
  end.

Definition lcsMatrix (aa bb : list string) : list (list Z) :=
  let row0 := replicate (S (length bb)) 0 in
  row0 :: lcsRows aa bb row0.

(** [c[i][j]]. *)
Definition cell (c : list (list Z)) (i j : nat) : Z :=
  default 0 (c !! i ≫= (.!! j)).

(** The backward walk through the matrix ([while (true) { ... }]), at the
    position [i], [j]: the calls it makes, the final count [r] of
    removals and the deferred [adds].  Every turn lowers [i] or [j]. *)
Fixpoint walk (aa bb : list string) (c : list (list Z)) (s : Z) (i : nat)
    {struct i} : nat → Z → Z → list (Z * Z * Z) →
                 list call * Z * list (Z * Z * Z) :=
  fix walk_j (j : nat) (idx r : Z) (adds : list (Z * Z * Z)) {struct j} :=
    let m := Z.of_nat i - 1 in
    let n := Z.of_nat j - 1 in
    match i, j with
    | S i', S j' =>
        if decide (aa !! i' = bb !! j') then
          let '(calls, r', adds') :=
            walk aa bb c s i' j' (idx - 1) r adds in
          (OnKeep (aa !! i') (m + s) (n + s) (idx - 1) :: calls, r', adds')
        else if bool_decide (cell c i' j ≤ cell c i j') then
          walk_j j' idx r (adds ++ [(n, idx, r)])
        else
          let '(calls, r', adds') :=
            walk aa bb c s i' j (idx - 1) (r + 1) adds in
          (OnRemove (aa !! i') (m + s) (idx - 1) :: calls, r', adds')
    | O, S j' => walk_j j' idx r (adds ++ [(n, idx, r)])
    | S i', O =>
        let '(calls, r', adds') :=
          walk aa bb c s i' j (idx - 1) (r + 1) adds in
        (OnRemove (aa !! i') (m + s) (idx - 1) :: calls, r', adds')
    | O, O => ([], r, adds)
    end.

(** The final loop over the deferred adds, last pushed first:
    [onAdd(bb[n], n + s, idx - r + j + len - i)]. *)
Definition doAdds (bb : list string) (s r : Z) (adds : list (Z * Z * Z))
    : list call :=
  imap (λ k '(n, idx, j),
          (* k = len - i, where adds[i] is the entry of this turn *)
          OnAdd (Js.get bb n) (n + s) (idx - r + j + Z.of_nat k))
       (reverse adds).

Definition _patchDiff (a b : list string) : list call :=
  let la := Z.of_nat (length a) in
  let lb := Z.of_nat (length b) in
  let s := trimStart a b (length a) 0 la lb in
  let '(m, n) := trimEnd a b (Z.to_nat (la - s + 1)) s la lb in
  let '(aa, m) :=
    if bool_decide (s > 0) || bool_decide (m < la)
    then let aa := Js.slice a s m in (aa, Z.of_nat (length aa))
    else (a, m) in
  let '(bb, n) :=
    if bool_decide (s > 0) || bool_decide (n < lb)
    then let bb := Js.slice b s n in (bb, Z.of_nat (length bb))
    else (b, n) in
  let c := lcsMatrix aa bb in
  let keepsEnd :=
    (λ i, OnKeep (Js.get a i) i (i - m + n) i) <$> Js.downto (la - 1) (s + m) in
  let '(middle, r, adds) :=
    walk aa bb c s (Z.to_nat m) (Z.to_nat n) (m + s) 0 [] in
  let keepsStart :=
    (λ i, OnKeep (Js.get a i) i i i) <$> Js.downto (s - 1) 0 in
  keepsEnd ++ middle ++ keepsStart ++ doAdds bb s r adds.

(** *** What a run of calls does to a list *)

(** The yardstick for the calls of [_patchDiff], which is no code of the
    client: what a list of rids becomes when a call is applied at its
    index, as [__remove] ([splice(idx, 1)]) and [__add]
    ([splice(idx, 0, item)]) of a collection do.  A keep changes nothing;
    a removal at [idx] drops the element there, which has to be the one
    the call names; an insertion at [idx] puts the element there, and
    [idx] has to be a position of the list.  A call that does not fit the
    list gives [None]. *)
Definition applyCall (l : list string) (c : call) : option (list string) :=
  match c with
  | OnKeep _ _ _ _ => Some l
  | OnRemove id m idx =>
      if bool_decide (0 ≤ idx ∧ is_Some id ∧ Js.get l idx = id)
      then Some (delete (Z.to_nat idx) l) else None
  | OnAdd id n idx =>
      match id with
      | Some x =>
          if bool_decide (0 ≤ idx ≤ Z.of_nat (length l))
          then Some (take (Z.to_nat idx) l ++ x :: drop (Z.to_nat idx) l)
          else None
      | None => None
      end
  end.

(** The calls applied one after the other, in their order. *)
Fixpoint applyCalls (calls : list call) (l : list string)
    : option (list string) :=
  match calls with
  | [] => Some l
  | c :: calls => applyCall l c ≫= applyCalls calls
  end.

(** The kinds of calls. *)
Definition isKeep (c : call) : bool :=
  match c with OnKeep _ _ _ _ => true | _ => false end.

Definition isAdd (c : call) : bool :=
  match c with OnAdd _ _ _ => true | _ => false end.

Section walked.
Variables (aa bb : list string) (c : list (list Z)) (s : Z) (P : list string).

(** The insertions that [doAdds] makes, as positions in [bb]. *)
Definition insertAll (ns : list Z) (l : list string) : option (list string) :=
  applyCalls ((λ n, OnAdd (Js.get bb n) (n + s) (n + s)) <$> ns) l.

(** The invariant of the walk from [i], [j] on, for [aa] and [bb] between
    a common prefix [P] of length [s] and any common end [T]: with [r]
    removals made and [adds] deferred so far, the walk makes no insertion,
    defers the insertions [new], and its calls turn [take i aa] into a list
    [K] which the deferred insertions, last first, turn into [take j bb].
    The index that [doAdds] computes for a deferred entry is its position
    in [b]. *)
Definition walked (i j : nat) (r : Z) (adds : list (Z * Z * Z)) : Prop :=
  ∃ calls r' new K,
    walk aa bb c s i j (s + Z.of_nat i) r adds = (calls, r', adds ++ new) ∧
    Forall (λ c, isAdd c = false) calls ∧
    r ≤ r' ∧
    Z.of_nat i - (r' - r) + Z.of_nat (length new) = Z.of_nat j ∧
    (∀ q n idx_e r_e,
       new !! q = Some (n, idx_e, r_e) →
       idx_e - r' + r_e + (Z.of_nat (length new) - 1 - Z.of_nat q) = n + s ∧
       0 ≤ n < Z.of_nat j) ∧
    ∀ T,
      applyCalls calls (P ++ take i aa ++ T) = Some (P ++ K ++ T) ∧
      insertAll (reverse (new.*1.*1)) (P ++ K ++ T)
      = Some (P ++ take j bb ++ T).

End walked.

(** A call fits the lists [a] and [b] when the element it names is at the
    places it gives: [m] in [a] and [n] in [b] for a keep, [m] in [a] for
    a removal, [n] in [b] for an insertion, which is made at [n]. *)
Definition fits (a b : list string) (c : call) : Prop :=
  match c with
  | OnKeep id m n idx => is_Some id ∧ Js.get a m = id ∧ Js.get b n = id
  | OnRemove id m idx => is_Some id ∧ Js.get a m = id
  | OnAdd id n idx => is_Some id ∧ Js.get b n = id ∧ idx = n
  end.

End PatchDiff.


(** ** The client: cache, requests and connection *)

Module Client.
Import Js.

(** Objects have an identity: a cache item is reached through the cache,
    through the closures of pending requests and through the iteration of
    a collection, and a mutation through one path is seen through the
    others.  A [loc] names an object of the store. *)
Abbreviation loc := positive.

(** A resource value.  A collection is the sequence of its models, each
    known here by what [getResourceId] returns for it. *)
Inductive resource :=
| Model
| Collection (models : list string).

(** Modelled from the spec: class [CacheItem] (./CacheItem), of which the
    client uses the fields below and the methods [setSubscribed],
    [setPromise], [addIndirect] and [removeIndirect].  A promise is known
    by its number. *)
Record cacheItem := CacheItem {
  rid : string;
  item : option resource;
  isCollection : option bool;
  type : option string;
  direct : Z;
  indirect : Z;
  subscribed : bool;
  promise : option nat;
}.

(** [new CacheItem(rid, unsubscribe)]. *)
Definition newCacheItem (rid : string) : cacheItem :=
  CacheItem rid None None None 0 0 false None.

(** [if (cacheItem.isCollection)]: the kind is [undefined] as long as no
    item is set. *)
Definition collection (ci : cacheItem) : bool := default false (isCollection ci).

Definition setSubscribed (isSubscribed : bool) (ci : cacheItem) : cacheItem :=
  CacheItem (rid ci) (item ci) (isCollection ci) (type ci) (direct ci)
            (indirect ci) isSubscribed (promise ci).

Definition setPromise (p : nat) (ci : cacheItem) : cacheItem :=
  CacheItem (rid ci) (item ci) (isCollection ci) (type ci) (direct ci)
            (indirect ci) (subscribed ci) (Some p).

Definition addIndirect (ci : cacheItem) : cacheItem :=
  CacheItem (rid ci) (item ci) (isCollection ci) (type ci) (direct ci)
            (indirect ci + 1) (subscribed ci) (promise ci).

Definition removeIndirect (ci : cacheItem) : cacheItem :=
  CacheItem (rid ci) (item ci) (isCollection ci) (type ci) (direct ci)
            (indirect ci - 1) (subscribed ci) (promise ci).

(** An element [{rid, data}] of a collection snapshot. *)
Record ref := Ref {
  r_rid : string;
  r_data : value;
}.

(** The data of a resource: an array for a collection ([Array.isArray]),
    an object for a model. *)
Inductive payload :=
| Object (data : value)
| Array (data : list ref).

(** What a promise is resolved with: a value, the result of a request as
    the server sent it, or the item of a cache item. *)
Inductive answer :=
| Value (v : value)
| Data (result : payload)
| Item (item : option resource).

(** The [then] and [catch] handlers chained on the promise of a request,
    one constructor per place of the source that chains some:
    - [KReturn]: none, the promise goes to the caller as it is;
    - [KGetResource]: the two handlers of [getResource];
    - [KUnsubscribe]: the two handlers of [_unsubscribeCacheItem];
    - [KSubscribeReferred]: the [catch] of [_subscribeReferred].
    The [loc] is the cache item the closure holds on to; a function of the
    application, such as a collection factory, is known by a number. *)
Inductive handlers :=
| KReturn
| KGetResource (rid : string) (cacheItem : loc) (collectionFactory : nat)
| KUnsubscribe (cacheItem : loc)
| KSubscribeReferred (cacheModel : loc).

(** An entry of [this.requests]; [resolve] and [reject] are the two
    functions of the promise numbered [promise], with [chain] on it. *)
Record request := Request {
  method : string;
  params : value;
  chain : handlers;
  settles : nat;
}.

(** What [JSON.stringify(req)] is made from. *)
Record frame := Frame {
  f_id : Z;
  f_method : string;
  f_params : value;
}.

(** A model type: its id; the factory and the change handler are the
    application's. *)
Record modelType := ModelType {
  id : string;
  modelFactory : nat;
  change : option nat;
}.

(** What the event bus is asked to emit. *)
Inductive event :=
| EmitError (err : error)
| EmitAdd (rid : string) (item : option resource) (idx : option Z)
| EmitRemove (rid : string) (item : option string) (idx : option Z).

(** The fields of a [ResClient], and the part of its surroundings it
    acts on:
    - [ws]: the socket, with the frames handed to its [send];
    - [items]: the store of the cache items;
    - [heap]: the store of the plain objects of the caller;
    - [waiting]: the sends that [_send] chained on the connect promise
      that [connectCallback] settles;
    - [timers]: the rids of the pending [setTimeout] of [_setStale];
    - [emitted]: the calls of [eventBus.emit];
    - [settled]: the promises handed out by [_send] that have been
      settled, [nextPromise] the number of the next one. *)
Record client := ResClient {
  tryConnect : bool;
  connected : bool;
  ws : option (list frame);
  requests : gmap Z request;
  reqId : Z;
  cache : gmap string loc;
  modelTypes : gmap string modelType;
  connectPromise : bool;
  connectCallback : bool;
  waiting : list request;
  items : gmap loc cacheItem;
  heap : gmap loc (gmap string value);
  timers : list string;
  emitted : list event;
  settled : gmap nat (completion answer);
  nextPromise : nat;
}.

Definition with_tryConnect (x : bool) (st : client) : client :=
  ResClient x (connected st) (ws st) (requests st) (reqId st) (cache st)
    (modelTypes st) (connectPromise st) (connectCallback st) (waiting st)
    (items st) (heap st) (timers st) (emitted st) (settled st)
    (nextPromise st).
Definition with_ws (x : option (list frame)) (st : client) : client :=
  ResClient (tryConnect st) (connected st) x (requests st) (reqId st)
    (cache st) (modelTypes st) (connectPromise st) (connectCallback st)
    (waiting st) (items st) (heap st) (timers st) (emitted st)
    (settled st) (nextPromise st).
Definition with_requests (x : gmap Z request) (st : client) : client :=
  ResClient (tryConnect st) (connected st) (ws st) x (reqId st) (cache st)
    (modelTypes st) (connectPromise st) (connectCallback st) (waiting st)
    (items st) (heap st) (timers st) (emitted st) (settled st)
    (nextPromise st).
Definition with_reqId (x : Z) (st : client) : client :=
  ResClient (tryConnect st) (connected st) (ws st) (requests st) x
    (cache st) (modelTypes st) (connectPromise st) (connectCallback st)
    (waiting st) (items st) (heap st) (timers st) (emitted st)
    (settled st) (nextPromise st).
Definition with_cache (x : gmap string loc) (st : client) : client :=
  ResClient (tryConnect st) (connected st) (ws st) (requests st)
    (reqId st) x (modelTypes st) (connectPromise st) (connectCallback st)
    (waiting st) (items st) (heap st) (timers st) (emitted st)
    (settled st) (nextPromise st).
Definition with_modelTypes (x : gmap string modelType) (st : client)
    : client :=
  ResClient (tryConnect st) (connected st) (ws st) (requests st)
    (reqId st) (cache st) x (connectPromise st) (connectCallback st)
    (waiting st) (items st) (heap st) (timers st) (emitted st)
    (settled st) (nextPromise st).
Definition with_connectPromise (x : bool) (st : client) : client :=
  ResClient (tryConnect st) (connected st) (ws st) (requests st)
    (reqId st) (cache st) (modelTypes st) x (connectCallback st)
    (waiting st) (items st) (heap st) (timers st) (emitted st)
    (settled st) (nextPromise st).
Definition with_connectCallback (x : bool) (st : client) : client :=
  ResClient (tryConnect st) (connected st) (ws st) (requests st)
    (reqId st) (cache st) (modelTypes st) (connectPromise st) x
    (waiting st) (items st) (heap st) (timers st) (emitted st)
    (settled st) (nextPromise st).
Definition with_waiting (x : list request) (st : client) : client :=
  ResClient (tryConnect st) (connected st) (ws st) (requests st)
    (reqId st) (cache st) (modelTypes st) (connectPromise st)
    (connectCallback st) x (items st) (heap st) (timers st) (emitted st)
    (settled st) (nextPromise st).
Definition with_items (x : gmap loc cacheItem) (st : client) : client :=
  ResClient (tryConnect st) (connected st) (ws st) (requests st)
    (reqId st) (cache st) (modelTypes st) (connectPromise st)
    (connectCallback st) (waiting st) x (heap st) (timers st)
    (emitted st) (settled st) (nextPromise st).
Definition with_heap (x : gmap loc (gmap string value)) (st : client)
    : client :=
  ResClient (tryConnect st) (connected st) (ws st) (requests st)
    (reqId st) (cache st) (modelTypes st) (connectPromise st)
    (connectCallback st) (waiting st) (items st) x (timers st)
    (emitted st) (settled st) (nextPromise st).
Definition with_timers (x : list string) (st : client) : client :=
  ResClient (tryConnect st) (connected st) (ws st) (requests st)
    (reqId st) (cache st) (modelTypes st) (connectPromise st)
    (connectCallback st) (waiting st) (items st) (heap st) x
    (emitted st) (settled st) (nextPromise st).
Definition with_emitted (x : list event) (st : client) : client :=
  ResClient (tryConnect st) (connected st) (ws st) (requests st)
    (reqId st) (cache st) (modelTypes st) (connectPromise st)
    (connectCallback st) (waiting st) (items st) (heap st) (timers st)
    x (settled st) (nextPromise st).
Definition with_settled (x : gmap nat (completion answer)) (st : client)
    : client :=
  ResClient (tryConnect st) (connected st) (ws st) (requests st)
    (reqId st) (cache st) (modelTypes st) (connectPromise st)
    (connectCallback st) (waiting st) (items st) (heap st) (timers st)
    (emitted st) x (nextPromise st).
Definition with_nextPromise (x : nat) (st : client) : client :=
  ResClient (tryConnect st) (connected st) (ws st) (requests st)
    (reqId st) (cache st) (modelTypes st) (connectPromise st)
    (connectCallback st) (waiting st) (items st) (heap st) (timers st)
    (emitted st) (settled st) x.

(** [new ResClient(hostUrl, opt)]. *)
Definition constructor : client :=
  ResClient false false None ∅ 1 ∅ ∅ false false [] ∅ ∅ [] [] ∅ 0.

(** A method call [cacheItem.f()] that updates the object in place. *)
Definition update (l : loc) (f : cacheItem → cacheItem) (st : client)
    : client :=
  with_items (alter f l (items st)) st.

(** [_setStale(rid)]. *)
Definition _setStale (rid : string) (st : client) : client :=
  if connected st then with_timers (timers st ++ [rid]) st else st.

(** [for (let x of xs) body(x)], left as soon as [body] throws; [None]
    when a [body] does not return. *)
Fixpoint forOf {A} (body : A → client → option (client * completion ()))
    (xs : list A) (st : client) : option (client * completion ()) :=
  match xs with
  | [] => Some (st, Normal ())
  | x :: xs =>
      match body x st with
      | Some (st, Normal _) => forOf body xs st
      | r => r
      end
  end.

(** [_tryDelete(cacheItem)], with a bound [fuel] on the depth of its
    recursion: [None] when the bound is reached. *)
Fixpoint _tryDelete_fuel (fuel : nat) (cacheItem : loc) (st : client)
    : option (client * completion bool) :=
  match fuel with
  | O => None
  | S fuel =>
      match items st !! cacheItem with
      | None => Some (st, Throw (TypeError "cacheItem"))
      | Some ci =>
          if bool_decide (indirect ci ≠ 0) then Some (st, Normal false)
          else if bool_decide (direct ci ≠ 0) then
            Some (if subscribed ci then st else _setStale (rid ci) st,
                  Normal false)
          else if subscribed ci then Some (st, Normal false)
          else
            let children :=
              if collection ci then
                match item ci with
                | Some (Collection models) =>
                    forOf (λ rid st,
                      match cache st !! rid with
                      | None =>
                          Some (st, Throw (Thrown
                            "Collection model not found in cache"))
                      | Some cacheModel =>
                          match _tryDelete_fuel fuel cacheModel
                                  (update cacheModel removeIndirect st) with
                          | Some (st, Normal _) => Some (st, Normal ())
                          | Some (st, Throw e) => Some (st, Throw e)
                          | None => None
                          end
                      end) models st
                | _ => Some (st, Throw (TypeError "item is not iterable"))
                end
              else Some (st, Normal ()) in
            match children with
            | Some (st, Normal _) =>
                Some (with_cache (delete (rid ci) (cache st)) st,
                      Normal true)
            | Some (st, Throw e) => Some (st, Throw e)
            | None => None
            end
      end
  end.

(** [for (let x of xs) body(x)] for a [body] that returns. *)
Fixpoint forEach {A} (body : A → client → client * completion ())
    (xs : list A) (st : client) : client * completion () :=
  match xs with
  | [] => (st, Normal ())
  | x :: xs =>
      match body x st with
      | (st, Normal _) => forEach body xs st
      | r => r
      end
  end.

(** [_tryDelete(cacheItem)].  A call goes into the models of a collection
    only after it lowered their [indirect] to 0, which happens once for an
    item: the depth is bounded by the number of items ([tryDelete_fuel_enough]
    below), and the default is never taken. *)
Definition _tryDelete (cacheItem : loc) (st : client)
    : client * completion bool :=
  default (st, Throw (Error "unreachable"))
          (_tryDelete_fuel (S (S (size (items st)))) cacheItem st).

(** One turn of the loop of [_tryDelete] over the models of a collection:
    [cacheModel = this.cache[rid]; if (!cacheModel) throw ...;
     cacheModel.removeIndirect(); this._tryDelete(cacheModel)]. *)
Definition releaseModel (rid : string) (st : client)
    : client * completion () :=
  match cache st !! rid with
  | None => (st, Throw (Thrown "Collection model not found in cache"))
  | Some cacheModel =>
      match _tryDelete cacheModel (update cacheModel removeIndirect st) with
      | (st, Normal _) => (st, Normal ())
      | (st, Throw e) => (st, Throw e)
      end
  end.

(** [_handleFailedSubscribe(cacheItem, err)]. *)
Definition _handleFailedSubscribe (cacheItem : loc) (st : client)
    : client * completion answer :=
  let st := update cacheItem (setSubscribed false) st in
  match _tryDelete cacheItem st with
  | (st, Normal _) => (st, Normal (Value VUndefined))
  | (st, Throw e) => (st, Throw e)
  end.

(** The promise of a request is rejected with [err]: what the [catch]
    handlers chained on it do, and how the last promise of the chain is
    settled. *)
Definition rejected (k : handlers) (err : error) (st : client)
    : client * completion answer :=
  match k with
  | KReturn => (st, Throw err)
  | KGetResource _ cacheItem _ =>
      (* err => { cacheItem.setSubscribed(false);
                  this._tryDelete(cacheItem); throw err; } *)
      let st := update cacheItem (setSubscribed false) st in
      match _tryDelete cacheItem st with
      | (st, Normal _) => (st, Throw err)
      | (st, Throw e) => (st, Throw e)
      end
  | KUnsubscribe cacheItem =>
      (* err => this._tryDelete(cacheItem) *)
      match _tryDelete cacheItem st with
      | (st, Normal b) => (st, Normal (Value (VBool b)))
      | (st, Throw e) => (st, Throw e)
      end
  | KSubscribeReferred cacheModel => _handleFailedSubscribe cacheModel st
  end.

(** [req.reject(err)]. *)
Definition reject (req : request) (err : error) (st : client) : client :=
  let '(st, r) := rejected (chain req) err st in
  with_settled (<[settles req := r]> (settled st)) st.

(** [JSON.stringify] reads the object a reference points to. *)
Definition stringify (st : client) (v : value) : value :=
  match v with
  | VRef l => VObj (default ∅ (heap st !! l))
  | v => v
  end.

(** [_sendNow(method, params)], for the promise numbered [p] with the
    handlers [k] chained on it.  The id of the request is the value of
    [this.reqId] before [this.reqId++]; the request is stored in
    [this.requests] and written into the frame under that id.  When there
    is no socket, [this.ws.send] throws inside the executor of the promise,
    which rejects it; its handlers, which run once the current call has
    returned, are run in place. *)
Definition _sendNow (method : string) (params : value) (k : handlers)
    (p : nat) (st : client) : client :=
  let id := reqId st in
  let st := with_reqId (increment id) st in
  let params := if truthy params then params else VUndefined in
  let req := Request method params k p in
  let st := with_requests (<[id := req]> (requests st)) st in
  match ws st with
  | Some sent =>
      with_ws (Some (sent ++ [Frame id method (stringify st params)])) st
  | None => reject req (TypeError "this.ws is null") st
  end.

(** [connect()]. *)
Definition connect (st : client) : client :=
  let st := with_tryConnect true st in
  if connectPromise st then st
  else
    with_ws (Some [])
      (with_connectCallback true (with_waiting [] (with_connectPromise true st))).

(** [_send(method, params)], with the handlers [k] that the caller chains on
    the promise it gets; returns the number of that promise.  A connect
    promise that is there while [connectCallback] is not has been resolved. *)
Definition _send (method : string) (params : value) (k : handlers)
    (st : client) : client * nat :=
  let p := nextPromise st in
  let st := with_nextPromise (S p) st in
  if connected st then (_sendNow method params k p st, p)
  else
    let st := connect st in
    if connectCallback st
    then (with_waiting (waiting st ++ [Request method params k p]) st, p)
    else (_sendNow method params k p st, p).

(** [_connectResolve()]: the sends chained on the connect promise run. *)
Definition _connectResolve (st : client) : client :=
  if connectCallback st then
    let queued := waiting st in
    let st := with_waiting [] (with_connectCallback false st) in
    foldl (λ st w, _sendNow (method w) (params w) (chain w) (settles w) st)
          st queued
  else st.

(** [_connectReject(e)]: the sends chained on the connect promise fail. *)
Definition _connectReject (e : error) (st : client) : client :=
  let st := with_ws None (with_connectPromise false st) in
  if connectCallback st then
    let queued := waiting st in
    let st := with_waiting [] (with_connectCallback false st) in
    foldl (λ st w, reject w e st) st queued
  else st.



(** What [getResource] returns: a pending promise, or one resolved with the
    item. *)
Inductive future :=
| Pending (p : nat)
| Resolved (item : option resource).

(** [getResource(rid, collectionFactory)].  [this.cache] is a plain
    object: for a [rid] that names a property of [Object.prototype] and is
    not cached, [this.cache[rid]] is that property, which is truthy and has
    no [promise] and no [item]. *)
Definition getResource (rid : string) (collectionFactory : nat)
    (st : client) : client * completion future :=
  match read (cache st) rid with
  | Own cacheItem =>
      match items st !! cacheItem with
      | None => (st, Throw (TypeError "cacheItem"))
      | Some ci =>
          (st, Normal match promise ci with
                      | Some p => Pending p
                      | None => Resolved (item ci)
                      end)
      end
  | Inherited _ => (st, Normal (Resolved None))
  | Undefined =>
      let cacheItem := fresh (dom (items st)) in
      let st :=
        with_items (<[cacheItem := setSubscribed true (newCacheItem rid)]>
                      (items st)) st in
      let st := with_cache (<[rid := cacheItem]> (cache st)) st in
      let '(st, p) :=
        _send ("subscribe." +:+ rid) VUndefined
              (KGetResource rid cacheItem collectionFactory) st in
      let st := update cacheItem (setPromise p) st in
      (st, Normal (Pending p))
  end.

(** [const actionDelete = { action: 'delete' }]. *)
Definition actionDelete : value := VObj {[ "action" := VStr "delete" ]}.

(** [k => { if (props[k] === undefined) { props[k] = actionDelete; } }],
    for the object [props] of the store. *)
Definition replaceUndefined (props : loc) (st : client) (k : string)
    : client :=
  match heap st !! props ≫= (.!! k) with
  | Some VUndefined | None =>
      with_heap (alter (<[k := actionDelete]>) props (heap st)) st
  | Some _ => st
  end.

(** [setModel(modelId, props)], where [props] is an object of the caller.
    [Object.assign] assigns each property of [props] to the new object,
    and an assignment to [__proto__] goes to the setter that every object
    inherits: it makes no property of the new object, so that a key
    [__proto__] of [props] is neither among [Object.keys] of the copy nor
    in what [JSON.stringify] writes. *)
Definition setModel (modelId : string) (props : loc) (st : client)
    : client * nat :=
  (* props = Object.assign({}, props) *)
  let source := delete "__proto__" (default ∅ (heap st !! props)) in
  let props := fresh (dom (heap st)) in
  let st := with_heap (<[props := source]> (heap st)) st in
  (* Object.keys(props).forEach(k => { ... }) *)
  let st := foldl (replaceUndefined props) st (map_to_list source).*1 in
  _send ("call." +:+ modelId +:+ ".set") (VRef props) KReturn st.

(** The regular expression [/^[^.]+\.[^.]+$/]: the rest of [s] after its
    longest prefix without a dot. *)
Fixpoint skipNonDots (s : string) : string :=
  match s with
  | String c s' => if Ascii.eqb c "."%char then s else skipNonDots s'
  | EmptyString => EmptyString
  end.

(** [[^.]+]: at least one character other than a dot, then as many as there
    are; [None] when there is none. *)
Definition someNonDots (s : string) : option string :=
  match s with
  | String c s' => if Ascii.eqb c "."%char then None else Some (skipNonDots s')
  | EmptyString => None
  end.

Definition matchesTypeId (s : string) : bool :=
  match someNonDots s with
  | Some (String c rest) =>
      Ascii.eqb c "."%char && bool_decide (someNonDots rest = Some EmptyString)
  | _ => false
  end.

(** The strings of [/^[^.]+\.[^.]+$/], said directly: two parts without
    a dot, neither of them empty, with a dot between them. *)
Fixpoint noDots (s : string) : bool :=
  match s with
  | String c s' => negb (Ascii.eqb c ".") && noDots s'
  | EmptyString => true
  end.

Definition typeId (s : string) : Prop :=
  ∃ u v, s = u +:+ String "." v ∧ u ≠ "" ∧ v ≠ "" ∧
         noDots u = true ∧ noDots v = true.

(** [registerModelType(modelType)].  The message of the first [throw] reads
    [modeType], which is bound nowhere. *)
Definition registerModelType (modelType : modelType) (st : client)
    : client * completion () :=
  if bool_decide (is_Some (modelTypes st !! id modelType)) then
    (st, Throw (ReferenceError "modeType"))
  else if String.eqb (id modelType) "" || negb (matchesTypeId (id modelType))
  then (st, Throw (Error ("Invalid model type id: " +:+ id modelType)))
  else
    (with_modelTypes (<[id modelType := modelType]> (modelTypes st)) st,
     Normal ()).

(** [unregisterModelType(modelTypeId)]. *)
Definition unregisterModelType (modelTypeId : string) (st : client)
    : client * option modelType :=
  match modelTypes st !! modelTypeId with
  | None => (st, None)
  | Some modelType =>
      (with_modelTypes (delete modelTypeId (modelTypes st)) st, Some modelType)
  end.

(** *** What a call leaves alone *)

(** The items that some collection still refers to. *)
Definition referred (st : client) : nat :=
  size (filter (λ p : loc * cacheItem, 0 < indirect p.2) (items st)).

(** All of a cache item but its [indirect]. *)
Definition identity (ci : cacheItem) :=
  (rid ci, item ci, isCollection ci, type ci, direct ci, subscribed ci, promise ci).

(** [st'] differs from [st] in the cache, the [indirect] of items and the timers at most. *)
Definition releases (st st' : client) : Prop :=
  tryConnect st' = tryConnect st ∧ connected st' = connected st ∧
  ws st' = ws st ∧ requests st' = requests st ∧ reqId st' = reqId st ∧
  modelTypes st' = modelTypes st ∧ connectPromise st' = connectPromise st ∧
  connectCallback st' = connectCallback st ∧ waiting st' = waiting st ∧
  heap st' = heap st ∧ emitted st' = emitted st ∧ settled st' = settled st ∧
  nextPromise st' = nextPromise st ∧
  (∀ l, identity <$> items st' !! l = identity <$> items st !! l) ∧
  cache st' ⊆ cache st.

(** What settling a promise leaves alone: all but what [_tryDelete] may
    change, the flag [subscribed] of items and the settled promises. *)
Definition settles_only (st st' : client) : Prop :=
  tryConnect st' = tryConnect st ∧ connected st' = connected st ∧
  ws st' = ws st ∧ requests st' = requests st ∧ reqId st' = reqId st ∧
  modelTypes st' = modelTypes st ∧ connectPromise st' = connectPromise st ∧
  connectCallback st' = connectCallback st ∧ waiting st' = waiting st ∧
  heap st' = heap st ∧ emitted st' = emitted st ∧
  nextPromise st' = nextPromise st.

(** The frame [_sendNow] hands to the socket for a queued request. *)
Definition frameOf (st : client) (id : Z) (w : request) : frame :=
  Frame id (method w)
        (stringify st (if truthy (params w) then params w else VUndefined)).

(** [undefined] becomes the delete action, any other value stays. *)
Definition sentinel (v : value) : value :=
  match v with VUndefined => actionDelete | _ => v end.

(** A session: the sends on the way from one state of the client to
    another, oldest first, each with the id that [_sendNow] took for the
    request and with the client as the send left it.  Between two sends the
    client does whatever it does, but [reqId] is written by [_sendNow]
    alone. *)
Inductive issues : client → list (Z * client) → client → Prop :=
| issues_nil st : issues st [] st
| issues_send st sends st1 method params k p :
    issues st sends st1 →
    issues st (sends ++ [(reqId st1, _sendNow method params k p st1)])
           (_sendNow method params k p st1)
| issues_other st sends st1 st2 :
    issues st sends st1 → reqId st2 = reqId st1 → issues st sends st2.

(** *** Synchronisation of a stale item with a snapshot *)

(** The data of an add or remove event: [{rid, data, idx}], where a property
    that is not there reads as [undefined]. *)
Record eventData := EventData {
  e_rid : option string;
  e_data : value;
  e_idx : option Z;
}.

Definition emit (e : event) (st : client) : client :=
  with_emitted (emitted st ++ [e]) st.

Definition setModels (models : list string) (ci : cacheItem) : cacheItem :=
  CacheItem (rid ci) (Some (Collection models)) (isCollection ci) (type ci)
            (direct ci) (indirect ci) (subscribed ci) (promise ci).

Section sync.

(** How a snapshot becomes a model and how a change is merged into one
    depends on the model types and factories of the application:
    [_getCachedResource(rid, data, addIndirect, collectionFactory)] and
    [_handleChangeEvent(cacheItem, event, data)] are left open, and what
    follows holds for whatever they do. *)
Variable _getCachedResource :
  option string → payload → bool → option nat → client →
  client * completion loc.
Variable _handleChangeEvent :
  loc → string → value → client → client * completion ().

(** [cacheItem.item.__add(rid, cacheModel.item, data.idx)] is a call of
    the collection that a factory of the application made for the cache
    item: what it does to the collection and what it returns is left open
    as well.  (The [__add(item, idx)] of class [ResCollection], called with
    these three arguments, takes the rid for the item and the model for
    the index.) *)
Variable __add :
  loc → option string → option resource → option Z → client →
  client * completion (option Z).

(** [_handleAddEvent(cacheItem, event, data)]:
    [let cacheModel = this._getCachedResource(rid, data.data, true);
     let idx = cacheItem.item.__add(rid, cacheModel.item, data.idx);
     this.eventBus.emit(..., { item: cacheModel.item, idx })]. *)
Definition _handleAddEvent (cacheItem : loc) (data : eventData) (st : client)
    : client * completion () :=
  match items st !! cacheItem with
  | None => (st, Throw (TypeError "cacheItem"))
  | Some ci =>
      if negb (collection ci) then (st, Throw (Error "Add event on model"))
      else
        match _getCachedResource (e_rid data) (Object (e_data data)) true
                None st with
        | (st, Throw e) => (st, Throw e)
        | (st, Normal cacheModel) =>
            let item := items st !! cacheModel ≫= item in
            match __add cacheItem (e_rid data) item (e_idx data) st with
            | (st, Throw e) => (st, Throw e)
            | (st, Normal idx) =>
                (emit (EmitAdd (rid ci) item idx) st, Normal ())
            end
        end
  end.

(** [_handleRemoveEvent(cacheItem, event, data)], with [__remove(idx)] as
    class [ResCollection] has it: [let item = this._list[idx];
    this._list.splice(idx, 1); return item]. *)
Definition _handleRemoveEvent (cacheItem : loc) (data : eventData)
    (st : client) : client * completion () :=
  match items st !! cacheItem with
  | None => (st, Throw (TypeError "cacheItem"))
  | Some ci =>
      if negb (collection ci)
      then (st, Throw (Error "Remove event on model"))
      else
        let idx := e_idx data in
        match item ci with
        | Some (Collection models) =>
            let item := idx ≫= get models in
            let st :=
              update cacheItem (setModels (splice models idx 1 [])) st in
            let st := emit (EmitRemove (rid ci) item idx) st in
            match item with
            | None => (st, Throw (TypeError "item is undefined"))
            | Some rid =>
                match cache st !! rid with
                | None => (st, Throw (Error "Removed model is not in cache"))
                | Some cacheModel =>
                    let st := update cacheModel removeIndirect st in
                    match _tryDelete cacheModel st with
                    | (st, Normal _) => (st, Normal ())
                    | (st, Throw e) => (st, Throw e)
                    end
                end
            end
        | _ => (st, Throw (TypeError "item"))
        end
  end.

(** [_syncResource(cacheItem, data)]: the three callbacks it hands to
    [_patchDiff], run on the calls [_patchDiff] makes. *)
Definition _syncResource (cacheItem : loc) (data : payload) (st : client)
    : client * completion () :=
  match items st !! cacheItem with
  | None => (st, Throw (TypeError "cacheItem"))
  | Some ci =>
      match data with
      | Object data =>
          if bool_decide (isCollection ci ≠ Some false)
          then (st, Throw (Error "Resource type inconsistency"))
          else _handleChangeEvent cacheItem "change" data st
      | Array data =>
          if bool_decide (isCollection ci ≠ Some true)
          then (st, Throw (Error "Resource type inconsistency"))
          else
            match item ci with
            | Some (Collection a) =>
                let b := r_rid <$> data in
                forEach (λ c st,
                  match c with
                  | PatchDiff.OnKeep id m n idx =>
                      match get data n with
                      | None => (st, Throw (TypeError "data[n]"))
                      | Some d =>
                          if truthy (r_data d) then
                            match _getCachedResource id (Object (r_data d))
                                    false None st with
                            | (st, Normal _) => (st, Normal ())
                            | (st, Throw e) => (st, Throw e)
                            end
                          else (st, Normal ())
                      end
                  | PatchDiff.OnAdd id n idx =>
                      match get data n with
                      | None => (st, Throw (TypeError "data[n]"))
                      | Some d =>
                          _handleAddEvent cacheItem
                            (EventData id (r_data d) (Some idx)) st
                      end
                  | PatchDiff.OnRemove id m idx =>
                      _handleRemoveEvent cacheItem
                        (EventData id VUndefined None) st
                  end) (PatchDiff._patchDiff a b) st
            | _ => (st, Throw (TypeError "collection"))
            end
      end
  end.

(** The promise of a request is resolved with [result]: what the [then]
    handlers chained on it do, a [catch] after them taking over when one
    throws. *)
Definition resolved (k : handlers) (result : payload) (st : client)
    : client * completion answer :=
  match k with
  | KReturn => (st, Normal (Data result))
  | KGetResource rid cacheItem collectionFactory =>
      (* response => this._getCachedResource(rid, response, false,
                                             collectionFactory).item *)
      match _getCachedResource (Some rid) result false
              (Some collectionFactory) st with
      | (st, Normal l) =>
          match items st !! l with
          | Some ci => (st, Normal (Item (item ci)))
          | None => rejected k (TypeError "cacheItem") st
          end
      | (st, Throw e) => rejected k e st
      end
  | KUnsubscribe cacheItem =>
      (* () => { cacheItem.setSubscribed(false);
                 this._tryDelete(cacheItem); } *)
      let st := update cacheItem (setSubscribed false) st in
      match _tryDelete cacheItem st with
      | (st, Normal _) => (st, Normal (Value VUndefined))
      | (st, Throw e) => rejected k e st
      end
  | KSubscribeReferred _ => (st, Normal (Data result))
  end.

(** [req.resolve(result)]. *)
Definition resolve (req : request) (result : payload) (st : client)
    : client :=
  let '(st, r) := resolved (chain req) result st in
  with_settled (<[settles req := r]> (settled st)) st.

(** A message of the server that has an [id]. *)
Inductive response :=
| Result (id : Z) (result : payload)
| Failure (id : Z) (code message : string) (data : value).

Definition responseId (data : response) : Z :=
  match data with Result id _ | Failure id _ _ _ => id end.

(** [_handleErrorResponse(req, data)]. *)
Definition _handleErrorResponse (req : request) (code message : string)
    (data : value) (st : client) : client :=
  let err := ResError code message data (method req) (params req) in
  reject req err (emit (EmitError err) st).

(** [_handleSuccessResponse(req, data)]. *)
Definition _handleSuccessResponse (req : request) (result : payload)
    (st : client) : client :=
  resolve req result st.

(** [_receive(json)], for a message with an [id]. *)
Definition _receive (data : response) (st : client)
    : client * completion () :=
  match requests st !! responseId data with
  | None => (st, Throw (Error "Server response without matching request"))
  | Some req =>
      let st := with_requests (delete (responseId data) (requests st)) st in
      match data with
      | Failure _ code message d =>
          (_handleErrorResponse req code message d st, Normal ())
      | Result _ result => (_handleSuccessResponse req result st, Normal ())
      end
  end.

End sync.

(** *** Calls, events and the end of a connection *)

Definition with_connected (x : bool) (st : client) : client :=
  ResClient (tryConnect st) x (ws st) (requests st) (reqId st) (cache st)
    (modelTypes st) (connectPromise st) (connectCallback st) (waiting st)
    (items st) (heap st) (timers st) (emitted st) (settled st)
    (nextPromise st).

(** [disconnect()].  [this.ws.close()] starts the closing of the socket;
    its close event comes later, as a call of [_handleOnclose]. *)
Definition disconnect (st : client) : client :=
  let st := with_tryConnect false st in
  match ws st with
  | Some _ => _connectReject (Error "Disconnect called") st
  | None => st
  end.

(** [callModel(modelId, method, params)]. *)
Definition callModel (modelId method : string) (params : value)
    (st : client) : client * nat :=
  _send ("call." +:+ modelId +:+ "." +:+ method) params KReturn st.

(** [authenticate(rid, method, params)]. *)
Definition authenticate (rid method : string) (params : value) (st : client)
    : client * nat :=
  _send ("auth." +:+ rid +:+ "." +:+ method) params KReturn st.

(** [removeModel(collectionId, rid)]. *)
Definition removeModel (collectionId rid : string) (st : client)
    : client * nat :=
  _send ("call." +:+ collectionId +:+ ".remove")
        (VObj {[ "rid" := VStr rid ]}) KReturn st.

(** The loop of [_getModelType]:
    [while (n-- && i++ < l) { i = resourceName.indexOf('.', i);
                              if (i < 0) { i = resourceName.length; break; } }],
    from the values [n] and [i] on; gives the final [i]. *)
Fixpoint typeNameEnd (resourceName : string) (n : nat) (i : Z) : Z :=
  let l := Z.of_nat (String.length resourceName) in
  match n with
  | O => i
  | S n =>
      if bool_decide (i < l) then
        let i := indexOf "." resourceName (i + 1) in
        if bool_decide (i < 0) then l else typeNameEnd resourceName n i
      else i + 1
  end.

(** [_getModelType(resourceName)], which ends in
    [return this.modelTypes[typeName] || defaultModelType]: [Undefined]
    stands for the [defaultModelType], and [Inherited k] for the property
    [k] of [Object.prototype], which is truthy and so is returned as if it
    were a model type. *)
Definition _getModelType (resourceName : string) (st : client)
    : field modelType :=
  let i := typeNameEnd resourceName 2 (-1) in
  let typeName := substr resourceName 0 (Some i) in
  read (modelTypes st) typeName.

(** [v !== null && typeof v === 'object']. *)
Definition isObject (v : value) : bool :=
  match v with VObj _ | VRef _ => true | _ => false end.

(** [v[key]], for an object by content or by place. *)
Definition property (st : client) (v : value) (key : string) : option value :=
  match v with
  | VObj fields => fields !! key
  | VRef l => heap st !! l ≫= (.!! key)
  | _ => None
  end.

(** [v.action === 'delete']. *)
Definition isDelete (st : client) (v : value) : bool :=
  match property st v "action" with
  | Some (VStr action) => String.eqb action "delete"
  | _ => false
  end.

(** [for (let key in data)]: the keys of an object. *)
Definition keysOf (st : client) (data : value) : list string :=
  match data with
  | VObj fields => (map_to_list fields).*1
  | VRef l => (map_to_list (default ∅ (heap st !! l))).*1
  | _ => []
  end.

(** [data[key] = undefined]. *)
Definition clearProperty (key : string) (data : value) (st : client)
    : client * value :=
  match data with
  | VObj fields => (st, VObj (<[key := VUndefined]> fields))
  | VRef l =>
      (with_heap (alter (<[key := VUndefined]>) l (heap st)) st, data)
  | _ => (st, data)
  end.

(** The loop of [_handleChangeEvent] over the keys of [data], in the order
    [keys]: a delete action becomes [undefined], any other object is an
    error. *)
Fixpoint deleteActions (keys : list string) (data : value) (st : client)
    : client * completion value :=
  match keys with
  | [] => (st, Normal data)
  | key :: keys =>
      match property st data key with
      | Some v =>
          if isObject v then
            if isDelete st v then
              let '(st, data) := clearProperty key data st in
              deleteActions keys data st
            else (st, Throw (Error "Unsupported model change value: "))
          else deleteActions keys data st
      | None => deleteActions keys data st
      end
  end.

Section change.

(** What becomes of a change once the delete actions are replaced is up
    to the model type and the model:
    [if (cacheItem.type.change) { cacheItem.type.change(cacheItem.item, data); }
     else { let changed = cacheItem.item.__update(data); ... }]. *)
Variable deliver : loc → string → value → client → client * completion ().

(** [_handleChangeEvent(cacheItem, event, data)]. *)
Definition _handleChangeEvent (cacheItem : loc) (event : string)
    (data : value) (st : client) : client * completion () :=
  match deleteActions (keysOf st data) data st with
  | (st, Normal data) => deliver cacheItem event data st
  | (st, Throw e) => (st, Throw e)
  end.

End change.

(** [if (data)] and [if (!data)] for the data of a resource: an array is
    an object, and so truthy. *)
Definition given (data : payload) : bool :=
  match data with
  | Object data => truthy data
  | Array _ => true
  end.

(** [data.map(m => ...)], left as soon as the function throws. *)
Fixpoint mapRefs {A} (f : ref → client → client * completion A)
    (data : list ref) (st : client) : client * completion (list A) :=
  match data with
  | [] => (st, Normal [])
  | m :: data =>
      match f m st with
      | (st, Normal x) =>
          match mapRefs f data st with
          | (st, Normal xs) => (st, Normal (x :: xs))
          | (st, Throw e) => (st, Throw e)
          end
      | (st, Throw e) => (st, Throw e)
      end
  end.

Section ingest.

(** The end of [_handleChangeEvent] and the [__add] of a collection, as
    above, and the two places where [_getCachedResource] hands the data to
    a factory of the application and the result to the cache item:
    [cacheItem.setItem(collectionFactory(this, rid, modelConts), true)] and
    [cacheItem.setItem(modelType.modelFactory(this, rid, data), false)
              .setType(modelType)].
    The cache item is [None] where [this.cache[rid]] was a property of
    [Object.prototype] instead of a cache item: the factory is called all
    the same, and the call of [setItem], which that property does not
    have, throws after it. *)
Variable deliver : loc → string → value → client → client * completion ().
Variable setCollection :
  option loc → string → list (string * option resource) → option nat →
  client → client * completion ().
Variable setModelItem :
  option loc → string → value → field modelType → client →
  client * completion ().
Variable __add :
  loc → option string → option resource → option Z → client →
  client * completion (option Z).

(** The body of [_getCachedResource(rid, data, addIndirect,
    collectionFactory)], with [self] for [this._getCachedResource].  A rid
    that is [undefined] reads as ["undefined"] where it is a key or a part
    of a string. *)
Definition getCachedResource_body
    (self : option string → payload → bool → option nat → client →
            client * completion loc)
    (rid : option string) (data : payload) (addIndirect : bool)
    (collectionFactory : option nat) (st : client)
    : client * completion loc :=
  let key := default "undefined" rid in
  let fill (cacheItem : option loc) (st : client) : client * completion loc :=
    let counted :=
      (* if (addIndirect) { cacheItem.addIndirect(); } *)
      if addIndirect then
        match cacheItem with
        | Some l => (update l Client.addIndirect st, Normal ())
        | None =>
            (st, Throw (TypeError "cacheItem.addIndirect is not a function"))
        end
      else (st, Normal ()) in
    match counted with
    | (st, Throw e) => (st, Throw e)
    | (st, Normal _) =>
        if negb (given data)
        then (st, Throw (Error ("No data for resource ID " +:+ key)))
        else
          let store (r : client * completion ()) : client * completion loc :=
            match r, cacheItem with
            | (st, Throw e), _ => (st, Throw e)
            | (st, Normal _), Some l => (st, Normal l)
            | (st, Normal _), None =>
                (st, Throw (TypeError "cacheItem.setItem is not a function"))
            end in
          match data with
          | Array data =>
              match mapRefs (λ m st,
                      match self (Some (r_rid m)) (Object (r_data m)) true
                                 None st with
                      | (st, Normal cacheModel) =>
                          (st, Normal (r_rid m,
                                       items st !! cacheModel ≫= item))
                      | (st, Throw e) => (st, Throw e)
                      end) data st with
              | (st, Normal modelConts) =>
                  store (setCollection cacheItem key modelConts
                                     collectionFactory st)
              | (st, Throw e) => (st, Throw e)
              end
          | Object data =>
              match rid with
              | None => (st, Throw (TypeError "resourceName is undefined"))
              | Some rid =>
                  store (setModelItem cacheItem rid data (_getModelType rid st)
                                    st)
              end
          end
    end in
  match read (cache st) key with
  | Own cacheItem =>
      match items st !! cacheItem with
      | None => (st, Throw (TypeError "cacheItem"))
      | Some ci =>
          if bool_decide (is_Some (item ci)) then
            match
              if given data
              then _syncResource self (_handleChangeEvent deliver) __add
                                 cacheItem data st
              else (st, Normal ())
            with
            | (st, Normal _) =>
                (if addIndirect then update cacheItem Client.addIndirect st
                 else st, Normal cacheItem)
            | (st, Throw e) => (st, Throw e)
            end
          else fill (Some cacheItem) st
      end
  | Inherited _ =>
      (* [cacheItem] is truthy, [cacheItem.item] is not. *)
      fill None st
  | Undefined =>
      let cacheItem := fresh (dom (items st)) in
      let st := with_items (<[cacheItem := newCacheItem key]> (items st)) st in
      let st := with_cache (<[key := cacheItem]> (cache st)) st in
      fill (Some cacheItem) st
  end.

(** [_getCachedResource] for the data of a model, which come with every
    call that [_getCachedResource] and [_syncResource] make themselves:
    no call is made from it ([getCachedResource_model] below). *)
Definition getCachedModel
    : option string → payload → bool → option nat → client →
      client * completion loc :=
  getCachedResource_body (λ _ _ _ _ st, (st, Throw (Error "unreachable"))).

(** [_getCachedResource(rid, data, addIndirect, collectionFactory)]. *)
Definition _getCachedResource
    : option string → payload → bool → option nat → client →
      client * completion loc :=
  getCachedResource_body getCachedModel.

End ingest.

(** What a call asks of the event bus and of the timers, besides what
    [emitted] and [timers] hold: an event of the client, the unsubscribe
    event of a resource, an event of a resource that the client has no
    handler for, and the timer of [_reconnect]. *)
Inductive effect (D : Type) :=
| Emit (event : string)
| EmitUnsubscribe (rid : string) (item : option resource)
| EmitCustom (rid event : string) (data : D)
| SetReconnect.
Arguments Emit {D} event.
Arguments EmitUnsubscribe {D} rid item.
Arguments EmitCustom {D} rid event data.
Arguments SetReconnect {D}.

(** [_handleUnsubscribeEvent(cacheItem, event)]. *)
Definition _handleUnsubscribeEvent {D} (cacheItem : loc) (st : client)
    : client * completion () * list (effect D) :=
  let st := update cacheItem (setSubscribed false) st in
  match _tryDelete cacheItem st with
  | (st, Throw e) => (st, Throw e, [])
  | (st, Normal _) =>
      match items st !! cacheItem with
      | Some ci => (st, Normal (), [EmitUnsubscribe (rid ci) (item ci)])
      | None => (st, Throw (TypeError "cacheItem"), [])
      end
  end.

Section events.

(** The data of an event is whatever the server sent with it; the handlers
    of the three kinds of event that carry data are taken as they come. *)
Context {D : Type}.
Variables handleChange handleAdd handleRemove :
  loc → string → D → client → client * completion ().

(** [_handleEvent(data)], for [data.event] and [data.data]. *)
Definition _handleEvent (event : string) (data : D) (st : client)
    : client * completion () * list (effect D) :=
  let idx := lastIndexOf "." event in
  if bool_decide (idx < 0)
     || bool_decide (idx = Z.of_nat (String.length event) - 1)
  then (st, Throw (Error ("Malformed event name: " +:+ event)), [])
  else
    let rid := substr event 0 (Some idx) in
    match cache st !! rid with
    | None => (st, Throw (Error "Resource not found in cache"), [])
    | Some cacheItem =>
        let event := substr event (idx + 1) None in
        if String.eqb event "change"
        then (handleChange cacheItem event data st, [])
        else if String.eqb event "add"
        then (handleAdd cacheItem event data st, [])
        else if String.eqb event "remove"
        then (handleRemove cacheItem event data st, [])
        else if String.eqb event "unsubscribe"
        then _handleUnsubscribeEvent cacheItem st
        else (st, Normal (), [EmitCustom rid event data])
    end.

End events.

(** What the loop of [_handleChangeEvent] makes of a value: [undefined]
    of a delete action, and the value itself of any other. *)
Definition restore (st : client) (v : value) : value :=
  if isObject v && isDelete st v then VUndefined else v.

(** One turn of the loop of [_handleOnclose]:
    [let cacheItem = this.cache[id]; this.cache[id].setSubscribed(false);
     this._tryDelete(cacheItem)].  [for ... in] leaves out a key that has
    been deleted before its turn. *)
Definition closeItem (id : string) (st : client) : client * completion () :=
  match cache st !! id with
  | None => (st, Normal ())
  | Some cacheItem =>
      let st := update cacheItem (setSubscribed false) st in
      match _tryDelete cacheItem st with
      | (st, Normal _) => (st, Normal ())
      | (st, Throw e) => (st, Throw e)
      end
  end.

(** [_handleOnclose(e)], where [keys] are the keys of the cache in the
    order in which [for (let id in this.cache)] takes them. *)
Definition _handleOnclose (keys : list string) (st : client)
    : client * completion () * list (effect ()) :=
  let st := with_ws None (with_connectPromise false st) in
  let '(st, r, closed) :=
    if connected st then
      let st := with_connected false st in
      match forEach closeItem keys st with
      | (st, Normal _) => (st, Normal (), [Emit "close"])
      | (st, Throw e) => (st, Throw e, [])
      end
    else (st, Normal (), []) in
  match r with
  | Normal _ =>
      (st, r, closed ++ (if tryConnect st then [SetReconnect] else []))
  | Throw _ => (st, r, closed)
  end.

(** The models of a collection as [_tryDelete] needs them: each under its
    rid in the cache, and no collection itself. *)
Definition cachedModels (models : list string) (st : client) : Prop :=
  ∀ r, r ∈ models →
       ∃ lm cm, cache st !! r = Some lm ∧ items st !! lm = Some cm ∧
                rid cm = r ∧ collection cm = false.

(** No item that the cache reaches under one of the [keys] is
    subscribed. *)
Definition unsubscribed (keys : list string) (st : client) : Prop :=
  ∀ rid l ci, rid ∈ keys → cache st !! rid = Some l →
              items st !! l = Some ci → subscribed ci = false.

End Client.

(** ** The collection value: class [ResCollection] *)

Module ResCollection.
Import Js.

(** The fields of a [ResCollection].  An item is any value; [_idCallback]
    stands for [v => String(this._idCallback(v))]. *)
Record resCollection := ResCollection {
  _rid : string;
  _idCallback : option (value → string);
  _map : option (gmap string value);
  _list : option (list value);
}.

(** [new ResCollection(api, rid, opt)]. *)
Definition constructor (rid : string) (idCallback : option (value → string))
    : resCollection :=
  ResCollection rid idCallback (match idCallback with Some _ => Some ∅ | None => None end) None.

Definition with_list (l : list value) (c : resCollection) : resCollection :=
  ResCollection (_rid c) (_idCallback c) (_map c) (Some l).

Definition with_map (m : gmap string value) (c : resCollection)
    : resCollection :=
  ResCollection (_rid c) (_idCallback c) (Some m) (_list c).

(** [indexOf(item)]: the argument of [this._list.indexOf] is the identifier
    [id], which is bound nowhere. *)
Definition indexOf (item : value) (c : resCollection) : completion Z :=
  match _list c with
  | None => Throw (TypeError "this._list is null")
  | Some _ => Throw (ReferenceError "id")
  end.

(** [atIndex(idx)]. *)
Definition atIndex (idx : Z) (c : resCollection) : completion (option value) :=
  match _list c with
  | None => Throw (TypeError "this._list is null")
  | Some l => Normal (get l idx)
  end.

(** The [forEach] of [__init], over the rest of the list, with [m] for
    [this._map]. *)
Fixpoint initMap (idCallback : value → string) (l : list value)
    (m : gmap string value) : gmap string value * completion () :=
  match l with
  | [] => (m, Normal ())
  | v :: l =>
      let id := idCallback v in
      if from_option truthy false (m !! id)
      then (m, Throw (Error ("Duplicate id - " +:+ id)))
      else initMap idCallback l (<[id := v]> m)
  end.

(** [__init(data)]. *)
Definition __init (data : option (list value)) (c : resCollection)
    : resCollection * completion () :=
  let c := with_list (default [] data) c in
  match _idCallback c with
  | Some idCallback =>
      let '(m, r) := initMap idCallback (default [] data) ∅ in
      (with_map m c, r)
  | None => (c, Normal ())
  end.

(** [__add(item, idx)]: with an id callback, the argument of the callback
    is the identifier [v], which is bound nowhere. *)
Definition __add (item : value) (idx : option Z) (c : resCollection)
    : resCollection * completion () :=
  match _list c with
  | None => (c, Throw (TypeError "this._list is null"))
  | Some l =>
      let c := with_list (splice l idx 0 [item]) c in
      match _idCallback c with
      | Some _ => (c, Throw (ReferenceError "v"))
      | None => (c, Normal ())
      end
  end.

(** [__remove(idx)]. *)
Definition __remove (idx : option Z) (c : resCollection)
    : resCollection * completion (option value) :=
  match _list c with
  | None => (c, Throw (TypeError "this._list is null"))
  | Some l =>
      let item := idx ≫= get l in
      let c := with_list (splice l idx 1 []) c in
      match _idCallback c with
      | Some idCallback =>
          match _map c with
          | Some m =>
              (with_map (delete (idCallback (default VUndefined item)) m) c,
               Normal item)
          | None => (c, Throw (TypeError "this._map is null"))
          end
      | None => (c, Normal item)
      end
  end.

(** The id callback of the examples: [v => v.id]. *)
Definition idOf (v : value) : string :=
  match v with
  | VObj fields =>
      match fields !! "id" with
      | Some (VStr s) => s
      | _ => "undefined"
      end
  | _ => "undefined"
  end.

(** The items [{id: "a"}] and [{id: "b"}], and a collection with an id
    callback that holds the first one. *)
Definition itemA : value := VObj {[ "id" := VStr "a" ]}.
Definition itemB : value := VObj {[ "id" := VStr "b" ]}.

Definition withA : resCollection :=
  (__init (Some [itemA]) (constructor "c" (Some idOf))).1.

(** The read side of the class. *)
Module Read.

(** [get(id)]. *)
Definition get (id : string) (c : resCollection)
    : completion (option value) :=
  match _idCallback c with
  | None => Throw (Error "No id callback defined")
  | Some _ =>
      match _map c with
      | Some m => Normal (m !! id)
      | None => Throw (TypeError "this._map is null")
      end
  end.

(** [get length()]. *)
Definition length (c : resCollection) : completion Z :=
  match _list c with
  | None => Throw (TypeError "this._list is null")
  | Some l => Normal (Z.of_nat (List.length l))
  end.

(** [toArray()]. *)
Definition toArray (c : resCollection) : completion (list value) :=
  match _list c with
  | None => Throw (TypeError "this._list is null")
  | Some l => Normal l
  end.

(** The iterator that [[Symbol.iterator]()] returns: the variables [i],
    [a] and [l] of its closure.  The array [a] is the list as it is when
    the iteration starts; what follows is about a collection that is left
    alone while it is iterated. *)
Record iterator := Iterator {
  it_i : Z;
  it_a : list value;
  it_l : Z;
}.

(** [[Symbol.iterator]()]. *)
Definition iterate (c : resCollection) : completion iterator :=
  match _list c with
  | None => Throw (TypeError "this._list is null")
  | Some a => Normal (Iterator 0 a (Z.of_nat (List.length a)))
  end.

(** [next()]: [{ value: a[i++], done: i > l }]. *)
Definition next (it : iterator) : iterator * (option value * bool) :=
  let i := it_i it + 1 in
  (Iterator i (it_a it) (it_l it),
   (Js.get (it_a it) (it_i it), bool_decide (i > it_l it))).

(** [for (let v of it)]: the values of the turns of the loop, for at most
    [fuel] calls of [next]; [None] when that is not enough. *)
Fixpoint forOf (fuel : nat) (it : iterator) : option (list (option value)) :=
  match fuel with
  | O => None
  | S fuel =>
      let '(it, (v, done)) := next it in
      if done then Some [] else (v ::.) <$> forOf fuel it
  end.

End Read.

End ResCollection.

(** ** Scenarios *)

Module Scenarios.
Import Js Client.

(** A connected client whose cache holds one model ["m"], which a
    collection and a listener refer to and which is not subscribed. *)
Definition referredModel : client :=
  ResClient true true (Some []) ∅ 1 {[ "m" := 1%positive ]} ∅ true false []
    {[ 1%positive := CacheItem "m" (Some Model) (Some false) None 1 1 false None ]}
    ∅ [] [] ∅ 0.

(** A client whose cache holds one collection ["c"] that nothing refers
    to, with a model ["x"] that is not in the cache. *)
Definition orphanedCollection : client :=
  ResClient true true (Some []) ∅ 1 {[ "c" := 1%positive ]} ∅ true false []
    {[ 1%positive :=
         CacheItem "c" (Some (Collection ["x"])) (Some true) None 0 0 false None ]}
    ∅ [] [] ∅ 0.

(** A collection ["c"] with one model ["m"] that only the collection
    refers to. *)
Definition releasedCollection : client :=
  ResClient true true (Some []) ∅ 1
    {[ "c" := 1%positive; "m" := 2%positive ]} ∅ true false []
    {[ 1%positive :=
         CacheItem "c" (Some (Collection ["m"])) (Some true) None 0 0 false None;
       2%positive := CacheItem "m" (Some Model) (Some false) None 0 1 false None ]}
    ∅ [] [] ∅ 0.

(** The model type of the example: [{id: "svc.x", modelFactory}]. *)
Definition svcX : modelType := ModelType "svc.x" 0 None.




(** A connected client with an empty cache. *)
Definition online : client :=
  ResClient true true (Some []) ∅ 1 ∅ ∅ true false [] ∅ ∅ [] [] ∅ 0.

(** A connected client and an object [{a: undefined, b: 2}] of its caller. *)
Definition onlineWithProps : client :=
  ResClient true true (Some []) ∅ 1 ∅ ∅ true false [] ∅
    {[ 1%positive := {[ "a" := VUndefined; "b" := VNum 2 ]} ]} [] [] ∅ 0.


(** A collection ["col"] of the models [A], [B], [C] with a listener,
    stale and subscribed again, and the snapshot [[A, C, D]] that the
    subscribe brings: no data for [A] and [C], data for the new [D]. *)
Definition staleABC : client :=
  ResClient true true (Some []) ∅ 2
    {[ "col" := 1%positive; "A" := 2%positive; "B" := 3%positive;
       "C" := 4%positive ]} ∅ true false []
    {[ 1%positive :=
         CacheItem "col" (Some (Collection ["A"; "B"; "C"])) (Some true) None 1 0
                   true None;
       2%positive := CacheItem "A" (Some Model) (Some false) None 0 1 false None;
       3%positive := CacheItem "B" (Some Model) (Some false) None 0 1 false None;
       4%positive := CacheItem "C" (Some Model) (Some false) None 0 1 false None ]}
    ∅ [] [] ∅ 1.

Definition snapshotACD : payload :=
  Array [Ref "A" VNull; Ref "C" VNull; Ref "D" (VObj ∅)].

(** What is left of [staleABC] when [_syncResource] has thrown: the first
    model is gone from the collection, and one remove event without item
    and index has been emitted. *)
Definition brokenABC : client :=
  ResClient true true (Some []) ∅ 2
    {[ "col" := 1%positive; "A" := 2%positive; "B" := 3%positive;
       "C" := 4%positive ]} ∅ true false []
    {[ 1%positive :=
         CacheItem "col" (Some (Collection ["B"; "C"])) (Some true) None 1 0
                   true None;
       2%positive := CacheItem "A" (Some Model) (Some false) None 0 1 false None;
       3%positive := CacheItem "B" (Some Model) (Some false) None 0 1 false None;
       4%positive := CacheItem "C" (Some Model) (Some false) None 0 1 false None ]}
    ∅ [] [EmitRemove "col" None None] ∅ 1.

(** Stand-ins for what the application and the classes outside of this
    file do: an ingestion of resources that takes none, a handler that does
    nothing, factory steps that do nothing, and an [__add] that does
    nothing. *)
Definition noIngest (rid : option string) (data : payload)
    (addIndirect : bool) (collectionFactory : option nat) (st : client)
    : client * completion loc :=
  (st, Throw (Error "No data")).

Definition noHandler (cacheItem : loc) (event : string) (data : value)
    (st : client) : client * completion () :=
  (st, Normal ()).

Definition noCollection (cacheItem : option loc) (rid : string)
    (modelConts : list (string * option resource)) (factory : option nat)
    (st : client) : client * completion () :=
  (st, Normal ()).

Definition noModel (cacheItem : option loc) (rid : string) (data : value)
    (type : field modelType) (st : client) : client * completion () :=
  (st, Normal ()).

Definition noAdd (cacheItem : loc) (rid : option string)
    (item : option resource) (idx : option Z) (st : client)
    : client * completion (option Z) :=
  (st, Normal None).

(** A connected client whose cache holds the model ["svc.m"], which
    nothing refers to. *)
Definition onlineSvcM : client :=
  ResClient true true (Some []) ∅ 1 {[ "svc.m" := 1%positive ]} ∅ true false []
    {[ 1%positive :=
         CacheItem "svc.m" (Some Model) (Some false) None 0 0 true None ]}
    ∅ [] [] ∅ 0.

End Scenarios.

(** * Properties *)

(** ** Objects as dictionaries, and numbers *)

Module Objects.
Import Js.

Lemma read_own {A} (o : gmap string A) k a : o !! k = Some a → read o k = Own a.
Proof. unfold read. by intros ->. Qed.

Lemma read_undefined {A} (o : gmap string A) k :
  o !! k = None → inherited k = false → read o k = Undefined.
Proof. unfold read. by intros -> ->. Qed.

Lemma read_inherited {A} (o : gmap string A) k :
  o !! k = None → inherited k = true → read o k = Inherited k.
Proof. unfold read. by intros -> ->. Qed.

Lemma number_exact z : Z.abs z ≤ 2 ^ 53 → number z = z.
Proof. intros H. unfold number. by rewrite decide_True. Qed.

Lemma increment_exact n : 0 ≤ n < 2 ^ 53 → increment n = n + 1.
Proof. intros H. apply number_exact. lia. Qed.

(** [2 ^ 53 + 1] is no number: the counting stops at [2 ^ 53]. *)
Lemma increment_stalls : increment (2 ^ 53) = 2 ^ 53.
Proof. by vm_compute. Qed.

Lemma number_large z : 2 ^ 53 < z → 2 ^ 53 ≤ number z.
Proof.
  intros Hz. unfold number. rewrite Z.abs_eq by lia.
  rewrite decide_False by lia. rewrite Z.sgn_pos by lia.
  destruct (Z.log2_spec z) as [Hlo _]; [lia|].
  assert (He : 53 ≤ Z.log2 z) by (apply Z.log2_le_pow2; lia).
  set (e := Z.log2 z) in *. set (u := 2 ^ (e - 52)).
  assert (Hu : 2 ≤ u).
  { unfold u. change 2 with (2 ^ 1) at 1. apply Z.pow_le_mono_r; lia. }
  assert (Hq : 2 ^ 52 ≤ z / u).
  { apply Z.div_le_lower_bound; [lia|].
    replace (u * 2 ^ 52) with (2 ^ e); [done|].
    unfold u. rewrite <-Z.pow_add_r by lia. f_equal. lia. }
  cbv zeta. set (q := z / u) in *. clearbody q u.
  assert (2 ^ 53 ≤ q * u) by nia.
  repeat case_decide; [lia|nia|destruct (Z.even q); nia].
Qed.

(** A counter that is below [2 ^ 53] after [n++] was below it before, and
    has been counted up by one. *)
Lemma increment_below n :
  0 ≤ n → increment n < 2 ^ 53 → increment n = n + 1 ∧ n + 1 < 2 ^ 53.
Proof.
  intros Hn Hlt. unfold increment in *.
  destruct (decide (2 ^ 53 < n + 1)) as [Hbig|Hsmall].
  - apply number_large in Hbig. lia.
  - rewrite number_exact in * by lia. lia.
Qed.

End Objects.

(** ** The cache: [_tryDelete] *)

Module TryDelete.
Import Js Client Scenarios.

(** *** The recursion of [_tryDelete] is bounded *)

Lemma forOf_ext {A} (f g : A → client → option (client * completion ())) xs :
  (∀ x st r, f x st = Some r → g x st = Some r) →
  ∀ st r, forOf f xs st = Some r → forOf g xs st = Some r.
Proof.
  intros Hfg. induction xs as [|x xs IH]; intros st r; simpl; [done|].
  destruct (f x st) as [[st1 [[]|e]]|] eqn:Hf; [| |done].
  - rewrite (Hfg _ _ _ Hf). apply IH.
  - intros [= <-]. by rewrite (Hfg _ _ _ Hf).
Qed.

(** More fuel does not change a result. *)
Lemma tryDelete_fuel_mono fuel fuel' l st r :
  _tryDelete_fuel fuel l st = Some r → (fuel ≤ fuel')%nat →
  _tryDelete_fuel fuel' l st = Some r.
Proof.
  revert fuel' l st r.
  induction fuel as [|fuel IH]; intros fuel' l st r; [done|].
  destruct fuel' as [|fuel']; [lia|]. intros H Hle. simpl in *.
  destruct (items st !! l) as [ci|]; [|done].
  repeat case_bool_decide; try done.
  destruct (subscribed ci); [done|].
  destruct (collection ci); [|done].
  destruct (item ci) as [[|models]|]; try done.
  match type of H with
  | match forOf ?f _ _ with _ => _ end = _ =>
      destruct (forOf f models st) as [res|] eqn:Hloop; [|done]
  end.
  erewrite forOf_ext; [exact H| |exact Hloop].
  intros rid st1 r1. simpl.
  destruct (cache st1 !! rid) as [cacheModel|]; [|done].
  destruct (_tryDelete_fuel fuel cacheModel _) as [res1|] eqn:Hrec; [|done].
  by rewrite (IH fuel' _ _ _ Hrec) by lia.
Qed.

Lemma referred_le_size st : (referred st ≤ size (items st))%nat.
Proof. apply map_subseteq_size, map_filter_subseteq. Qed.

Lemma alter_lookup_insert {A} (f : A → A) (m : gmap loc A) l x :
  m !! l = Some x → alter f l m = <[l := f x]> m.
Proof.
  intros H. apply map_eq. intros j. rewrite lookup_alter, lookup_insert.
  case_decide; subst; by rewrite ?H.
Qed.

Lemma size_items_update l f st :
  size (items (update l f st)) = size (items st).
Proof.
  unfold update. simpl. destruct (items st !! l) as [ci|] eqn:H.
  - rewrite (alter_lookup_insert _ _ _ _ H). by apply map_size_insert_Some.
  - by rewrite alter_id' by (by rewrite H).
Qed.

(** Lowering [indirect] takes an item with [indirect = 1] out of the
    referred ones, and brings no item in. *)
Lemma referred_removeIndirect l st :
  (referred (update l removeIndirect st) ≤ referred st)%nat ∧
  (∀ ci, items st !! l = Some ci → indirect ci = 1 →
         (S (referred (update l removeIndirect st)) = referred st)%nat).
Proof.
  unfold referred, update. simpl.
  destruct (items st !! l) as [ci|] eqn:H.
  2:{ rewrite alter_id' by (by rewrite H). split; [done|]. by intros ? [=]. }
  rewrite (alter_lookup_insert _ _ _ _ H).
  set (P := λ p : loc * cacheItem, 0 < indirect p.2).
  assert (Hf : filter P (items st) !! l
               = if decide (0 < indirect ci) then Some ci else None).
  { case_decide.
    - by apply map_lookup_filter_Some.
    - apply map_lookup_filter_None. right. intros x. rewrite H.
      intros [= <-]. done. }
  rewrite map_filter_insert. simpl.
  destruct (decide (P (l, removeIndirect ci))) as [HP|HP]; unfold P in HP;
    simpl in HP.
  - rewrite map_size_insert, Hf. rewrite decide_True by lia.
    split; [done|]. intros ? [= <-] ?. lia.
  - rewrite map_filter_delete, map_size_delete, Hf. case_decide.
    + split; [simpl; lia|]. intros ? [= <-] ?. simpl.
      assert (size (filter P (items st)) ≠ 0)%nat; [|lia].
      intros Hz. apply map_size_empty_inv in Hz. rewrite Hz in Hf.
      by rewrite lookup_empty in Hf.
    + split; [done|]. intros ? [= <-] ?. lia.
Qed.

Lemma referred_setStale rid st : referred (_setStale rid st) = referred st.
Proof. unfold _setStale. by destruct (connected st). Qed.

(** A call that stops at one of the three early returns. *)
Lemma tryDelete_fuel_kept fuel l st ci :
  items st !! l = Some ci →
  indirect ci ≠ 0 ∨ direct ci ≠ 0 ∨ subscribed ci = true →
  _tryDelete_fuel (S fuel) l st
  = Some (if bool_decide (indirect ci = 0) && bool_decide (direct ci ≠ 0)
             && negb (subscribed ci)
          then _setStale (rid ci) st else st, Normal false).
Proof.
  intros H Hkept. simpl. rewrite H.
  repeat case_bool_decide; destruct (subscribed ci); simpl; try done;
    destruct Hkept as [?|[?|?]]; done.
Qed.

(** With as much fuel as there are referred items, and two more, a call
    returns; it refers to no more items than before, and it leaves the
    number of items as it is. *)
Lemma tryDelete_fuel_enough fuel :
  ∀ l st, (referred st + 2 ≤ fuel)%nat →
    ∃ st' r, _tryDelete_fuel fuel l st = Some (st', r) ∧
             (referred st' ≤ referred st)%nat ∧
             size (items st') = size (items st).
Proof.
  induction fuel as [|fuel IH]; intros l st Hfuel; [lia|].
  simpl. destruct (items st !! l) as [ci|] eqn:Hl; [|by eauto].
  case_bool_decide; [by eauto|].
  case_bool_decide.
  { eexists _, _. split; [done|].
    destruct (subscribed ci); rewrite ?referred_setStale; [done|].
    split; [done|]. unfold _setStale. by destruct (connected st). }
  destruct (subscribed ci); [by eauto|].
  assert (Hloop : ∀ models st1,
    (referred st1 ≤ referred st)%nat →
    ∃ st2 r2,
      forOf (λ rid st0,
        match cache st0 !! rid with
        | None =>
            Some (st0, Throw (Thrown "Collection model not found in cache"))
        | Some cacheModel =>
            match _tryDelete_fuel fuel cacheModel
                    (update cacheModel removeIndirect st0) with
            | Some (st3, Normal _) => Some (st3, Normal ())
            | Some (st3, Throw e) => Some (st3, Throw e)
            | None => None
            end
        end) models st1 = Some (st2, r2) ∧
      (referred st2 ≤ referred st)%nat ∧
      size (items st2) = size (items st1)).
  { induction models as [|rid models IHm]; intros st1 Hst1; simpl.
    { by eauto. }
    destruct (cache st1 !! rid) as [cacheModel|]; [|by eauto].
    destruct (referred_removeIndirect cacheModel st1) as [Hle Hone].
    assert (∃ st3 r3,
      _tryDelete_fuel fuel cacheModel (update cacheModel removeIndirect st1)
      = Some (st3, r3) ∧ (referred st3 ≤ referred st)%nat ∧
        size (items st3) = size (items st1)) as (st3 & r3 & Hrec & Hr3 & Hs3).
    { destruct (items st1 !! cacheModel) as [cm|] eqn:Hcm.
      - destruct (decide (indirect cm = 1)) as [H1|H1].
        + specialize (Hone _ eq_refl H1).
          destruct (IH cacheModel (update cacheModel removeIndirect st1))
            as (st3 & r3 & Hrec & Hr3 & Hs3); [lia|].
          exists st3, r3. rewrite size_items_update in Hs3.
          split; [done|]. split; [lia|done].
        + destruct fuel as [|fuel]; [lia|].
          erewrite tryDelete_fuel_kept.
          2:{ unfold update; simpl. rewrite lookup_alter_eq, Hcm. done. }
          2:{ left. simpl. lia. }
          simpl. rewrite bool_decide_false by lia. simpl.
          eexists _, _. split; [done|].
          rewrite size_items_update. split; [lia|done].
      - destruct fuel as [|fuel]; [lia|]. simpl.
        rewrite lookup_alter_eq, Hcm. simpl.
        eexists _, _. split; [done|].
        rewrite size_items_update. split; [lia|done]. }
    rewrite Hrec. destruct r3 as [b|e].
    - destruct (IHm st3) as (st2 & r2 & Hm & Hr2 & Hs2); [done|].
      exists st2, r2. split; [done|]. split; [done|]. congruence.
    - by eauto 10. }
  destruct (collection ci).
  - destruct (item ci) as [[|models]|]; try by eauto.
    destruct (Hloop models st) as (st2 & r2 & -> & Hr2 & Hs2); [done|].
    destruct r2; by eauto.
  - by eauto.
Qed.

(** [_tryDelete] returns what the bounded recursion returns, with any fuel
    that is enough for it. *)
Lemma tryDelete_total l st :
  _tryDelete_fuel (S (S (size (items st)))) l st = Some (_tryDelete l st).
Proof.
  unfold _tryDelete.
  destruct (tryDelete_fuel_enough (S (S (size (items st)))) l st)
    as (st' & r & -> & _); [|done].
  pose proof (referred_le_size st). lia.
Qed.

Lemma tryDelete_size l st :
  size (items (_tryDelete l st).1) = size (items st).
Proof.
  pose proof (referred_le_size st).
  destruct (tryDelete_fuel_enough (S (S (size (items st)))) l st)
    as (st' & r & Hr & _ & Hs); [lia|].
  rewrite tryDelete_total in Hr. injection Hr as ->. done.
Qed.

(** The recursive call on a model, one level down, is a call of
    [_tryDelete]. *)
Lemma tryDelete_fuel_child cacheModel st :
  let st' := update cacheModel removeIndirect st in
  _tryDelete_fuel (S (size (items st))) cacheModel st'
  = Some (_tryDelete cacheModel st').
Proof.
  intros st'.
  assert (Hs : size (items st') = size (items st))
    by apply size_items_update.
  assert (is_Some (_tryDelete_fuel (S (size (items st))) cacheModel st'))
    as [r Hr].
  { destruct (referred_removeIndirect cacheModel st) as [Hle Hone].
    pose proof (referred_le_size st).
    destruct (items st !! cacheModel) as [cm|] eqn:Hcm.
    - destruct (decide (indirect cm = 1)) as [H1|H1].
      + specialize (Hone _ eq_refl H1).
        destruct (tryDelete_fuel_enough (S (size (items st))) cacheModel st')
          as (? & ? & -> & _); [fold st' in Hone; lia|done].
      + erewrite tryDelete_fuel_kept; [done| |].
        * unfold st', update; simpl. by rewrite lookup_alter_eq, Hcm.
        * left. simpl. lia.
    - simpl. unfold st', update; simpl. by rewrite lookup_alter_eq, Hcm. }
  rewrite Hr. f_equal.
  apply (tryDelete_fuel_mono _ (S (S (size (items st'))))) in Hr; [|lia].
  rewrite tryDelete_total in Hr. by injection Hr.
Qed.

Lemma forOf_releaseModel n models : ∀ st,
  size (items st) = n →
  forOf (λ rid st0,
    match cache st0 !! rid with
    | None => Some (st0, Throw (Thrown "Collection model not found in cache"))
    | Some cacheModel =>
        match _tryDelete_fuel (S n) cacheModel
                (update cacheModel removeIndirect st0) with
        | Some (st3, Normal _) => Some (st3, Normal ())
        | Some (st3, Throw e) => Some (st3, Throw e)
        | None => None
        end
    end) models st = Some (forEach releaseModel models st).
Proof.
  induction models as [|rid models IH]; intros st Hn; simpl; [done|].
  unfold releaseModel at 1.
  destruct (cache st !! rid) as [cacheModel|]; [|done].
  pose proof (tryDelete_fuel_child cacheModel st) as Hc. simpl in Hc.
  rewrite Hn in Hc. rewrite Hc.
  pose proof (tryDelete_size cacheModel (update cacheModel removeIndirect st))
    as Hs.
  rewrite size_items_update in Hs.
  destruct (_tryDelete cacheModel _) as [st3 [b|e]]; simpl in *; [|done].
  apply IH. congruence.
Qed.

Lemma tryDelete_fuel_S fuel l st :
  _tryDelete_fuel (S fuel) l st =
  match items st !! l with
  | None => Some (st, Throw (TypeError "cacheItem"))
  | Some ci =>
      if bool_decide (indirect ci ≠ 0) then Some (st, Normal false)
      else if bool_decide (direct ci ≠ 0) then
        Some (if subscribed ci then st else _setStale (rid ci) st,
              Normal false)
      else if subscribed ci then Some (st, Normal false)
      else
        match
          if collection ci then
            match item ci with
            | Some (Collection models) =>
                forOf (λ rid st,
                  match cache st !! rid with
                  | None =>
                      Some (st, Throw (Thrown
                        "Collection model not found in cache"))
                  | Some cacheModel =>
                      match _tryDelete_fuel fuel cacheModel
                              (update cacheModel removeIndirect st) with
                      | Some (st, Normal _) => Some (st, Normal ())
                      | Some (st, Throw e) => Some (st, Throw e)
                      | None => None
                      end
                  end) models st
            | _ => Some (st, Throw (TypeError "item is not iterable"))
            end
          else Some (st, Normal ())
        with
        | Some (st, Normal _) =>
            Some (with_cache (delete (rid ci) (cache st)) st, Normal true)
        | Some (st, Throw e) => Some (st, Throw e)
        | None => None
        end
  end.
Proof. done. Qed.

(** [_tryDelete], as the source has it. *)
Lemma tryDelete_unfold l st :
  _tryDelete l st =
  match items st !! l with
  | None => (st, Throw (TypeError "cacheItem"))
  | Some ci =>
      if bool_decide (indirect ci ≠ 0) then (st, Normal false)
      else if bool_decide (direct ci ≠ 0) then
        (if subscribed ci then st else _setStale (rid ci) st, Normal false)
      else if subscribed ci then (st, Normal false)
      else
        match
          if collection ci then
            match item ci with
            | Some (Collection models) => forEach releaseModel models st
            | _ => (st, Throw (TypeError "item is not iterable"))
            end
          else (st, Normal ())
        with
        | (st, Normal _) =>
            (with_cache (delete (rid ci) (cache st)) st, Normal true)
        | (st, Throw e) => (st, Throw e)
        end
  end.
Proof.
  pose proof (tryDelete_total l st) as H. rewrite tryDelete_fuel_S in H.
  destruct (items st !! l) as [ci|]; [|by injection H].
  repeat case_bool_decide; try by injection H.
  destruct (subscribed ci); [by injection H|].
  destruct (collection ci); [|by injection H].
  destruct (item ci) as [[|models]|]; try by injection H.
  rewrite (forOf_releaseModel _ _ _ eq_refl) in H.
  destruct (forEach releaseModel models st) as [st1 [[]|e]]; by injection H.
Qed.

(** *** What [_tryDelete] decides *)

(** C2 as it is stated does not hold.  With a listener and no
    subscription, [_tryDelete] arms no timer for an item that a collection
    refers to: [indirect] is looked at first.  And an item with no listener,
    no reference and no subscription stays in the cache when it is a
    collection one of whose models is not cached: [_tryDelete] throws. *)
Lemma tryDelete_claim_fails :
  (items referredModel !! 1%positive
     = Some (CacheItem "m" (Some Model) (Some false) None 1 1 false None) ∧
   _tryDelete 1%positive referredModel = (referredModel, Normal false) ∧
   timers referredModel = []) ∧
  (items orphanedCollection !! 1%positive
     = Some (CacheItem "c" (Some (Collection ["x"])) (Some true) None 0 0 false None) ∧
   _tryDelete 1%positive orphanedCollection
     = (orphanedCollection,
        Throw (Thrown "Collection model not found in cache")) ∧
   cache orphanedCollection !! "c" = Some 1%positive).
Proof. repeat split; by vm_compute. Qed.

Lemma tryDelete_kept st l ci :
  items st !! l = Some ci →
  indirect ci ≠ 0 ∨ direct ci ≠ 0 ∨ subscribed ci = true →
  _tryDelete l st
  = (if bool_decide (indirect ci = 0 ∧ direct ci ≠ 0 ∧
                     subscribed ci = false ∧ connected st = true)
     then with_timers (timers st ++ [rid ci]) st else st, Normal false).
Proof.
  intros Hl Hkept. rewrite tryDelete_unfold, Hl. unfold _setStale.
  destruct (decide (indirect ci = 0)) as [Hi|Hi].
  2:{ rewrite bool_decide_true by done. rewrite bool_decide_false; [done|tauto]. }
  rewrite (bool_decide_false (indirect ci ≠ 0)) by (intros ?; done).
  destruct (decide (direct ci = 0)) as [Hd|Hd].
  { rewrite (bool_decide_false (direct ci ≠ 0)) by (intros ?; done).
    destruct Hkept as [?|[?|Hsub]]; [done..|]. rewrite Hsub.
    rewrite bool_decide_false; [done|tauto]. }
  rewrite (bool_decide_true (direct ci ≠ 0)) by done.
  destruct (subscribed ci) eqn:Hs.
  { rewrite bool_decide_false; [done|]. intros (_ & _ & ? & _). done. }
  destruct (connected st) eqn:Hc.
  - by rewrite bool_decide_true.
  - rewrite bool_decide_false; [done|]. intros (_ & _ & _ & ?). done.
Qed.

Lemma tryDelete_released st l ci :
  items st !! l = Some ci →
  indirect ci = 0 → direct ci = 0 → subscribed ci = false →
  _tryDelete l st
  = match
      if collection ci then
        match item ci with
        | Some (Collection models) => forEach releaseModel models st
        | _ => (st, Throw (TypeError "item is not iterable"))
        end
      else (st, Normal ())
    with
    | (st1, Normal _) =>
        (with_cache (delete (rid ci) (cache st1)) st1, Normal true)
    | (st1, Throw e) => (st1, Throw e)
    end.
Proof.
  intros Hl Hi Hd Hs. rewrite tryDelete_unfold, Hl, Hs.
  rewrite !bool_decide_false by (intros ?; done). done.
Qed.

(** C2, as amended.  For a cache item [ci] of the store:
    - with a reference of a collection, a listener or a subscription,
      [_tryDelete] returns [false] and changes nothing but the timers: it
      arms the stale timer exactly when there is no reference
      ([indirect = 0]), a listener, no subscription, and the client is
      connected;
    - with none of the three, an item that is no collection is deleted from
      the cache under its rid, and [true] is returned;
    - with none of the three, a collection has, model after model, the
      [indirect] of the model lowered and [_tryDelete] called on it
      ([releaseModel]); then it is deleted and [true] is returned, unless a
      model was not in the cache, which is thrown and keeps the collection;
    - whenever it returns, it returns [true] exactly when none of the three
      held, and then the rid of the item is no longer in the cache, while
      with [false] the cache is as before. *)
Theorem tryDelete_decides st l ci :
  items st !! l = Some ci →
  ((indirect ci ≠ 0 ∨ direct ci ≠ 0 ∨ subscribed ci = true) →
   _tryDelete l st
   = (if bool_decide (indirect ci = 0 ∧ direct ci ≠ 0 ∧
                      subscribed ci = false ∧ connected st = true)
      then with_timers (timers st ++ [rid ci]) st else st, Normal false)) ∧
  (indirect ci = 0 → direct ci = 0 → subscribed ci = false →
   collection ci = false →
   _tryDelete l st
   = (with_cache (delete (rid ci) (cache st)) st, Normal true)) ∧
  (∀ models,
     indirect ci = 0 → direct ci = 0 → subscribed ci = false →
     collection ci = true → item ci = Some (Collection models) →
     _tryDelete l st
     = match forEach releaseModel models st with
       | (st1, Normal _) =>
           (with_cache (delete (rid ci) (cache st1)) st1, Normal true)
       | (st1, Throw e) => (st1, Throw e)
       end) ∧
  (∀ st' b,
     _tryDelete l st = (st', Normal b) →
     (b = true ↔ indirect ci = 0 ∧ direct ci = 0 ∧ subscribed ci = false) ∧
     if b then cache st' !! rid ci = None else cache st' = cache st).
Proof.
  intros Hl. split; [by apply tryDelete_kept|].
  split; [|split].
  - intros Hi Hd Hs Hc. by rewrite (tryDelete_released _ _ _ Hl Hi Hd Hs), Hc.
  - intros models Hi Hd Hs Hc Hm.
    by rewrite (tryDelete_released _ _ _ Hl Hi Hd Hs), Hc, Hm.
  - intros st' b.
    destruct (decide (indirect ci = 0 ∧ direct ci = 0 ∧ subscribed ci = false))
      as [(Hi & Hd & Hs)|Hkept].
    + rewrite (tryDelete_released _ _ _ Hl Hi Hd Hs).
      destruct (if collection ci then _ else _) as [st1 [[]|e]]; [|done].
      intros [= <- <-]. split; [done|]. simpl. apply lookup_delete_eq.
    + rewrite (tryDelete_kept _ _ _ Hl).
      * intros [= <- <-]. split; [split; [done|tauto]|].
        by case_bool_decide.
      * destruct (decide (indirect ci = 0)); [|tauto].
        destruct (decide (direct ci = 0)); [|tauto].
        destruct (subscribed ci); tauto.
Qed.

(** [_tryDelete] on the collection ["c"]: the collection and its model
    leave the cache, the [indirect] of the model having gone to 0. *)
Lemma tryDelete_decides_witness :
  items releasedCollection !! 1%positive
    = Some (CacheItem "c" (Some (Collection ["m"])) (Some true) None 0 0 false None) ∧
  ∃ st', _tryDelete 1%positive releasedCollection = (st', Normal true) ∧
         cache st' = ∅ ∧
         indirect <$> items st' !! 2%positive = Some 0.
Proof.
  split; [reflexivity|].
  destruct (tryDelete_decides releasedCollection 1%positive _ eq_refl)
    as (_ & _ & H & _).
  rewrite (H ["m"]) by reflexivity.
  eexists. split; [vm_compute; reflexivity|]. split; reflexivity.
Defined.

(** *** What [_tryDelete] leaves alone *)

#[local] Instance releases_refl : Reflexive releases.
Proof. intros st. by repeat split. Qed.

#[local] Instance releases_trans : Transitive releases.
Proof.
  intros a b c (?&?&?&?&?&?&?&?&?&?&?&?&?&Hi&?) (?&?&?&?&?&?&?&?&?&?&?&?&?&Hi'&?).
  unfold releases. split_and!; try congruence. by etrans.
Qed.

Lemma releases_removeIndirect l st : releases st (update l removeIndirect st).
Proof.
  repeat split; try done. intros l'. unfold update; simpl.
  rewrite lookup_alter. case_decide; [subst|done].
  by destruct (items st !! l').
Qed.

Lemma releases_setStale rid st : releases st (_setStale rid st).
Proof. unfold _setStale. destruct (connected st); by repeat split. Qed.

Lemma releases_delete k st :
  releases st (with_cache (delete k (cache st)) st).
Proof. repeat split; try done. simpl. apply delete_subseteq. Qed.

Lemma forOf_releases {A} (f : A → client → option (client * completion ())) xs :
  (∀ x st st' r, f x st = Some (st', r) → releases st st') →
  ∀ st st' r, forOf f xs st = Some (st', r) → releases st st'.
Proof.
  intros Hf. induction xs as [|x xs IH]; intros st st' r; simpl.
  { by intros [= <- <-]. }
  destruct (f x st) as [[st1 [[]|e]]|] eqn:Hx; [| |done].
  - intros H. etrans; [by eapply Hf|by eapply IH].
  - intros [= <- <-]. by eapply Hf.
Qed.

Lemma tryDelete_fuel_releases fuel : ∀ l st st' r,
  _tryDelete_fuel fuel l st = Some (st', r) → releases st st'.
Proof.
  induction fuel as [|fuel IH]; intros l st st' r; [done|].
  rewrite tryDelete_fuel_S.
  destruct (items st !! l) as [ci|]; [|by intros [= <- <-]].
  case_bool_decide; [by intros [= <- <-]|].
  case_bool_decide.
  { intros [= <- <-]. destruct (subscribed ci); [done|apply releases_setStale]. }
  destruct (subscribed ci); [by intros [= <- <-]|].
  destruct (collection ci).
  2:{ intros [= <- <-]. apply releases_delete. }
  destruct (item ci) as [[|models]|]; try by intros [= <- <-].
  match goal with
  | |- match forOf ?f _ _ with _ => _ end = _ → _ =>
      destruct (forOf f models st) as [[st1 r1]|] eqn:Hloop; [|done]
  end.
  assert (Hst1 : releases st st1).
  { eapply forOf_releases; [|exact Hloop]. intros rid st0 st2 r2. simpl.
    destruct (cache st0 !! rid) as [cacheModel|]; [|by intros [= <- <-]].
    destruct (_tryDelete_fuel fuel cacheModel _) as [[st3 r3]|] eqn:Hrec;
      [|done].
    intros Hr. etrans; [apply releases_removeIndirect|].
    apply IH in Hrec. by destruct r3; injection Hr as <- <-. }
  destruct r1; intros [= <- <-]; [|done].
  etrans; [done|apply releases_delete].
Qed.

Lemma tryDelete_releases l st : releases st (_tryDelete l st).1.
Proof.
  pose proof (tryDelete_total l st) as H.
  destruct (_tryDelete l st) as [st' r]. by eapply tryDelete_fuel_releases.
Qed.


End TryDelete.

(** ** Requests: [_sendNow], [_send], [connect] *)

Module Sending.
Import Js Client TryDelete.

Lemma sendNow_open method params k p st sent :
  ws st = Some sent →
  let params' := if truthy params then params else VUndefined in
  _sendNow method params k p st
  = with_ws (Some (sent ++ [Frame (reqId st) method (stringify st params')]))
      (with_requests (<[reqId st := Request method params' k p]> (requests st))
         (with_reqId (increment (reqId st)) st)).
Proof.
  intros Hws. unfold _sendNow. simpl. rewrite Hws.
  by destruct params.
Qed.

Lemma releases_connected st st' : releases st st' → connected st' = connected st.
Proof. by intros (_ & ? & _). Qed.

Lemma releases_reqId st st' : releases st st' → reqId st' = reqId st.
Proof. by intros (_ & _ & _ & _ & ? & _). Qed.

Lemma releases_subscribed st st' l :
  releases st st' →
  subscribed <$> items st' !! l = subscribed <$> items st !! l.
Proof.
  intros (_&_&_&_&_&_&_&_&_&_&_&_&_&Hi&_). specialize (Hi l).
  unfold identity in Hi.
  destruct (items st' !! l), (items st !! l); simplify_eq/=; congruence.
Qed.

#[local] Instance settles_only_refl : Reflexive settles_only.
Proof. intros st. by repeat split. Qed.

#[local] Instance settles_only_trans : Transitive settles_only.
Proof.
  intros a b c (?&?&?&?&?&?&?&?&?&?&?&?) (?&?&?&?&?&?&?&?&?&?&?&?).
  unfold settles_only. split_and!; congruence.
Qed.

Lemma releases_settles_only st st' : releases st st' → settles_only st st'.
Proof.
  intros (?&?&?&?&?&?&?&?&?&?&?&?&?&?&?). unfold settles_only.
  split_and!; done.
Qed.

Lemma tryDelete_settles_only l st : settles_only st (_tryDelete l st).1.
Proof. apply releases_settles_only, tryDelete_releases. Qed.

Lemma rejected_settles_only k err st : settles_only st (rejected k err st).1.
Proof.
  destruct k as [|rid l f|l|l]; simpl; [done| | |].
  - pose proof (tryDelete_settles_only l (update l (setSubscribed false) st)) as H.
    destruct (_tryDelete l _) as [st' [b|e]]; simpl in *;
      (etrans; [|exact H]); by repeat split.
  - pose proof (tryDelete_settles_only l st) as H.
    by destruct (_tryDelete l _) as [st' [b|e]].
  - unfold _handleFailedSubscribe.
    pose proof (tryDelete_settles_only l (update l (setSubscribed false) st)) as H.
    destruct (_tryDelete l _) as [st' [b|e]]; simpl in *;
      (etrans; [|exact H]); by repeat split.
Qed.

Lemma reject_settles_only req err st : settles_only st (reject req err st).
Proof.
  unfold reject. pose proof (rejected_settles_only (chain req) err st) as H.
  destruct (rejected _ _ _) as [st' r]. simpl in *.
  etrans; [exact H|]. by repeat split.
Qed.


Lemma sendNow_reqId method params k p st :
  reqId (_sendNow method params k p st) = increment (reqId st).
Proof.
  unfold _sendNow. simpl. destruct (ws st); [done|].
  match goal with |- reqId (reject ?r ?e ?s) = _ =>
    by destruct (reject_settles_only r e s) as (_ & _ & _ & _ & -> & _) end.
Qed.






Lemma send_open method params k st sent :
  connected st = true → ws st = Some sent →
  let params' := if truthy params then params else VUndefined in
  _send method params k st
  = (with_ws (Some (sent ++ [Frame (reqId st) method (stringify st params')]))
       (with_requests
          (<[reqId st := Request method params' k (nextPromise st)]>
             (requests st))
          (with_reqId (increment (reqId st))
             (with_nextPromise (S (nextPromise st)) st))),
     nextPromise st).
Proof.
  intros Hc Hws. unfold _send. cbn [connected with_nextPromise]. rewrite Hc.
  by rewrite (sendNow_open _ _ _ _ _ sent).
Qed.

Lemma send_queued method params k st :
  connected st = false → connectPromise st = true → connectCallback st = true →
  _send method params k st
  = (with_waiting (waiting st ++ [Request method params k (nextPromise st)])
       (with_tryConnect true (with_nextPromise (S (nextPromise st)) st)),
     nextPromise st).
Proof.
  intros Hc Hp Hcb. unfold _send, connect.
  cbn [connected with_nextPromise with_tryConnect connectPromise].
  rewrite Hc, Hp. cbn [connectCallback with_nextPromise with_tryConnect].
  by rewrite Hcb.
Qed.

Lemma send_connects method params k st :
  connected st = false → connectPromise st = false →
  _send method params k st
  = (with_waiting [Request method params k (nextPromise st)]
       (with_ws (Some [])
          (with_connectCallback true
             (with_connectPromise true
                (with_tryConnect true
                   (with_nextPromise (S (nextPromise st)) st))))),
     nextPromise st).
Proof.
  intros Hc Hp. unfold _send, connect.
  cbn [connected with_nextPromise with_tryConnect connectPromise].
  by rewrite Hc, Hp.
Qed.


Lemma send_promise method params k st :
  (_send method params k st).2 = nextPromise st.
Proof.
  unfold _send. cbn [connected with_nextPromise]. destruct (connected st);
    [done|].
  by destruct (connectCallback _).
Qed.

End Sending.

(** ** The release callback: [_unsubscribeCacheItem] *)

Module Unsubscribe.
Import Js Client Scenarios TryDelete Sending.

Lemma tryDelete_subscribed l l' st :
  subscribed <$> items (_tryDelete l st).1 !! l' = subscribed <$> items st !! l'.
Proof. apply releases_subscribed, tryDelete_releases. Qed.


Section unsubscribe.
Variable g : option string → payload → bool → option nat → client →
             client * completion loc.


End unsubscribe.




End Unsubscribe.

(** ** [getResource] *)

Module GetResource.
Import Js Client Scenarios Objects TryDelete Sending Unsubscribe.

Lemma connectResolve_sends queued : ∀ st sent,
  ws st = Some sent →
  let st' :=
    foldl (λ st w, _sendNow (method w) (params w) (chain w) (settles w) st)
          st queued in
  ws st'
  = Some (sent ++ imap (λ i w, frameOf st (Nat.iter i increment (reqId st)) w)
                       queued) ∧
  reqId st' = Nat.iter (length queued) increment (reqId st) ∧
  heap st' = heap st.
Proof.
  induction queued as [|w queued IH]; intros st sent Hws; cbn [foldl].
  { cbn. by rewrite app_nil_r. }
  rewrite (sendNow_open _ _ _ _ _ sent Hws).
  match goal with |- context [foldl _ ?s queued] =>
    destruct (IH s _ eq_refl) as (Hw & Hr & Hh) end.
  cbv zeta. rewrite Hw, Hr, Hh.
  cbn [reqId heap with_ws with_requests with_reqId length imap].
  split_and!; [|by rewrite Nat.iter_succ_r|done].
  rewrite <-app_assoc. cbn [app Nat.iter]. do 3 f_equal.
  apply imap_ext. intros i x _. cbn [compose]. unfold frameOf.
  by rewrite Nat.iter_succ_r.
Qed.

Lemma fresh_item st : items st !! fresh (dom (items st)) = None.
Proof. apply not_elem_of_dom, is_fresh. Qed.

(** The [catch] handler of [getResource], for the cache item [l] it holds
    on to: the flag is lowered; and for an item that is no collection the
    error goes on to the promise, and the item goes from the cache when
    nothing else refers to it. *)
Lemma reject_getResource st req err rid l f ci :
  chain req = KGetResource rid l f → items st !! l = Some ci →
  let st' := reject req err st in
  subscribed <$> items st' !! l = Some false ∧
  (collection ci = false →
   settled st' !! settles req = Some (Throw err) ∧
   (direct ci = 0 → indirect ci = 0 → cache st' !! Client.rid ci = None)).
Proof.
  intros Hk Hl st'. subst st'. unfold reject, rejected. rewrite Hk.
  set (stA := update l _ _).
  assert (HA : items stA !! l = Some (setSubscribed false ci)).
  { unfold stA, update. simpl. by rewrite lookup_alter_eq, Hl. }
  pose proof (tryDelete_subscribed l l stA) as Hflag. rewrite HA in Hflag.
  pose proof (tryDelete_kept stA l _ HA) as Hkept.
  pose proof (tryDelete_released stA l _ HA) as Hmodel.
  simpl in *.
  split.
  { by destruct (_tryDelete l stA) as [stB [b|e]]. }
  intros Hnc.
  destruct (decide (indirect ci = 0 ∧ direct ci = 0)) as [[Hi Hd]|Hne].
  - rewrite (Hmodel Hi Hd eq_refl). unfold collection in Hnc |- *.
    simpl. rewrite Hnc. simpl.
    split; [by rewrite lookup_insert_eq|].
    intros _ _. apply lookup_delete_eq.
  - rewrite Hkept
      by (destruct (decide (indirect ci = 0)); [right; left|left]; tauto).
    simpl. split; [|tauto].
    case_bool_decide; simpl; by rewrite lookup_insert_eq.
Qed.

Section getResource.
Variable g : option string → payload → bool → option nat → client →
             client * completion loc.

(** C4, as amended.  [getResource(rid)]:
    - for a rid that is in the cache, returns the promise of the cache
      item, or a promise resolved with its item, and leaves the client as
      it is, so that nothing is sent;
    - for a rid that is not, and that is not the name of a property that
      objects inherit, returns a pending promise; a connected client with
      a socket, and a client that is not connected, have created a cache
      item with [subscribed = true]: the first has sent exactly one frame
      more, the subscribe, and registered its request; the second has sent
      nothing and has chained exactly one send on the connect promise,
      which [_connectResolve] performs, and which [_connectReject] fails;
      a connected client whose socket is gone sends nothing: the subscribe
      fails at once and the item is not in the cache;
    - when the subscribe fails, by an error response or by the connect
      promise being rejected, the flag [subscribed] of the item is lowered
      and, for an item without a collection value, the promise is rejected
      with the error and the item leaves the cache when it has no listener
      and no reference. *)
Theorem getResource_subscribes_once rid f st :
  (∀ l ci,
     cache st !! rid = Some l → items st !! l = Some ci →
     getResource rid f st
     = (st, Normal match promise ci with
                   | Some p => Pending p
                   | None => Resolved (item ci)
                   end)) ∧
  (cache st !! rid = None → inherited rid = false →
   let l := fresh (dom (items st)) in
   let p := nextPromise st in
   let req :=
     Request ("subscribe." +:+ rid) VUndefined (KGetResource rid l f) p in
   let st' := (getResource rid f st).1 in
   let created :=
     cache st' = <[rid := l]> (cache st) ∧
     items st'
     = <[l := CacheItem rid None None None 0 0 true (Some p)]> (items st) in
   (getResource rid f st).2 = Normal (Pending p) ∧
   (∀ sent,
      connected st = true → ws st = Some sent →
      created ∧
      ws st'
      = Some (sent ++ [Frame (reqId st) ("subscribe." +:+ rid) VUndefined]) ∧
      requests st' = <[reqId st := req]> (requests st) ∧
      reqId st' = increment (reqId st) ∧ waiting st' = waiting st) ∧
   (connected st = true → ws st = None →
      ws st' = None ∧ requests st' = <[reqId st := req]> (requests st) ∧
      cache st' !! rid = None ∧
      settled st' !! p = Some (Throw (TypeError "this.ws is null"))) ∧
   (connected st = false → connectPromise st = false →
      created ∧
      ws st' = Some [] ∧ requests st' = requests st ∧ reqId st' = reqId st ∧
      waiting st' = [req] ∧ connectCallback st' = true ∧
      ws (_connectResolve st')
      = Some [Frame (reqId st) ("subscribe." +:+ rid) VUndefined] ∧
      requests (_connectResolve st') = <[reqId st := req]> (requests st) ∧
      ∀ e, cache (_connectReject e st') !! rid = None ∧
           settled (_connectReject e st') !! p = Some (Throw e)) ∧
   (connected st = false → connectPromise st = true →
    connectCallback st = true →
      created ∧
      ws st' = ws st ∧ requests st' = requests st ∧ reqId st' = reqId st ∧
      waiting st' = waiting st ++ [req])) ∧
  (∀ st2 id req l ci code message data,
     requests st2 !! id = Some req → chain req = KGetResource rid l f →
     items st2 !! l = Some ci →
     let err := ResError code message data (method req) (params req) in
     let st3 := (_receive g (Failure id code message data) st2).1 in
     subscribed <$> items st3 !! l = Some false ∧
     (collection ci = false →
      settled st3 !! settles req = Some (Throw err) ∧
      (direct ci = 0 → indirect ci = 0 → cache st3 !! Client.rid ci = None))).
Proof.
  split_and!.
  - intros l ci Hc Hl. unfold getResource. by rewrite (read_own _ _ _ Hc), Hl.
  - intros Hc Hi l p req st' created. subst st' created.
    unfold getResource. rewrite (read_undefined _ _ Hc Hi). fold l.
    set (stA := with_cache _ _).
    assert (Hp : (_send ("subscribe." +:+ rid) VUndefined
                        (KGetResource rid l f) stA).2 = p)
      by apply send_promise.
    destruct (connected st) eqn:Hconn.
    + split_and!; try done.
      { destruct (_send _ _ _ stA) as [st0 p0]. simpl in *. by subst p0. }
      { intros sent _ Hws. rewrite (send_open _ _ _ _ sent) by done. simpl.
        split_and!; try done. by rewrite alter_insert_eq. }
      intros _ Hws. unfold _send. cbn [connected with_nextPromise stA
        with_cache with_items]. rewrite Hconn. cbn [fst]. unfold _sendNow.
      cbn [ws reqId requests with_nextPromise with_reqId with_requests stA
           with_cache with_items truthy]. rewrite Hws.
      match goal with |- context [reject ?r ?e ?s] =>
        destruct (reject_getResource s r e rid l f
                    (CacheItem rid None None None 0 0 true None) eq_refl)
          as (_ & Hrej);
        [cbn; by rewrite lookup_insert_eq|];
        destruct (Hrej eq_refl) as (Hsettled & Hgone);
        destruct (reject_settles_only r e s) as (_ & _ & Hw & Hr & _);
        set (stB := reject r e s) in *
      end.
      cbn in Hw, Hr, Hsettled, Hgone. unfold update.
      cbn [ws requests cache settled with_items].
      split_and!; [by rewrite Hw, Hws|by rewrite Hr|by apply Hgone|].
      exact Hsettled.
    + destruct (connectPromise st) eqn:Hcp.
      * split_and!; try done.
        { destruct (_send _ _ _ stA) as [st0 p0]. simpl in *. by subst p0. }
        intros _ _ Hcb. rewrite send_queued by done. simpl.
        split_and!; try done. by rewrite alter_insert_eq.
      * split_and!; try done.
        { destruct (_send _ _ _ stA) as [st0 p0]. simpl in *. by subst p0. }
        intros _ _. rewrite send_connects by done. simpl.
        split_and!; try done; [by rewrite alter_insert_eq|].
        intros e. unfold _connectReject. simpl.
        match goal with |- context [reject ?r e ?s] =>
          destruct (reject_getResource s r e rid l f
                      (CacheItem rid None None None 0 0 true (Some p))
                      eq_refl) as (_ & Hrej) end.
        { simpl. by rewrite alter_insert_eq, lookup_insert_eq. }
        destruct (Hrej eq_refl) as (Hsettled & Hgone).
        split; [by apply Hgone|done].
  - intros st2 id req l ci code message data Hreq Hk Hl err st3.
    subst st3. unfold _receive. simpl. rewrite Hreq. simpl.
    unfold _handleErrorResponse. by apply (reject_getResource _ _ _ rid l f).
Qed.

End getResource.

(** C4 as it is stated does not hold for every rid and every client.
    [toString] is not cached in a new client, and [getResource] of it
    returns a promise that is resolved with [undefined], creates no cache
    item and sends nothing: [this.cache["toString"]] is the function that
    every object inherits.  And between [disconnect()] and the close event
    a client counts as connected and has no socket: [getResource] sends
    nothing then, and the promise it returns is rejected. *)
Lemma getResource_claim_fails :
  (cache online !! "toString" = None ∧
   getResource "toString" 0 online = (online, Normal (Resolved None))) ∧
  (let st := disconnect online in
   let st' := (getResource "svc.m" 0 st).1 in
   connected st = true ∧ cache st !! "svc.m" = None ∧
   (getResource "svc.m" 0 st).2 = Normal (Pending 0%nat) ∧
   ws st' = None ∧ cache st' !! "svc.m" = None ∧
   settled st' !! 0%nat = Some (Throw (TypeError "this.ws is null"))).
Proof. repeat split; by vm_compute. Qed.

(** [getResource("svc.m")] on a connected client with an empty cache. *)
Lemma getResource_subscribes_once_witness :
  cache online !! "svc.m" = None ∧ inherited "svc.m" = false ∧
  let st' := (getResource "svc.m" 0 online).1 in
  ws st' = Some [Frame 1 "subscribe.svc.m" VUndefined] ∧
  items st' !! 1%positive
  = Some (CacheItem "svc.m" None None None 0 0 true (Some 0%nat)).
Proof.
  split_and!; [reflexivity..|].
  destruct (getResource_subscribes_once
              (λ _ _ _ _ st, (st, Throw (Error "unused"))) "svc.m" 0 online)
    as (_ & Hnew & _).
  destruct (Hnew eq_refl eq_refl) as (_ & Hopen & _).
  destruct (Hopen [] eq_refl eq_refl) as ((_ & Hitems) & Hws & _).
  cbv zeta. rewrite Hws, Hitems. split; reflexivity.
Defined.

End GetResource.

(** ** [setModel] *)

Module SetModel.
Import Js Client Scenarios TryDelete Sending.

#[local] Opaque actionDelete.

Lemma replaceUndefined_step props k st o :
  heap st !! props = Some o →
  let st1 := replaceUndefined props st k in
  ∃ o1, heap st1 !! props = Some o1 ∧
            (∀ l, l ≠ props → heap st1 !! l = heap st !! l) ∧
            (∀ k', o1 !! k' = if decide (k' = k)
                              then Some (from_option sentinel actionDelete (o !! k))
                              else o !! k') ∧
            st1 = with_heap (heap st1) st.
Proof.
  intros Ho st1. unfold st1, replaceUndefined. rewrite Ho. cbn [mbind option_bind].
  destruct (o !! k) as [v|] eqn:Hk.
  - destruct v.
    all: cbn [sentinel from_option].
    2-7: (exists o; split_and!; [done|done| |by destruct st]; intros k'; case_decide; by subst).
    exists (<[k := actionDelete]> o). cbn [heap with_heap].
      rewrite lookup_alter_eq, Ho. split_and!; try done.
      + intros l Hne. by rewrite lookup_alter_ne.
      + intros k'. rewrite lookup_insert. by repeat case_decide; subst.
    - exists (<[k := actionDelete]> o). cbn [heap with_heap].
      rewrite lookup_alter_eq, Ho. split_and!; try done.
      + intros l Hne. by rewrite lookup_alter_ne.
      + intros k'. rewrite lookup_insert. by repeat case_decide; subst.
Qed.

Lemma replaceUndefined_fold props ks : ∀ st o,
  heap st !! props = Some o →
  let st' := foldl (replaceUndefined props) st ks in
  st' = with_heap (heap st') st ∧
  (∀ l, l ≠ props → heap st' !! l = heap st !! l) ∧
  ∃ o', heap st' !! props = Some o' ∧
    ∀ k, o' !! k = if decide (k ∈ ks)
                   then Some (from_option sentinel actionDelete (o !! k))
                   else o !! k.
Proof.
  induction ks as [|k ks IH]; intros st o Ho; cbn [foldl].
  { split_and!; [by destruct st|done|]. exists o. split; [done|]. intros k.
    destruct (decide (k ∈ [])) as [Hin|]; [by apply elem_of_nil in Hin|done]. }
  destruct (replaceUndefined_step props k st o Ho)
    as (o1 & Ho1 & Hother1 & Hk1 & Hst1).
  destruct (IH _ o1 Ho1) as (Hst & Hother & o' & Ho' & Hk').
  split_and!.
  - rewrite Hst at 1. rewrite Hst1. by destruct st.
  - intros l Hne. by rewrite Hother, Hother1.
  - exists o'. split; [done|]. intros k'. rewrite Hk', Hk1.
    destruct (decide (k' = k)) as [->|Hne].
    + rewrite (decide_True (P := k ∈ k :: ks)) by (apply elem_of_cons; by left).
      case_decide; [|done]. cbn [from_option].
      by destruct (o !! k) as [[]|].
    + destruct (decide (k' ∈ ks)) as [Hin|Hin].
      * by rewrite decide_True by (apply elem_of_cons; by right).
      * rewrite decide_False; [done|]. intros [?|?]%elem_of_cons; done.
Qed.

Lemma sentinel_fold (o : gmap string value) (k : string) :
  (if decide (k ∈ (map_to_list o).*1)
   then Some (from_option sentinel actionDelete (o !! k))
   else o !! k) = (sentinel <$> o) !! k.
Proof.
  rewrite lookup_fmap. destruct (o !! k) as [v|] eqn:Hk.
  - rewrite decide_True; [done|].
    apply list_elem_of_fmap. exists (k, v). split; [done|].
    by apply elem_of_map_to_list.
  - rewrite decide_False; [done|].
    intros ([k' v] & -> & Hin%elem_of_map_to_list)%list_elem_of_fmap.
    simpl in *. congruence.
Qed.

Lemma send_heap method params k st : heap (_send method params k st).1 = heap st.
Proof.
  assert (Hs : ∀ p st, heap (_sendNow method params k p st) = heap st).
  { intros p st0. unfold _sendNow. cbn. destruct (ws st0); [done|].
    match goal with |- heap (reject ?r ?e ?s) = _ =>
      by destruct (reject_settles_only r e s) as (_&_&_&_&_&_&_&_&_& -> &_) end. }
  unfold _send. cbn. destruct (connected st); cbn; [by rewrite Hs|].
  unfold connect. cbn. destruct (connectPromise st); cbn.
  - destruct (connectCallback st); cbn; [done|by rewrite Hs].
  - done.
Qed.

(** C10.  [setModel] does not write to the object of the caller: after the
    call, [props] has the keys and values it had, the keys bound to
    [undefined] included.  The translation is done on a new object. *)
Theorem setModel_keeps_props modelId props st :
  is_Some (heap st !! props) →
  heap (setModel modelId props st).1 !! props = heap st !! props.
Proof.
  intros [o Ho]. unfold setModel. rewrite send_heap, Ho.
  change (default ∅ (Some o)) with o.
  set (l := fresh (dom (heap st))).
  assert (Hne : props ≠ l).
  { intros ->. by apply (is_fresh (dom (heap st))), elem_of_dom. }
  set (st1 := with_heap _ st). set (source := delete "__proto__" o).
  destruct (replaceUndefined_fold l (map_to_list source).*1 st1 source)
    as (_ & Hother & _).
  { unfold st1. cbn. by rewrite lookup_insert_eq. }
  rewrite Hother by done.
  unfold st1. cbn. by rewrite lookup_insert_ne.
Qed.

Lemma with_heap_with_heap h1 h2 st : with_heap h1 (with_heap h2 st) = with_heap h1 st.
Proof. done. Qed.

Lemma setModel_unfold modelId props st o :
  heap st !! props = Some o →
  let l := fresh (dom (heap st)) in
  ∃ h, h !! l = Some (sentinel <$> delete "__proto__" o) ∧
       setModel modelId props st
       = _send ("call." +:+ modelId +:+ ".set") (VRef l) KReturn
               (with_heap h st).
Proof.
  intros Ho l. unfold setModel. rewrite Ho.
  change (default ∅ (Some o)) with o. fold l.
  set (st1 := with_heap _ st). set (source := delete "__proto__" o).
  destruct (replaceUndefined_fold l (map_to_list source).*1 st1 source)
    as (Hst2 & _ & o' & Ho' & Hk').
  { unfold st1. cbn. by rewrite lookup_insert_eq. }
  assert (o' = sentinel <$> source) as ->.
  { apply map_eq. intros k. by rewrite Hk', sentinel_fold. }
  exists (heap (foldl (replaceUndefined l) st1 (map_to_list source).*1)).
  split; [done|]. rewrite Hst2 at 1. done.
Qed.




(** After [setModel("m.1", props)], [props] is still
    [{a: undefined, b: 2}]. *)
Lemma setModel_keeps_props_witness :
  heap (setModel "m.1" 1%positive onlineWithProps).1 !! 1%positive
  = Some {[ "a" := VUndefined; "b" := VNum 2 ]}.
Proof.
  rewrite (setModel_keeps_props "m.1" 1%positive onlineWithProps);
    [reflexivity|by eexists].
Defined.

End SetModel.

(** ** The model type registry: [registerModelType] *)

Module Registry.
Import Js Client Scenarios.

Lemma append_empty_r s : s +:+ "" = s.
Proof.
  induction s as [|c s IH]; [done|].
  change (String c s +:+ "") with (String c (s +:+ "")). by rewrite IH.
Qed.

Lemma skipNonDots_split s :
  ∃ u, s = u +:+ skipNonDots s ∧ noDots u = true ∧
       (skipNonDots s = "" ∨ ∃ r, skipNonDots s = String "." r).
Proof.
  induction s as [|c s (u & Hu & Hnd & Hr)]; simpl.
  { exists "". auto. }
  destruct (Ascii.eqb_spec c ".") as [->|Hc].
  - exists "". split_and!; eauto.
  - exists (String c u). split_and!; [by rewrite Hu at 1| |done]. simpl.
    by rewrite (proj2 (Ascii.eqb_neq _ _) Hc).
Qed.

Lemma skipNonDots_app u r :
  noDots u = true → (r = "" ∨ ∃ r', r = String "." r') →
  skipNonDots (u +:+ r) = r.
Proof.
  intros Hu Hr. induction u as [|c u IH].
  - change ("" +:+ r) with r.
    by destruct Hr as [->|[r' ->]].
  - change (String c u +:+ r) with (String c (u +:+ r)). simpl in *.
    apply andb_prop in Hu as [Hc Hu]. apply negb_true_iff in Hc.
    rewrite Hc. by apply IH.
Qed.

Lemma someNonDots_spec s r :
  someNonDots s = Some r ↔
  ∃ u, s = u +:+ r ∧ u ≠ "" ∧ noDots u = true ∧
       (r = "" ∨ ∃ r', r = String "." r').
Proof.
  split.
  - destruct s as [|c s]; simpl; [done|].
    destruct (Ascii.eqb_spec c ".") as [->|Hc]; [done|]. intros [= <-].
    destruct (skipNonDots_split s) as (u & Hu & Hnd & Hr).
    exists (String c u). split_and!; [by rewrite Hu at 1|done| |done]. simpl.
    by rewrite (proj2 (Ascii.eqb_neq _ _) Hc).
  - intros (u & -> & Hne & Hnd & Hr). destruct u as [|c u]; [done|].
    change (String c u +:+ r) with (String c (u +:+ r)).
    simpl in *. apply andb_prop in Hnd as [Hc Hnd].
    apply negb_true_iff in Hc. rewrite Hc. by rewrite skipNonDots_app.
Qed.

(** The matcher accepts the strings of the regular expression. *)
Lemma matchesTypeId_spec s : matchesTypeId s = true ↔ typeId s.
Proof.
  unfold matchesTypeId, typeId. split.
  - destruct (someNonDots s) as [[|c rest]|] eqn:Hs; try done.
    intros [Hc Hrest%bool_decide_eq_true]%andb_prop.
    apply Ascii.eqb_eq in Hc as ->.
    apply someNonDots_spec in Hs as (u & -> & Hu & Hnu & _).
    apply someNonDots_spec in Hrest as (v & -> & Hv & Hnv & _).
    exists u, v. split_and!; try done.
    by rewrite append_empty_r. 
  - intros (u & v & -> & Hu & Hv & Hnu & Hnv).
    assert (someNonDots (u +:+ String "." v) = Some (String "." v)) as ->.
    { apply someNonDots_spec. exists u. eauto 10. }
    simpl. apply bool_decide_eq_true.
    apply someNonDots_spec. exists v. rewrite append_empty_r.
    split_and!; auto.
Qed.

Lemma typeId_nonempty s : typeId s → s ≠ "".
Proof. intros (u & v & -> & Hu & _). by destruct u. Qed.

(** C6.  [registerModelType] throws for a model type whose id is not of
    the form [^[^.]+\.[^.]+$], and for one whose id is registered already;
    in both cases the client, and so the registry, is as before.  An id of
    that form that is not registered yet is registered. *)
Theorem registerModelType_rejects modelType st :
  (¬ typeId (id modelType) →
   ∃ e, registerModelType modelType st = (st, Throw e)) ∧
  (is_Some (modelTypes st !! id modelType) →
   ∃ e, registerModelType modelType st = (st, Throw e)) ∧
  (typeId (id modelType) → modelTypes st !! id modelType = None →
   registerModelType modelType st
   = (with_modelTypes (<[id modelType := modelType]> (modelTypes st)) st,
      Normal ())).
Proof.
  unfold registerModelType. split_and!.
  - intros Hno. case_bool_decide; [by eauto|].
    destruct (matchesTypeId (id modelType)) eqn:Hm.
    + by apply matchesTypeId_spec in Hm.
    + rewrite orb_true_r. eauto.
  - intros Hreg. rewrite bool_decide_true by done. eauto.
  - intros Hid Hnew. rewrite bool_decide_false by (by rewrite Hnew; intros []).
    rewrite (proj2 (matchesTypeId_spec _) Hid).
    pose proof (typeId_nonempty _ Hid) as Hne.
    by rewrite (proj2 (String.eqb_neq _ _) Hne).
Qed.

(** Registering [{id: "svc.x", modelFactory}] twice: the first call
    registers it, the second one throws and leaves the registry alone. *)
Lemma registerModelType_rejects_witness :
  ∃ st1 e,
    registerModelType svcX constructor = (st1, Normal ()) ∧
    modelTypes st1 !! "svc.x" = Some svcX ∧
    registerModelType svcX st1 = (st1, Throw e).
Proof.
  destruct (registerModelType_rejects svcX constructor) as (_ & _ & Hfirst).
  eexists _, _. split; [apply Hfirst; [|reflexivity]|].
  { apply matchesTypeId_spec. reflexivity. }
  split; [reflexivity|].
  destruct (registerModelType_rejects svcX
              (with_modelTypes (<[id svcX := svcX]> (modelTypes constructor))
                               constructor)) as (_ & Hsecond & _).
  destruct Hsecond as [e He]; [by eexists|].
  vm_compute in He. vm_compute. reflexivity.
Defined.

End Registry.

(** ** Request ids: [_sendNow] *)

Module RequestIds.
Import Js Client Scenarios Objects TryDelete Sending.

(** What [_sendNow] does with the id it takes, the [reqId] it finds: the
    request is stored under it, and the frame that the socket is handed
    carries it. *)
Lemma sendNow_registers method params k p st :
  let params' := if truthy params then params else VUndefined in
  let st' := _sendNow method params k p st in
  requests st' !! reqId st = Some (Request method params' k p) ∧
  ∀ frames, ws st' = Some frames →
    ∃ sent, ws st = Some sent ∧
            frames = sent ++ [Frame (reqId st) method (stringify st params')].
Proof.
  intros params' st'. subst st'.
  destruct (ws st) as [sent|] eqn:Hws.
  - rewrite (sendNow_open _ _ _ _ _ sent Hws). cbn. fold params'.
    rewrite lookup_insert_eq. split; [done|]. intros frames [= <-]. by exists sent.
  - unfold _sendNow.
    cbn [ws reqId requests with_reqId with_requests]. rewrite Hws.
    fold params'.
    match goal with |- context [reject ?r ?e ?s] =>
      destruct (reject_settles_only r e s) as (_ & _ & Hw & Hr & _) end.
    rewrite Hw, Hr. cbn. by rewrite lookup_insert_eq, Hws.
Qed.

Lemma issues_bounds st sends st' :
  issues st sends st' → 0 ≤ reqId st → reqId st' < 2 ^ 53 →
  reqId st ≤ reqId st' ∧ Forall (λ a, reqId st ≤ a.1 < reqId st') sends.
Proof.
  induction 1 as [st|st sends st1 method params k p _ IH
                 |st sends st1 st2 _ IH Heq]; intros H0 Hlt.
  - split; [lia|constructor].
  - rewrite sendNow_reqId in *.
    assert (H1 : 0 ≤ reqId st1 → increment (reqId st1) = reqId st1 + 1 ∧
                                  reqId st1 + 1 < 2 ^ 53)
      by (intros ?; by apply increment_below).
    destruct (decide (reqId st1 < 2 ^ 53)) as [Hs|Hs].
    + destruct (IH H0 Hs) as [Hle Hids].
      destruct H1 as [-> _]; [lia|]. split; [lia|].
      apply Forall_app. split.
      * eapply Forall_impl; [exact Hids|]. simpl. lia.
      * repeat constructor; simpl; lia.
    + assert (2 ^ 53 ≤ increment (reqId st1)); [|lia].
      destruct (decide (reqId st1 = 2 ^ 53)) as [->|Hne].
      * by rewrite increment_stalls.
      * apply number_large. lia.
  - rewrite Heq in *. by apply IH.
Qed.

(** C9, as amended.  In a session that leaves the counter [reqId] below
    [2 ^ 53], the ids that [_sendNow] gives out grow: of two sends, the
    later one gets the greater id; so no id is given twice.  The id of a
    send is the key under which its request is in [requests] when the send
    is done, and the id of the last frame that the socket has been handed
    then, if there is a socket. *)
Theorem request_ids_increase st sends st' :
  issues st sends st' → 0 ≤ reqId st → reqId st' < 2 ^ 53 →
  (∀ i id s, sends !! i = Some (id, s) →
     is_Some (requests s !! id) ∧
     ∀ frames, ws s = Some frames → f_id <$> last frames = Some id) ∧
  (∀ i j a b, (i < j)%nat →
     sends.*1 !! i = Some a → sends.*1 !! j = Some b → a < b) ∧
  NoDup sends.*1.
Proof.
  intros Hs H0 Hlt.
  assert (Hreg : ∀ i id s, sends !! i = Some (id, s) →
     is_Some (requests s !! id) ∧
     ∀ frames, ws s = Some frames → f_id <$> last frames = Some id).
  { clear H0 Hlt.
    induction Hs as [st|st sends st1 method params k p Hs IH
                    |st sends st1 st2 Hs IH Heq]; [done| |done].
    intros i id s [Hi|[_ Hi]]%lookup_app_Some; [by eauto|].
    apply list_lookup_singleton_Some in Hi as [_ [= <- <-]].
    destruct (sendNow_registers method params k p st1) as [Hreq Hws].
    split; [by eexists|]. intros frames (sent & _ & ->)%Hws.
    by rewrite last_snoc. }
  assert (Hsorted : ∀ i j a b, (i < j)%nat →
     sends.*1 !! i = Some a → sends.*1 !! j = Some b → a < b).
  { clear Hreg. revert H0 Hlt.
    induction Hs as [st|st sends st1 method params k p Hs IH
                    |st sends st1 st2 Hs IH Heq]; intros H0 Hlt; [done| |].
    2:{ rewrite Heq in Hlt. by apply IH. }
    rewrite sendNow_reqId in Hlt.
    assert (Hs1 : reqId st1 < 2 ^ 53).
    { destruct (decide (reqId st1 < 2 ^ 53)) as [|Hge]; [done|].
      assert (2 ^ 53 ≤ increment (reqId st1)); [|lia].
      destruct (decide (reqId st1 = 2 ^ 53)) as [->|Hne].
      - by rewrite increment_stalls.
      - apply number_large. lia. }
    intros i j a b Hij Hi Hj. rewrite fmap_app in Hi, Hj.
    destruct (decide (j < length sends.*1)%nat) as [Hjl|Hge].
    - rewrite lookup_app_l in Hi, Hj by lia. exact (IH H0 Hs1 i j a b Hij Hi Hj).
    - assert (j = length sends.*1) as ->.
      { apply lookup_lt_Some in Hj. rewrite length_app in Hj. simpl in Hj.
        lia. }
      rewrite lookup_app_l in Hi by lia.
      rewrite lookup_app_r, Nat.sub_diag in Hj by lia. injection Hj as <-.
      destruct (issues_bounds _ _ _ Hs H0 Hs1) as [_ Hids].
      rewrite Forall_lookup in Hids.
      apply list_lookup_fmap_Some in Hi as ([a' s] & -> & Hi).
      apply Hids in Hi. simpl in *. lia. }
  split_and!; [done..|]. apply NoDup_alt. intros i j a Hi Hj.
  destruct (Nat.lt_total i j) as [Hij|[->|Hij]]; [|done|].
  - specialize (Hsorted _ _ _ _ Hij Hi Hj). lia.
  - specialize (Hsorted _ _ _ _ Hij Hj Hi). lia.
Qed.

(** A session of a new client whose socket is open: two sends, with the
    ids 1 and 2. *)
Lemma request_ids_increase_witness :
  let st1 := _sendNow "subscribe.svc.m" VUndefined KReturn 0 online in
  let st2 := _sendNow "unsubscribe.svc.m" VUndefined KReturn 1 st1 in
  issues online [(1, st1); (2, st2)] st2 ∧ 0 ≤ reqId online ∧
  reqId st2 < 2 ^ 53 ∧
  ws st2 = Some [Frame 1 "subscribe.svc.m" VUndefined;
                 Frame 2 "unsubscribe.svc.m" VUndefined] ∧
  (1 : Z) < 2.
Proof.
  cbv zeta.
  set (st1 := _sendNow "subscribe.svc.m" VUndefined KReturn 0 online).
  set (st2 := _sendNow "unsubscribe.svc.m" VUndefined KReturn 1 st1).
  assert (Hs : issues online [(1, st1); (2, st2)] st2).
  { change [(1, st1); (2, st2)] with ([(1, st1)] ++ [(reqId st1, st2)]).
    apply issues_send.
    change [(1, st1)] with ([] ++ [(reqId online, st1)]).
    apply issues_send. constructor. }
  assert (H0 : 0 ≤ reqId online) by (by vm_compute).
  assert (Hlt : reqId st2 < 2 ^ 53) by (by vm_compute).
  split_and!; [exact Hs|exact H0|exact Hlt|by vm_compute|].
  destruct (request_ids_increase _ _ _ Hs H0 Hlt) as (_ & Hsorted & _).
  apply (Hsorted 0%nat 1%nat); [lia|reflexivity..].
Defined.

(** What the client does is a session. *)
Lemma issues_trans a sends1 b sends2 c :
  issues a sends1 b → issues b sends2 c → issues a (sends1 ++ sends2) c.
Proof.
  intros Hab Hbc.
  induction Hbc as [|b sends2 c method params k p _ IH|? ? ? ? _ IH ?].
  - by rewrite app_nil_r.
  - rewrite app_assoc. constructor. by apply IH.
  - econstructor 3; [by apply IH|done].
Qed.

Lemma issues_step st st' : reqId st' = reqId st → issues st [] st'.
Proof. intros H. econstructor 3; [constructor|done]. Qed.

Lemma send_issues method params k st :
  ∃ sends, issues st sends (_send method params k st).1.
Proof.
  assert (Hnow : ∀ st1, reqId st1 = reqId st →
            issues st [(reqId st1, _sendNow method params k (nextPromise st) st1)]
                   (_sendNow method params k (nextPromise st) st1)).
  { intros st1 H1.
    apply (issues_send st [] st1). by apply issues_step. }
  unfold _send. cbn [connected with_nextPromise].
  destruct (connected st); cbn [fst].
  - eexists. by apply Hnow.
  - unfold connect. cbn [connectPromise with_tryConnect with_nextPromise].
    destruct (connectPromise st); cbn [connectCallback with_tryConnect
      with_nextPromise with_ws with_connectCallback with_waiting
      with_connectPromise].
    + destruct (connectCallback st); cbn [fst].
      * exists []. by apply issues_step.
      * eexists. by apply Hnow.
    + exists []. by apply issues_step.
Qed.

Lemma tryDelete_issues l st : issues st [] (_tryDelete l st).1.
Proof. apply issues_step, releases_reqId, tryDelete_releases. Qed.

Lemma getResource_issues rid f st :
  ∃ sends, issues st sends (getResource rid f st).1.
Proof.
  unfold getResource. destruct (read (cache st) rid) as [l| |].
  - exists []. destruct (items st !! l); constructor.
  - exists []. constructor.
  - match goal with |- context [_send ?m ?p ?k ?s] =>
      destruct (send_issues m p k s) as [sends Hsends];
      destruct (_send m p k s) as [st1 p1] end.
    exists sends. cbn [fst] in *.
    apply (issues_other _ _ st1); [|reflexivity].
    eapply (issues_trans _ [] _ sends); [|exact Hsends]. by apply issues_step.
Qed.

Lemma setModel_issues modelId props st :
  ∃ sends, issues st sends (setModel modelId props st).1.
Proof.
  unfold setModel.
  match goal with |- context [_send ?m ?p ?k ?s] =>
    destruct (send_issues m p k s) as [sends Hsends];
    assert (Hr : reqId s = reqId st) end.
  { set (st1 := with_heap _ st).
    assert (∀ ks st0, reqId (foldl (replaceUndefined (fresh (dom (heap st))))
                                   st0 ks) = reqId st0) as ->; [|done].
    induction ks as [|k ks IH]; intros st0; [done|]. cbn [foldl].
    rewrite IH. unfold replaceUndefined.
    by destruct (heap st0 !! _ ≫= _) as [[]|]. }
  exists sends. eapply (issues_trans _ [] _ sends); [|exact Hsends].
  by apply issues_step.
Qed.

(** Sends one after the other on an open socket, as long as the counter
    is below [2 ^ 53]. *)
Lemma pings_count method n : ∀ st,
  0 ≤ reqId st → reqId st + Z.of_nat n ≤ 2 ^ 53 → is_Some (ws st) →
  let st' := Nat.iter n (_sendNow method VUndefined KReturn 0) st in
  (∃ sends, issues st sends st') ∧ reqId st' = reqId st + Z.of_nat n ∧
  is_Some (ws st').
Proof.
  induction n as [|n IH]; intros st H0 Hle Hws.
  { cbn. split_and!; [by exists []; constructor|lia|done]. }
  cbv zeta. rewrite Nat.iter_succ.
  destruct (IH st H0) as ((sends & Hsends) & Hid & [sent Hsent]); [lia|done|].
  split_and!.
  - eexists. by apply issues_send.
  - rewrite sendNow_reqId, Hid, increment_exact; lia.
  - rewrite (sendNow_open _ _ _ _ _ sent Hsent). by eexists.
Qed.

(** C9 as it is stated does not hold for every session.  The counter
    [reqId] is a number: after [2 ^ 53 - 1] sends of a new client it is
    [2 ^ 53], and [reqId++] leaves it there, so that the next two sends are
    both given the id [2 ^ 53]: the two frames carry the same id. *)
Lemma request_ids_repeat :
  let ping := _sendNow "call.svc.m.ping" VUndefined KReturn 0 in
  let st := Nat.iter (Z.to_nat (2 ^ 53 - 1)) ping online in
  let st1 := ping st in
  let st2 := ping st1 in
  (∃ sends, issues online (sends ++ [(2 ^ 53, st1); (2 ^ 53, st2)]) st2) ∧
  (∃ sent, ws st2
           = Some (sent ++ [Frame (2 ^ 53) "call.svc.m.ping" VUndefined;
                            Frame (2 ^ 53) "call.svc.m.ping" VUndefined])) ∧
  ¬ NoDup [2 ^ 53; 2 ^ 53].
Proof.
  cbv zeta. set (N := Z.to_nat (2 ^ 53 - 1)).
  assert (HN : Z.of_nat N = 2 ^ 53 - 1) by (apply Z2Nat.id; lia).
  clearbody N.
  set (ping := _sendNow "call.svc.m.ping" VUndefined KReturn 0).
  destruct (pings_count "call.svc.m.ping" N online)
    as ((sends & Hsends) & Hid & [sent Hsent]);
    [by vm_compute|change (reqId online) with 1; lia|by eexists|].
  change (reqId online) with 1 in Hid. cbv zeta in Hsends, Hid, Hsent.
  fold ping in Hsends, Hid, Hsent.
  set (st := Nat.iter N ping online) in *. clearbody st.
  assert (Hid0 : reqId st = 2 ^ 53) by lia. clear Hid HN.
  assert (Hid1 : reqId (ping st) = 2 ^ 53).
  { unfold ping. by rewrite sendNow_reqId, Hid0, increment_stalls. }
  split_and!.
  - exists sends.
    change (sends ++ [(2 ^ 53, ping st); (2 ^ 53, ping (ping st))])
      with (sends ++ [(2 ^ 53, ping st)] ++ [(2 ^ 53, ping (ping st))]).
    rewrite app_assoc. rewrite <-Hid1 at 2. apply issues_send.
    rewrite <-Hid0 at 1. by apply issues_send.
  - exists sent. unfold ping at 1.
    rewrite (sendNow_open _ _ _ _ _ (sent ++ [Frame (2 ^ 53) "call.svc.m.ping" VUndefined])).
    + cbn [ws with_ws]. rewrite Hid1. cbn [truthy stringify].
      by rewrite <-app_assoc.
    + unfold ping. rewrite (sendNow_open _ _ _ _ _ sent Hsent).
      cbn [ws with_ws truthy stringify]. by rewrite Hid0.
  - intros Hnd. apply NoDup_cons in Hnd as [Hnin _]. apply Hnin.
    by apply list_elem_of_singleton.
Qed.

End RequestIds.

(** ** The collection value: [indexOf], [__init], [__add] *)

Module Collection.
Import Js ResCollection.

(** C8.  The code does not do what the claim says of it: on a collection
    with a list, [indexOf] returns no index.  It reads the identifier [id],
    which is not bound, and so throws a [ReferenceError], whatever the item
    and whether or not the list has it. *)
Theorem indexOf_throws item c l :
  _list c = Some l → indexOf item c = Throw (ReferenceError "id").
Proof. intros H. unfold indexOf. by rewrite H. Qed.

(** [indexOf] of the second of two items: the claim says 1. *)
Lemma indexOf_throws_witness :
  _list (with_list [itemA; itemB] (constructor "c" None))
    = Some [itemA; itemB] ∧
  indexOf itemB (with_list [itemA; itemB] (constructor "c" None))
    = Throw (ReferenceError "id").
Proof.
  split; [reflexivity|]. by apply (indexOf_throws _ _ [itemA; itemB]).
Defined.

(** [__init]: the loop registers each item under its id as long as the ids
    are new. *)
Lemma initMap_distinct f l : ∀ m,
  NoDup (f <$> l) → (∀ v, v ∈ l → m !! f v = None) →
  ∃ m', initMap f l m = (m', Normal ()) ∧
        ∀ k, m' !! k = match list_find (λ v, f v = k) l with
                       | Some (_, v) => Some v
                       | None => m !! k
                       end.
Proof.
  induction l as [|v l IH]; intros m Hnd Hnew; simpl.
  { by exists m. }
  rewrite Hnew by (apply elem_of_cons; by left). simpl.
  apply NoDup_cons in Hnd as [Hv Hnd].
  destruct (IH (<[f v := v]> m) Hnd) as (m' & -> & Hm').
  { intros w Hw. rewrite lookup_insert_ne; [apply Hnew, elem_of_cons; by right|].
    intros Heq. apply Hv. rewrite Heq. by apply list_elem_of_fmap_2. }
  exists m'. split; [done|]. intros k. rewrite Hm'.
  case_decide as Hk.
  - subst k. destruct (list_find _ l) as [[i w]|] eqn:Hfind; simpl.
    + apply list_find_Some in Hfind as (Hw%list_elem_of_lookup_2 & Hfw & _).
      exfalso. apply Hv. rewrite <-Hfw. by apply list_elem_of_fmap_2.
    + by rewrite lookup_insert_eq.
  - destruct (list_find _ l) as [[i w]|]; simpl; [done|].
    by rewrite lookup_insert_ne.
Qed.

(** [__init] throws when two items, neither of them falsy, have the same
    id. *)
Lemma initMap_duplicate f l : ∀ m,
  (∀ v, v ∈ l → truthy v = true) →
  (∀ k v, m !! k = Some v → truthy v = true) →
  ¬ NoDup (f <$> l) ∨ (∃ v, v ∈ l ∧ is_Some (m !! f v)) →
  ∃ m' id, initMap f l m = (m', Throw (Error ("Duplicate id - " +:+ id))).
Proof.
  induction l as [|v l IH]; intros m Hl Hm Hdup; simpl.
  { destruct Hdup as [Hdup|(v & Hv & _)]; [destruct Hdup; constructor|].
    by apply elem_of_nil in Hv. }
  destruct (m !! f v) as [w|] eqn:Hfv; simpl.
  { rewrite (Hm _ _ Hfv). eauto. }
  apply IH.
  - intros w Hw. apply Hl, elem_of_cons. by right.
  - intros k w. rewrite lookup_insert. case_decide; [|by apply Hm].
    intros [= <-]. apply Hl, elem_of_cons. by left.
  - destruct (decide (f v ∈ f <$> l)) as [Hin|Hnin].
    + right. apply list_elem_of_fmap in Hin as (w & Hfw & Hw).
      exists w. split; [done|]. rewrite <-Hfw, lookup_insert_eq. by eexists.
    + destruct Hdup as [Hdup|(w & Hw & Hsome)].
      * left. intros Hnd. apply Hdup. by constructor.
      * apply elem_of_cons in Hw as [->|Hw].
        { rewrite Hfv in Hsome. by destruct Hsome. }
        right. exists w. split; [done|].
        rewrite lookup_insert_ne; [done|].
        intros Heq. apply Hnin. rewrite Heq. by apply list_elem_of_fmap_2.
Qed.

(** X8.  [__init] on a collection with an id callback throws
    [Duplicate id - <id>] when two of the items have the same id and no
    item is falsy. *)
Lemma init_rejects_duplicates c f data :
  _idCallback c = Some f → (∀ v, v ∈ data → truthy v = true) →
  ¬ NoDup (f <$> data) →
  ∃ id, (__init (Some data) c).2 = Throw (Error ("Duplicate id - " +:+ id)).
Proof.
  intros Hf Htruthy Hdup. unfold __init.
  change (default [] (Some data)) with data.
  cbn [_idCallback with_list]. rewrite Hf.
  destruct (initMap_duplicate f data ∅ Htruthy) as (m' & id & ->); eauto.
  intros k v. by rewrite lookup_empty.
Qed.

(** The item [{id: "a"}] twice. *)
Lemma init_rejects_duplicates_witness :
  _idCallback (constructor "c" (Some idOf)) = Some idOf ∧
  (∀ v, v ∈ [itemA; itemA] → truthy v = true) ∧
  ¬ NoDup (idOf <$> [itemA; itemA]) ∧
  ∃ id, (__init (Some [itemA; itemA]) (constructor "c" (Some idOf))).2
        = Throw (Error ("Duplicate id - " +:+ id)).
Proof.
  assert (Ht : ∀ v, v ∈ [itemA; itemA] → truthy v = true).
  { intros v Hv. repeat (apply elem_of_cons in Hv as [->|Hv]; [done|]).
    by apply elem_of_nil in Hv. }
  assert (Hd : ¬ NoDup (idOf <$> [itemA; itemA])).
  { cbn [fmap list_fmap]. intros [Hn _]%NoDup_cons. apply Hn.
    apply elem_of_cons. by left. }
  split_and!; [done..|]. by apply (init_rejects_duplicates _ idOf).
Defined.

(** C7.  The code does not do what the claim says of it: with an id
    callback, [__add] puts the item into the list and then throws a
    [ReferenceError], because the argument of the callback is the
    identifier [v], which is not bound; the id map stays as it was, also
    when the id of the item is new. *)
Theorem add_throws item idx c l f :
  _list c = Some l → _idCallback c = Some f →
  __add item idx c
  = (with_list (splice l idx 0 [item]) c, Throw (ReferenceError "v")).
Proof. intros Hl Hf. unfold __add. rewrite Hl. cbn. by rewrite Hf. Qed.

(** A collection that holds [{id: "a"}], and [{id: "b"}] added at index 1:
    the claim says that the item is registered under ["b"]. *)
Lemma add_throws_witness :
  (_list withA = Some [itemA] ∧ _idCallback withA = Some idOf ∧
   _map withA = Some {[ "a" := itemA ]}) ∧
  let '(c, r) := __add itemB (Some 1) withA in
  r = Throw (ReferenceError "v") ∧ _list c = Some [itemA; itemB] ∧
  _map c = Some {[ "a" := itemA ]}.
Proof.
  split; [by vm_compute|].
  rewrite (add_throws itemB (Some 1) withA [itemA] idOf) by reflexivity.
  by vm_compute.
Defined.

End Collection.

(** ** The diff of lists without duplicates *)

Module Diff.
Import Js PatchDiff.

(** *** Runs of calls *)

Lemma applyCalls_app c1 c2 l :
  applyCalls (c1 ++ c2) l = applyCalls c1 l ≫= applyCalls c2.
Proof.
  revert l. induction c1 as [|c c1 IH]; intros l; simpl; [done|].
  destruct (applyCall l c); simpl; [apply IH|done].
Qed.

Lemma applyCalls_one c l : applyCalls [c] l = applyCall l c.
Proof. unfold applyCalls. by destruct (applyCall l c). Qed.

Lemma applyCalls_keeps calls l :
  Forall (λ c, isKeep c = true) calls → applyCalls calls l = Some l.
Proof.
  induction 1 as [|c calls Hc _ IH]; simpl; [done|].
  destruct c; try done.
Qed.

(** The element, the removal and the insertion at the end of the middle
    part of a list. *)
Lemma get_middle (P X T : list string) x (k : Z) :
  k = Z.of_nat (length P) + Z.of_nat (length X) →
  Js.get (P ++ X ++ x :: T) k = Some x.
Proof.
  intros ->. unfold Js.get. rewrite decide_True by lia.
  replace (Z.to_nat _) with (length P + length X)%nat by lia.
  rewrite lookup_app_r by lia. rewrite lookup_app_r by lia.
  by replace (_ - _ - _)%nat with 0%nat by lia.
Qed.

Lemma delete_between (P X T : list string) x (k : Z) :
  k = Z.of_nat (length P) + Z.of_nat (length X) →
  delete (Z.to_nat k) (P ++ X ++ x :: T) = P ++ X ++ T.
Proof.
  intros ->. replace (Z.to_nat _) with (length (P ++ X))
    by (rewrite length_app; lia).
  rewrite !(app_assoc P X). by rewrite delete_middle.
Qed.

Lemma insert_middle (P X T : list string) y (k : Z) :
  k = Z.of_nat (length P) + Z.of_nat (length X) →
  take (Z.to_nat k) (P ++ X ++ T) ++ y :: drop (Z.to_nat k) (P ++ X ++ T)
  = P ++ X ++ y :: T.
Proof.
  intros ->. replace (Z.to_nat _) with (length (P ++ X))
    by (rewrite length_app; lia).
  rewrite !(app_assoc P X). rewrite take_app_length, drop_app_length.
  by rewrite <-app_assoc.
Qed.

(** *** The walk through the matrix *)

Section walk.
Variables (aa bb : list string) (c : list (list Z)) (s : Z) (P : list string).
Hypothesis HP : Z.of_nat (length P) = s.

Local Abbreviation insertAll := (PatchDiff.insertAll bb s).
Local Abbreviation walked := (PatchDiff.walked aa bb c s P).

(** The four cases of a turn of the walk. *)
Lemma walk_00 idx r adds : walk aa bb c s 0 0 idx r adds = ([], r, adds).
Proof. done. Qed.

Lemma walk_0S j idx r adds :
  walk aa bb c s 0 (S j) idx r adds
  = walk aa bb c s 0 j idx r (adds ++ [(Z.of_nat (S j) - 1, idx, r)]).
Proof. done. Qed.

Lemma walk_S0 i idx r adds :
  walk aa bb c s (S i) 0 idx r adds
  = let '(calls, r', adds') := walk aa bb c s i 0 (idx - 1) (r + 1) adds in
    (OnRemove (aa !! i) (Z.of_nat (S i) - 1 + s) (idx - 1) :: calls, r', adds').
Proof. done. Qed.

Lemma walk_SS i j idx r adds :
  walk aa bb c s (S i) (S j) idx r adds
  = if decide (aa !! i = bb !! j) then
      let '(calls, r', adds') := walk aa bb c s i j (idx - 1) r adds in
      (OnKeep (aa !! i) (Z.of_nat (S i) - 1 + s) (Z.of_nat (S j) - 1 + s)
              (idx - 1) :: calls, r', adds')
    else if bool_decide (cell c i (S j) ≤ cell c (S i) j) then
      walk aa bb c s (S i) j idx r (adds ++ [(Z.of_nat (S j) - 1, idx, r)])
    else
      let '(calls, r', adds') := walk aa bb c s i (S j) (idx - 1) (r + 1) adds in
      (OnRemove (aa !! i) (Z.of_nat (S i) - 1 + s) (idx - 1) :: calls, r', adds').
Proof. done. Qed.

Lemma insertAll_snoc ns n l :
  insertAll (ns ++ [n]) l
  = insertAll ns l ≫= λ l, applyCall l (OnAdd (Js.get bb n) (n + s) (n + s)).
Proof.
  unfold PatchDiff.insertAll. rewrite fmap_app, applyCalls_app.
  destruct (applyCalls _ l) as [l'|]; [|done].
  apply applyCalls_one.
Qed.

(** A turn that defers an insertion keeps the invariant. *)
Lemma walked_add i j r adds y :
  bb !! j = Some y → (i ≤ length aa)%nat →
  walked i j r (adds ++ [(Z.of_nat (S j) - 1, s + Z.of_nat i, r)]) →
  walk aa bb c s i (S j) (s + Z.of_nat i) r adds
  = walk aa bb c s i j (s + Z.of_nat i) r
         (adds ++ [(Z.of_nat (S j) - 1, s + Z.of_nat i, r)]) →
  walked i (S j) r adds.
Proof.
  intros Hy Hi (calls & r' & new & K & Hw & Hadds & Hr & Hcount & Hnew & Hsem) Heq.
  exists calls, r', ((Z.of_nat (S j) - 1, s + Z.of_nat i, r) :: new), K.
  split_and!.
  - rewrite Heq, Hw. by rewrite <-app_assoc.
  - done.
  - done.
  - simpl length. lia.
  - intros [|q] n idx_e r_e; simpl.
    + intros [= <- <- <-]. lia.
    + intros Hq. apply Hnew in Hq. lia.
  - intros T. destruct (Hsem T) as [HA HC]. split; [done|].
    rewrite !fmap_cons. simpl. rewrite reverse_cons, insertAll_snoc, HC. simpl.
    replace (Z.of_nat (S j) - 1) with (Z.of_nat j) by lia.
    unfold Js.get at 1. rewrite decide_True by lia. rewrite Nat2Z.id, Hy.
    apply lookup_lt_Some in Hy as Hj.
    rewrite bool_decide_true.
    2:{ rewrite !length_app, length_take. lia. }
    f_equal. rewrite (insert_middle P (take j bb) T y).
    2:{ rewrite length_take. lia. }
    by rewrite (take_S_r _ _ _ Hy), <-app_assoc.
Qed.

(** A turn that removes keeps the invariant. *)
Lemma walked_remove i j r adds x :
  aa !! i = Some x →
  walked i j (r + 1) adds →
  walk aa bb c s (S i) j (s + Z.of_nat (S i)) r adds
  = (let '(calls, r', adds') :=
       walk aa bb c s i j (s + Z.of_nat i) (r + 1) adds in
     (OnRemove (aa !! i) (Z.of_nat (S i) - 1 + s) (s + Z.of_nat i) :: calls,
      r', adds')) →
  walked (S i) j r adds.
Proof.
  intros Hx (calls & r' & new & K & Hw & Hadds & Hr & Hcount & Hnew & Hsem) Heq.
  exists (OnRemove (aa !! i) (Z.of_nat (S i) - 1 + s) (s + Z.of_nat i) :: calls),
    r', new, K.
  apply lookup_lt_Some in Hx as Hi.
  split_and!.
  - by rewrite Heq, Hw.
  - by constructor.
  - lia.
  - lia.
  - done.
  - intros T. destruct (Hsem T) as [HA HC]. split; [|done].
    simpl. rewrite (take_S_r _ _ _ Hx), <-app_assoc. simpl.
    rewrite (get_middle P (take i aa) T x) by (rewrite length_take; lia).
    rewrite bool_decide_true by (rewrite Hx; split_and!; [lia|by eexists|done]).
    simpl. rewrite (delete_between P (take i aa) T x)
      by (rewrite length_take; lia).
    done.
Qed.

(** A turn that keeps an element keeps the invariant. *)
Lemma walked_keep i j r adds x :
  aa !! i = Some x → bb !! j = Some x →
  walked i j r adds →
  walk aa bb c s (S i) (S j) (s + Z.of_nat (S i)) r adds
  = (let '(calls, r', adds') :=
       walk aa bb c s i j (s + Z.of_nat i) r adds in
     (OnKeep (aa !! i) (Z.of_nat (S i) - 1 + s) (Z.of_nat (S j) - 1 + s)
             (s + Z.of_nat i) :: calls, r', adds')) →
  walked (S i) (S j) r adds.
Proof.
  intros Hx Hy (calls & r' & new & K & Hw & Hadds & Hr & Hcount & Hnew & Hsem) Heq.
  exists (OnKeep (aa !! i) (Z.of_nat (S i) - 1 + s) (Z.of_nat (S j) - 1 + s)
                 (s + Z.of_nat i) :: calls), r', new, (K ++ [x]).
  split_and!.
  - by rewrite Heq, Hw.
  - by constructor.
  - lia.
  - lia.
  - intros q n idx_e r_e Hq. apply Hnew in Hq. lia.
  - intros T. destruct (Hsem (x :: T)) as [HA HC]. split.
    + simpl. rewrite (take_S_r _ _ _ Hx), <-!app_assoc. simpl. done.
    + rewrite (take_S_r _ _ _ Hy), <-!app_assoc. simpl. done.
Qed.

(** The invariant holds from every position on, whatever the matrix [c]
    holds: the matrix decides which calls are made, not whether they lead
    to [bb]. *)
Lemma walk_spec i : ∀ j r adds,
  (i ≤ length aa)%nat → (j ≤ length bb)%nat → walked i j r adds.
Proof.
  induction i as [|i IHi]; intros j; induction j as [|j IHj];
    intros r adds Hi Hj.
  - exists [], r, [], []. rewrite walk_00, app_nil_r.
    split_and!; [done|constructor|lia|simpl; lia|by intros [|?] ? ? ?|].
    intros T. by split.
  - destruct (lookup_lt_is_Some_2 bb j) as [y Hy]; [lia|].
    apply (walked_add _ _ _ _ y); [done|done| |apply walk_0S].
    apply IHj; lia.
  - destruct (lookup_lt_is_Some_2 aa i) as [x Hx]; [lia|].
    apply (walked_remove _ _ _ _ x); [done| |].
    + apply IHi; lia.
    + rewrite walk_S0. by replace (s + Z.of_nat (S i) - 1) with (s + Z.of_nat i) by lia.
  - destruct (lookup_lt_is_Some_2 aa i) as [x Hx]; [lia|].
    destruct (lookup_lt_is_Some_2 bb j) as [y Hy]; [lia|].
    pose proof (walk_SS i j (s + Z.of_nat (S i)) r adds) as Heq.
    replace (s + Z.of_nat (S i) - 1) with (s + Z.of_nat i) in Heq by lia.
    destruct (decide (aa !! i = bb !! j)) as [Hxy|Hxy].
    + apply (walked_keep _ _ _ _ x); [done|congruence| |done].
      apply IHi; lia.
    + case_bool_decide.
      * apply (walked_add _ _ _ _ y); [done|done| |done]. apply IHj; lia.
      * apply (walked_remove _ _ _ _ x); [done| |done]. apply IHi; lia.
Qed.
End walk.

(** *** Reading by index *)

Lemma get_Some {A} (l : list A) (i : Z) :
  0 ≤ i < Z.of_nat (length l) → is_Some (Js.get l i).
Proof.
  intros Hi. unfold Js.get. rewrite decide_True by lia.
  apply lookup_lt_is_Some_2. lia.
Qed.

Lemma get_None {A} (l : list A) (i : Z) : i < 0 → Js.get l i = None.
Proof. intros Hi. unfold Js.get. by rewrite decide_False by lia. Qed.

Lemma get_NoDup (l : list string) (i j : Z) x :
  NoDup l → Js.get l i = Some x → Js.get l j = Some x → i = j.
Proof.
  unfold Js.get. intros Hnd. repeat case_decide; try done.
  intros Hi Hj. pose proof (NoDup_lookup _ _ _ _ Hnd Hi Hj). lia.
Qed.

Lemma get_ext (l k : list string) :
  length l = length k →
  (∀ i, 0 ≤ i < Z.of_nat (length l) → Js.get l i = Js.get k i) → l = k.
Proof.
  intros Hlen Heq. apply list_eq. intros i.
  destruct (decide (i < length l)%nat) as [Hi|Hi].
  - specialize (Heq (Z.of_nat i)). unfold Js.get in Heq.
    rewrite !decide_True, Nat2Z.id in Heq by lia. apply Heq. lia.
  - rewrite !lookup_ge_None_2; [done|lia..].
Qed.

(** *** The trimming loops *)

Section trim.
Variables a b : list string.
Let la := Z.of_nat (length a).
Let lb := Z.of_nat (length b).

(** The first loop stops at an [s] up to which [a] and [b] agree. *)
Lemma trimStart_spec fuel : ∀ s,
  0 ≤ s → s ≤ la → s ≤ lb →
  (∀ i, 0 ≤ i < s → Js.get a i = Js.get b i) →
  let s' := trimStart a b fuel s la lb in
  s ≤ s' ∧ s' ≤ la ∧ s' ≤ lb ∧ (∀ i, 0 ≤ i < s' → Js.get a i = Js.get b i).
Proof.
  induction fuel as [|fuel IH]; intros s H0 Ha Hb Heq; simpl.
  { split_and!; [lia|done..]. }
  destruct (bool_decide (s < la) && bool_decide (s < lb)
            && bool_decide (Js.get a s = Js.get b s)) eqn:Hc.
  - apply andb_prop in Hc as [[H1 H2]%andb_prop H3].
    apply bool_decide_eq_true in H1, H2, H3.
    destruct (IH (s + 1)) as (?&?&?&?); [lia..| |].
    + intros i Hi. destruct (decide (i = s)) as [->|]; [done|]. apply Heq. lia.
    + split_and!; [lia|done..].
  - split_and!; [lia|done..].
Qed.

(** The second loop keeps the ends of [a] and [b] from [m] and [n] on
    equal.  It can go one step below [s], and does so for lists without
    duplicates only when they are equal. *)
Lemma trimEnd_spec s fuel : ∀ m n,
  NoDup a → NoDup b →
  (∀ i, 0 ≤ i < s → Js.get a i = Js.get b i) →
  0 ≤ s → s ≤ m ≤ la → s ≤ n ≤ lb → la - m = lb - n →
  (∀ t, 0 ≤ t < la - m → Js.get a (m + t) = Js.get b (n + t)) →
  let '(m', n') := trimEnd a b fuel s m n in
  a = b ∨
  (s ≤ m' ≤ la ∧ s ≤ n' ≤ lb ∧ la - m' = lb - n' ∧
   ∀ t, 0 ≤ t < la - m' → Js.get a (m' + t) = Js.get b (n' + t)).
Proof.
  induction fuel as [|fuel IH]; intros m n Hnda Hndb Hpre Hs Hm Hn Hlen Hsuf;
    simpl.
  { by right. }
  destruct (bool_decide (s ≤ m) && bool_decide (s ≤ n)
            && bool_decide (Js.get a (m - 1) = Js.get b (n - 1))) eqn:Hc;
    [|by right].
  apply andb_prop in Hc as [_ H3]. apply bool_decide_eq_true in H3.
  destruct (decide (m = s)) as [->|Hms]; [destruct (decide (n = s)) as [->|Hns]|
    destruct (decide (n = s)) as [->|Hns]].
  - (* the two lists are equal *)
    destruct (trimEnd _ _ _ _ _ _). left. apply get_ext; [unfold la, lb in *; lia|].
    intros i Hi. destruct (decide (i < s)); [apply Hpre; lia|].
    replace i with (s + (i - s)) by lia. apply Hsuf. unfold la. lia.
  - (* [a] is used up, [b] is not *)
    exfalso. destruct (decide (s = 0)) as [->|].
    + rewrite get_None in H3 by lia.
      destruct (get_Some b (n - 1)) as [x Hx]; [unfold lb in *; lia|]. congruence.
    + destruct (get_Some b (s - 1)) as [x Hx]; [unfold lb in *; lia|].
      rewrite <-Hpre in Hx by lia. rewrite Hx in H3.
      rewrite Hpre in Hx by lia.
      pose proof (get_NoDup _ _ _ _ Hndb Hx (eq_sym H3)). lia.
  - (* [b] is used up, [a] is not *)
    exfalso. destruct (decide (s = 0)) as [->|].
    + rewrite (get_None b) in H3 by lia.
      destruct (get_Some a (m - 1)) as [x Hx]; [unfold la in *; lia|]. congruence.
    + destruct (get_Some a (s - 1)) as [x Hx]; [unfold la in *; lia|].
      pose proof Hx as Hx'. rewrite Hpre in Hx' by lia. rewrite Hx' in H3.
      pose proof (get_NoDup _ _ _ _ Hnda Hx H3). lia.
  - specialize (IH (m - 1) (n - 1)).
    destruct (trimEnd a b fuel s (m - 1) (n - 1)) as [m' n'].
    destruct IH as [IH|IH]; try done; try lia.
    + intros t Ht. destruct (decide (t = 0)) as [->|].
      * by rewrite !Z.add_0_r.
      * replace (m - 1 + t) with (m + (t - 1)) by lia.
        replace (n - 1 + t) with (n + (t - 1)) by lia. apply Hsuf. lia.
    + by left.
    + right. split_and!; try lia. apply IH.
Qed.

End trim.

(** *** The whole diff *)

(** [slice] within the bounds of the list. *)
Lemma slice_spec (l : list string) (s m : Z) :
  0 ≤ s → s ≤ m → m ≤ Z.of_nat (length l) →
  Js.slice l s m = take (Z.to_nat (m - s)) (drop (Z.to_nat s) l) ∧
  Z.of_nat (length (Js.slice l s m)) = m - s ∧
  l = take (Z.to_nat s) l ++ Js.slice l s m ++ drop (Z.to_nat m) l.
Proof.
  intros H0 Hs Hm.
  assert (Hslice : Js.slice l s m
                   = take (Z.to_nat (m - s)) (drop (Z.to_nat s) l)).
  { unfold Js.slice, Js.rel. cbv zeta.
    rewrite !decide_False by lia. by rewrite !Z.min_l by lia. }
  rewrite Hslice. split; [done|]. split.
  - rewrite length_take, length_drop. lia.
  - rewrite <-(take_drop (Z.to_nat s) l) at 1. f_equal.
    rewrite <-(take_drop (Z.to_nat (m - s)) (drop (Z.to_nat s) l)) at 1.
    f_equal. rewrite drop_drop. f_equal. lia.
Qed.

(** Lists that agree by index have the same beginning, or end. *)
Lemma take_get_ext (l k : list string) (s : Z) :
  0 ≤ s → s ≤ Z.of_nat (length l) → s ≤ Z.of_nat (length k) →
  (∀ i, 0 ≤ i < s → Js.get l i = Js.get k i) →
  take (Z.to_nat s) l = take (Z.to_nat s) k.
Proof.
  intros H0 Hl Hk Heq. apply get_ext.
  - rewrite !length_take. lia.
  - intros i Hi. rewrite length_take in Hi.
    specialize (Heq i). unfold Js.get in *.
    rewrite !decide_True in * by lia.
    rewrite !lookup_take_lt by lia. apply Heq. lia.
Qed.

Lemma drop_get_ext (l k : list string) (m n : Z) :
  0 ≤ m → 0 ≤ n → m ≤ Z.of_nat (length l) →
  Z.of_nat (length l) - m = Z.of_nat (length k) - n →
  (∀ t, 0 ≤ t < Z.of_nat (length l) - m →
        Js.get l (m + t) = Js.get k (n + t)) →
  drop (Z.to_nat m) l = drop (Z.to_nat n) k.
Proof.
  intros Hm Hn Hl Hlen Heq. apply get_ext.
  - rewrite !length_drop. lia.
  - intros i Hi. rewrite length_drop in Hi.
    specialize (Heq i). unfold Js.get in *.
    rewrite !decide_True in * by lia.
    rewrite !lookup_drop.
    replace (Z.to_nat m + Z.to_nat i)%nat with (Z.to_nat (m + i)) by lia.
    replace (Z.to_nat n + Z.to_nat i)%nat with (Z.to_nat (n + i)) by lia.
    apply Heq. lia.
Qed.

(** The final loop inserts every deferred element at its position in
    [b]. *)
Lemma doAdds_spec bb s r (new : list (Z * Z * Z)) :
  (∀ q n idx_e r_e,
     new !! q = Some (n, idx_e, r_e) →
     idx_e - r + r_e + (Z.of_nat (length new) - 1 - Z.of_nat q) = n + s) →
  doAdds bb s r new
  = (λ n, OnAdd (Js.get bb n) (n + s) (n + s)) <$> reverse (new.*1.*1).
Proof.
  intros Hnew. unfold doAdds. apply list_eq. intros k.
  rewrite list_lookup_imap, <-!fmap_reverse, !list_lookup_fmap.
  destruct (reverse new !! k) as [[[n idx_e] r_e]|] eqn:Hk; simpl; [|done].
  apply reverse_lookup_Some in Hk as [Hk Hlt].
  apply Hnew in Hk. do 2 f_equal. lia.
Qed.

(** Keeps can be passed over. *)
Lemma applyCalls_skip_keeps keeps calls l :
  Forall (λ c, isKeep c = true) keeps →
  applyCalls (keeps ++ calls) l = applyCalls calls l.
Proof. intros H. by rewrite applyCalls_app, applyCalls_keeps. Qed.

Lemma Forall_keeps_fmap {A} (f : A → call) (l : list A) :
  (∀ x, isKeep (f x) = true) → Forall (λ c, isKeep c = true) (f <$> l).
Proof. intros H. apply Forall_fmap, Forall_true. intros x. apply H. Qed.

(** The walk and the final loop, between keeps, turn [P ++ aa ++ T] into
    [P ++ bb ++ T]. *)
Lemma walk_sound aa bb c s P T kE kS :
  Z.of_nat (length P) = s →
  Forall (λ c, isKeep c = true) kE → Forall (λ c, isKeep c = true) kS →
  let '(middle, r, adds) :=
    walk aa bb c s (length aa) (length bb) (Z.of_nat (length aa) + s) 0 [] in
  applyCalls (kE ++ middle ++ kS ++ doAdds bb s r adds) (P ++ aa ++ T)
  = Some (P ++ bb ++ T).
Proof.
  intros HP HkE HkS.
  destruct (walk_spec aa bb c s P HP (length aa) (length bb) 0 [])
    as (calls & r' & new & K & Hw & _ & _ & _ & Hnew & Happ); [done..|].
  change ([] ++ new) with new in Hw. rewrite Z.add_comm, Hw.
  destruct (Happ T) as [H1 H2]. rewrite !take_ge in H1, H2 by lia.
  rewrite applyCalls_skip_keeps, applyCalls_app, H1 by done.
  change (Some (P ++ K ++ T) ≫= ?f) with (f (P ++ K ++ T)).
  rewrite applyCalls_skip_keeps by done.
  rewrite (doAdds_spec bb s r' new); [exact H2|].
  intros q n idx_e r_e Hq. by apply Hnew.
Qed.

(** The first loop runs to the end of a list compared with itself. *)
Lemma trimStart_refl a fuel : ∀ s,
  0 ≤ s → s + Z.of_nat fuel ≤ Z.of_nat (length a) →
  trimStart a a fuel s (Z.of_nat (length a)) (Z.of_nat (length a))
  = s + Z.of_nat fuel.
Proof.
  induction fuel as [|fuel IH]; intros s H0 Hs; simpl; [lia|].
  rewrite !bool_decide_eq_true_2 by (done || lia). simpl.
  rewrite IH by lia. lia.
Qed.

(** Two slices at the bounds, and a loop that does not run. *)
Lemma slice_from_end {A} (l : list A) (m : Z) :
  Js.slice l (Z.of_nat (length l)) m = [].
Proof.
  unfold Js.slice. cbv zeta.
  replace (Js.rel (Z.of_nat (length l)) (Z.of_nat (length l)))
    with (Z.of_nat (length l))
    by (unfold Js.rel; rewrite decide_False by lia; lia).
  rewrite Nat2Z.id, drop_all. apply take_nil.
Qed.

Lemma slice_all {A} (l : list A) : Js.slice l 0 (Z.of_nat (length l)) = l.
Proof.
  unfold Js.slice, Js.rel. cbv zeta. rewrite !decide_False by lia.
  rewrite Z.min_id, Z.min_l by lia. rewrite Z.sub_0_r, Nat2Z.id. simpl.
  apply take_ge. lia.
Qed.

Lemma downto_nil hi lo : hi < lo → Js.downto hi lo = [].
Proof.
  intros H. unfold Js.downto, seqZ.
  by replace (Z.to_nat (hi - lo + 1)) with 0%nat by lia.
Qed.

(** A list diffed with itself is kept as it is. *)
Lemma patchDiff_equal a : applyCalls (_patchDiff a a) a = Some a.
Proof.
  apply applyCalls_keeps.
  destruct (decide (a = [])) as [->|Hne]; [vm_compute; constructor|].
  assert (0 < Z.of_nat (length a)) by (destruct a; [done|simpl; lia]).
  unfold _patchDiff. cbv zeta.
  rewrite (trimStart_refl a (length a) 0) by lia. rewrite Z.add_0_l.
  destruct (trimEnd _ _ _ _ _ _) as [m n].
  rewrite (bool_decide_eq_true_2 (Z.of_nat (length a) > 0)) by lia.
  cbn [orb]. rewrite !slice_from_end.
  change (Z.to_nat (Z.of_nat (length []))) with 0%nat. rewrite walk_00.
  rewrite downto_nil by (simpl; lia).
  apply Forall_app. split; [constructor|]. apply Forall_app. split; [constructor|].
  apply Forall_app. split; [|constructor]. by apply Forall_keeps_fmap.
Qed.

(** X1.  For lists [a] and [b] without duplicates, the calls that
    [_patchDiff a b] makes, applied in their order to [a], each at the
    index it gives, turn [a] into [b]: every removal finds the element it
    names at its index, and every insertion is made at a place of the
    list as it then is. *)
Theorem patchDiff_sound a b :
  NoDup a → NoDup b → applyCalls (_patchDiff a b) a = Some b.
Proof.
  intros Hnda Hndb.
  destruct (decide (a = b)) as [->|Hab]; [apply patchDiff_equal|].
  unfold _patchDiff. cbv zeta.
  set (la := Z.of_nat (length a)). set (lb := Z.of_nat (length b)).
  pose proof (trimStart_spec a b (length a) 0) as Hs. cbv zeta in Hs.
  destruct Hs as (Hs0 & Hsa & Hsb & Hpre); [lia..|intros; lia|].
  fold la lb in Hsa, Hsb, Hs0 |- *.
  set (s := trimStart a b (length a) 0 la lb) in *.
  pose proof (trimEnd_spec a b s (Z.to_nat (la - s + 1)) la lb Hnda Hndb Hpre)
    as He.
  fold la lb in He.
  destruct (trimEnd a b (Z.to_nat (la - s + 1)) s la lb) as [m n].
  destruct He as [?|(Hm & Hn & Hlen & Hsuf)];
    [lia|lia|lia|lia|intros; lia|done|].
  change (∀ i, 0 ≤ i < s → Js.get a i = Js.get b i) in Hpre.
  assert (Haa : (if bool_decide (s > 0) || bool_decide (m < la)
                 then (Js.slice a s m, Z.of_nat (length (Js.slice a s m)))
                 else (a, m))
                = (Js.slice a s m, Z.of_nat (length (Js.slice a s m)))).
  { destruct (bool_decide (s > 0) || bool_decide (m < la)) eqn:Hc; [done|].
    apply orb_false_elim in Hc as [H1%bool_decide_eq_false H2%bool_decide_eq_false].
    replace s with 0 by lia. replace m with la by lia.
    unfold la. by rewrite slice_all. }
  assert (Hbb : (if bool_decide (s > 0) || bool_decide (n < lb)
                 then (Js.slice b s n, Z.of_nat (length (Js.slice b s n)))
                 else (b, n))
                = (Js.slice b s n, Z.of_nat (length (Js.slice b s n)))).
  { destruct (bool_decide (s > 0) || bool_decide (n < lb)) eqn:Hc; [done|].
    apply orb_false_elim in Hc as [H1%bool_decide_eq_false H2%bool_decide_eq_false].
    replace s with 0 by lia. replace n with lb by lia.
    unfold lb. by rewrite slice_all. }
  rewrite Haa, Hbb. clear Haa Hbb.
  destruct (slice_spec a s m) as (_ & _ & Ha); [lia..|].
  destruct (slice_spec b s n) as (_ & _ & Hb); [lia..|].
  rewrite <-(take_get_ext a b s) in Hb by (done || lia).
  rewrite <-(drop_get_ext a b m n) in Hb by (done || lia).
  set (aa := Js.slice a s m) in *. set (bb := Js.slice b s n) in *.
  pose proof (walk_sound aa bb (lcsMatrix aa bb) s (take (Z.to_nat s) a)
    (drop (Z.to_nat m) a)
    ((λ i, OnKeep (Js.get a i) i (i - Z.of_nat (length aa) + Z.of_nat (length bb)) i)
       <$> Js.downto (la - 1) (s + Z.of_nat (length aa)))
    ((λ i, OnKeep (Js.get a i) i i i) <$> Js.downto (s - 1) 0)) as Hw.
  rewrite <-Ha, <-Hb in Hw. rewrite !Nat2Z.id.
  specialize (Hw ltac:(rewrite length_take; lia)
                 ltac:(by apply Forall_keeps_fmap)
                 ltac:(by apply Forall_keeps_fmap)).
  revert Hw. by destruct (walk aa bb _ _ _ _ _ _ _) as [[middle r] adds].
Qed.

(** The lists [[A, B, C]] and [[A, C, D]]. *)
Lemma patchDiff_sound_witness :
  NoDup ["A"; "B"; "C"] ∧ NoDup ["A"; "C"; "D"] ∧
  applyCalls (_patchDiff ["A"; "B"; "C"] ["A"; "C"; "D"]) ["A"; "B"; "C"]
  = Some ["A"; "C"; "D"].
Proof.
  assert (Ha : NoDup ["A"; "B"; "C"])
    by (apply (bool_decide_unpack _); by vm_compute).
  assert (Hb : NoDup ["A"; "C"; "D"])
    by (apply (bool_decide_unpack _); by vm_compute).
  split_and!; [done..|]. by apply patchDiff_sound.
Defined.

(** The walk itself makes no insertion: it defers them. *)
Lemma walk_no_adds aa bb c s i : ∀ j idx r adds,
  Forall (λ c, isAdd c = false) (walk aa bb c s i j idx r adds).1.1.
Proof.
  induction i as [|i IHi]; intros j; induction j as [|j IHj]; intros idx r adds.
  - rewrite walk_00. constructor.
  - rewrite walk_0S. apply IHj.
  - rewrite walk_S0. specialize (IHi 0%nat (idx - 1) (r + 1) adds).
    destruct (walk aa bb c s i 0 _ _ _) as [[calls r'] adds'].
    by constructor.
  - rewrite walk_SS. destruct (decide (aa !! i = bb !! j)).
    + specialize (IHi j (idx - 1) r adds).
      destruct (walk aa bb c s i j _ _ _) as [[calls r'] adds'].
      by constructor.
    + case_bool_decide; [apply IHj|].
      specialize (IHi (S j) (idx - 1) (r + 1) adds).
      destruct (walk aa bb c s i (S j) _ _ _) as [[calls r'] adds'].
      by constructor.
Qed.

(** X2.  Whatever the lists, also with duplicates, [_patchDiff] makes its
    insertions last: its calls are some keeps and removals followed by
    insertions only, so that every removal comes before every
    insertion. *)
Theorem patchDiff_order a b :
  ∃ pre adds,
    _patchDiff a b = pre ++ adds ∧
    Forall (λ c, isAdd c = false) pre ∧ Forall (λ c, isAdd c = true) adds.
Proof.
  unfold _patchDiff. cbv zeta.
  destruct (trimEnd _ _ _ _ _ _) as [m n].
  destruct (if bool_decide (_ > 0) || bool_decide (m < _) then _ else _)
    as [aa m0].
  destruct (if bool_decide (_ > 0) || bool_decide (n < _) then _ else _)
    as [bb n0].
  pose proof (walk_no_adds aa bb (lcsMatrix aa bb)
                (trimStart a b (length a) 0 (Z.of_nat (length a))
                           (Z.of_nat (length b)))
                (Z.to_nat m0) (Z.to_nat n0)
                (m0 + trimStart a b (length a) 0 (Z.of_nat (length a))
                                (Z.of_nat (length b))) 0 []) as Hw.
  destruct (walk _ _ _ _ _ _ _ _ _) as [[middle r] adds].
  match goal with
  | |- ∃ pre adds, ?kE ++ ?mid ++ ?kS ++ ?da = _ ∧ _ =>
      exists (kE ++ mid ++ kS), da
  end.
  split; [by rewrite <-!app_assoc|]. split.
  - rewrite !Forall_app. split_and!; [|done|].
    + apply Forall_fmap, Forall_true. done.
    + apply Forall_fmap, Forall_true. done.
  - unfold doAdds. apply Forall_forall. intros x Hx.
    apply list_elem_of_lookup in Hx as [k Hk].
    rewrite list_lookup_imap in Hk.
    destruct (reverse adds !! k) as [[[? ?] ?]|]; by simplify_eq/=.
Qed.

(** With a duplicate the calls can miss [b]: the insertion of the second
    [A] is lost. *)
Lemma patchDiff_loses_duplicate :
  applyCalls (_patchDiff ["A"] ["A"; "A"]) ["A"] = Some ["A"].
Proof. by vm_compute. Qed.

End Diff.

(** ** The synchronisation: [_syncResource] and [_patchDiff] *)

Module Sync.
Import Js Client Scenarios PatchDiff.

(** The calls of [_patchDiff] for [[A, B, C]] and [[A, C, D]]: the removal
    of [B] at index 1 and the insertion of [D] at index 2, the removal
    first. *)
Lemma patchDiff_example :
  _patchDiff ["A"; "B"; "C"] ["A"; "C"; "D"]
  = [OnKeep (Some "C") 2 1 2; OnRemove (Some "B") 1 1;
     OnKeep (Some "A") 0 0 0; OnAdd (Some "D") 2 2].
Proof. reflexivity. Qed.

(** The second trimming loop of [_patchDiff] goes on while [s <= m] and
    [s <= n], and so compares once more when the whole of [a] is a prefix
    of [b]: the end of [b] is matched against an element of [a] that the
    first loop has matched already, and is lost. *)
Lemma patchDiff_trims_too_far :
  _patchDiff ["A"] ["A"; "A"] = [OnKeep (Some "A") 0 0 0] ∧
  _patchDiff ["A"; "B"] ["A"; "B"; "A"; "B"]
  = [OnKeep (Some "B") 1 1 1; OnKeep (Some "A") 0 0 0; OnAdd (Some "A") 2 2].
Proof. split; reflexivity. Qed.

(** C1.  The code does not do what the claim says of it.  For the
    collection [[A, B, C]] and the snapshot [[A, C, D]], [_patchDiff] calls
    for the removal of [B] at index 1, but the callback of [_syncResource]
    hands [_handleRemoveEvent] the data [{rid: id}], without the index.
    [_handleRemoveEvent] reads [data.idx], which is [undefined]: the
    collection loses its first model, [A], the remove event is emitted
    without item and index, and the handler throws before [D] is added.
    This holds whatever the ingestion of snapshots and changes and the
    [__add] of the collection do. *)
Theorem syncResource_loses_remove_index _getCachedResource _handleChangeEvent
    __add :
  _syncResource _getCachedResource _handleChangeEvent __add 1%positive
                snapshotACD staleABC
  = (brokenABC, Throw (TypeError "item is undefined")).
Proof. by vm_compute. Qed.

End Sync.

(** ** More on the diff: equal lists, empty lists, and the places that the calls name *)

Module DiffCalls.
Import Js PatchDiff Diff.

Lemma elem_of_downto i hi lo : i ∈ downto hi lo ↔ lo ≤ i ≤ hi.
Proof. unfold downto. rewrite elem_of_reverse, elem_of_seqZ. lia. Qed.

Lemma downto_S n :
  downto (Z.of_nat (S n) - 1) 0 = Z.of_nat n :: downto (Z.of_nat n - 1) 0.
Proof.
  unfold downto.
  replace (Z.of_nat (S n) - 1 - 0 + 1) with (Z.of_nat (S n)) by lia.
  replace (Z.of_nat n - 1 - 0 + 1) with (Z.of_nat n) by lia.
  rewrite seqZ_S, reverse_app. done.
Qed.

(** The first loop of [_patchDiff] runs through two lists that are the
    same: nothing is left for the walk, and the keeps of the last loop are
    all the calls. *)
Lemma patchDiff_trimmed a s :
  s = Z.of_nat (length a) → 0 < s →
  _patchDiff a a = (λ i, OnKeep (Js.get a i) i i i) <$> downto (s - 1) 0.
Proof.
  intros -> Hlen. unfold _patchDiff. cbv zeta.
  rewrite (trimStart_refl a (length a) 0) by lia. rewrite Z.add_0_l.
  destruct (trimEnd _ _ _ _ _ _) as [m n].
  rewrite (bool_decide_eq_true_2 (Z.of_nat (length a) > 0)) by lia.
  cbn [orb]. rewrite !slice_from_end.
  change (Z.to_nat (Z.of_nat (length []))) with 0%nat. rewrite walk_00.
  rewrite downto_nil by (simpl; lia).
  unfold doAdds. simpl. by rewrite app_nil_r.
Qed.

(** X3.  A list diffed with itself, duplicates or not, gives one keep for
    each of its elements, from the last to the first, each with its own
    index in all three places, and no removal and no insertion. *)
Theorem patchDiff_self a :
  _patchDiff a a
  = (λ i, OnKeep (Js.get a i) i i i) <$> downto (Z.of_nat (length a) - 1) 0.
Proof.
  destruct (decide (a = [])) as [->|Hne]; [by vm_compute|].
  assert (0 < Z.of_nat (length a)) by (destruct a; [done|simpl; lia]).
  by apply patchDiff_trimmed.
Qed.

(** The walk with nothing left of [aa] defers one insertion for each
    element of [bb] that is left, last first. *)
Lemma walk_adds_only aa bb c s j : ∀ idx r adds,
  walk aa bb c s 0 j idx r adds
  = ([], r, adds ++ ((λ n, (n, idx, r)) <$> downto (Z.of_nat j - 1) 0)).
Proof.
  induction j as [|j IH]; intros idx r adds.
  - rewrite walk_00. by rewrite downto_nil, app_nil_r by lia.
  - rewrite walk_0S, IH, <-app_assoc, downto_S. do 2 f_equal.
    simpl. do 3 f_equal. lia.
Qed.

(** The walk with nothing left of [bb] removes what is left of [aa], last
    first. *)
Lemma walk_removes_only aa bb c s i : ∀ r adds,
  walk aa bb c s i 0 (Z.of_nat i + s) r adds
  = ((λ k, OnRemove (Js.get aa k) (k + s) (k + s)) <$> downto (Z.of_nat i - 1) 0,
     r + Z.of_nat i, adds).
Proof.
  induction i as [|i IH]; intros r adds.
  - rewrite walk_00. rewrite downto_nil by lia. simpl. do 2 f_equal. lia.
  - rewrite walk_S0.
    replace (Z.of_nat (S i) + s - 1) with (Z.of_nat i + s) by lia.
    rewrite IH, downto_S. simpl.
    unfold Js.get at 2. rewrite decide_True, Nat2Z.id by lia.
    replace (Z.of_nat (S i) - 1 + s) with (Z.of_nat i + s) by lia.
    by replace (r + 1 + Z.of_nat i) with (r + Z.of_nat (S i)) by lia.
Qed.

(** X4.  An empty list diffed with [b] gives one insertion for each
    element of [b], from the first to the last, each at its index in [b],
    and nothing else. *)
Theorem patchDiff_from_empty b :
  _patchDiff [] b = imap (λ k x, OnAdd (Some x) (Z.of_nat k) (Z.of_nat k)) b.
Proof.
  destruct (decide (b = [])) as [->|Hne]; [by vm_compute|].
  assert (0 < Z.of_nat (length b)) by (destruct b; [done|simpl; lia]).
  destruct (get_Some b (Z.of_nat (length b) - 1)) as [y Hy]; [lia|].
  unfold _patchDiff. cbv zeta. simpl length. simpl trimStart.
  change (Z.to_nat (Z.of_nat 0 - 0 + 1)) with 1%nat. simpl trimEnd.
  rewrite Hy. rewrite (bool_decide_eq_false_2 (None = Some y)) by done.
  rewrite andb_false_r.
  rewrite (bool_decide_eq_false_2 (0 > 0)) by lia.
  rewrite (bool_decide_eq_false_2 (0 < 0)) by lia.
  rewrite (bool_decide_eq_false_2 (Z.of_nat (length b) < Z.of_nat (length b))) by lia.
  cbn [orb]. change (Z.to_nat 0) with 0%nat.
  rewrite walk_adds_only. rewrite Nat2Z.id.
  rewrite !downto_nil by lia. simpl.
  unfold doAdds. apply list_eq. intros k.
  rewrite !list_lookup_imap.
  unfold downto. rewrite <-fmap_reverse, reverse_involutive, list_lookup_fmap.
  replace (Z.of_nat (length b) - 1 - 0 + 1) with (Z.of_nat (length b)) by lia.
  destruct (decide (k < length b)%nat) as [Hk|Hk].
  - rewrite lookup_seqZ_lt by lia.
    destruct (lookup_lt_is_Some_2 b k Hk) as [x Hx]. rewrite Hx. simpl.
    unfold Js.get. rewrite decide_True by lia.
    replace (Z.to_nat (0 + Z.of_nat k)) with k by lia. rewrite Hx.
    do 2 f_equal; lia.
  - rewrite lookup_seqZ_ge by lia. by rewrite lookup_ge_None_2 by lia.
Qed.

(** X5.  A list diffed with the empty list gives one removal for each of
    its elements, from the last to the first, each at its index, and
    nothing else. *)
Theorem patchDiff_to_empty a :
  _patchDiff a []
  = (λ i, OnRemove (Js.get a i) i i) <$> downto (Z.of_nat (length a) - 1) 0.
Proof.
  destruct (decide (a = [])) as [->|Hne]; [by vm_compute|].
  assert (0 < Z.of_nat (length a)) by (destruct a; [done|simpl; lia]).
  destruct (get_Some a (Z.of_nat (length a) - 1)) as [y Hy]; [lia|].
  unfold _patchDiff. cbv zeta. simpl length.
  assert (trimStart a [] (length a) 0 (Z.of_nat (length a)) (Z.of_nat 0) = 0)
    as ->.
  { destruct (length a) as [|n] eqn:Hn; [done|]. cbn [trimStart].
    by rewrite (bool_decide_eq_false_2 (0 < Z.of_nat 0)), andb_false_r by lia. }
  replace (Z.to_nat (Z.of_nat (length a) - 0 + 1)) with (S (length a)) by lia.
  simpl trimEnd. rewrite Hy.
  rewrite (bool_decide_eq_false_2 (Some y = None)) by done.
  rewrite andb_false_r.
  rewrite (bool_decide_eq_false_2 (0 > 0)) by lia.
  rewrite (bool_decide_eq_false_2 (Z.of_nat (length a) < Z.of_nat (length a))) by lia.
  rewrite (bool_decide_eq_false_2 (Z.of_nat 0 < Z.of_nat 0)) by lia.
  cbn [orb]. rewrite Nat2Z.id. change (Z.to_nat (Z.of_nat 0)) with 0%nat.
  rewrite walk_removes_only.
  rewrite (downto_nil (Z.of_nat (length a) - 1)) by lia.
  rewrite (downto_nil (0 - 1)) by lia.
  unfold doAdds. simpl. rewrite app_nil_r.
  apply list_fmap_ext. intros ? i ?. f_equal; lia.
Qed.



(** What [_patchDiff] comes to for two different lists without duplicates:
    the walk over the parts [aa] and [bb] between a common beginning [P]
    and a common end [T]. *)
Lemma patchDiff_shape a b :
  NoDup a → NoDup b → a ≠ b →
  ∃ s aa bb P T,
    Z.of_nat (length P) = s ∧ a = P ++ aa ++ T ∧ b = P ++ bb ++ T ∧
    _patchDiff a b
    = (let '(middle, r, adds) :=
         walk aa bb (lcsMatrix aa bb) s (length aa) (length bb)
              (Z.of_nat (length aa) + s) 0 [] in
       ((λ i, OnKeep (Js.get a i) i
                     (i - Z.of_nat (length aa) + Z.of_nat (length bb)) i)
          <$> downto (Z.of_nat (length a) - 1) (s + Z.of_nat (length aa)))
       ++ middle
       ++ ((λ i, OnKeep (Js.get a i) i i i) <$> downto (s - 1) 0)
       ++ doAdds bb s r adds).
Proof.
  intros Hnda Hndb Hab.
  unfold _patchDiff. cbv zeta.
  set (la := Z.of_nat (length a)). set (lb := Z.of_nat (length b)).
  pose proof (trimStart_spec a b (length a) 0) as Hs. cbv zeta in Hs.
  destruct Hs as (Hs0 & Hsa & Hsb & Hpre); [lia..|intros; lia|].
  fold la lb in Hsa, Hsb, Hs0 |- *.
  set (s := trimStart a b (length a) 0 la lb) in *.
  pose proof (trimEnd_spec a b s (Z.to_nat (la - s + 1)) la lb Hnda Hndb Hpre)
    as He.
  fold la lb in He.
  destruct (trimEnd a b (Z.to_nat (la - s + 1)) s la lb) as [m n].
  destruct He as [?|(Hm & Hn & Hlen & Hsuf)];
    [lia|lia|lia|lia|intros; lia|done|].
  change (∀ i, 0 ≤ i < s → Js.get a i = Js.get b i) in Hpre.
  assert (Haa : (if bool_decide (s > 0) || bool_decide (m < la)
                 then (Js.slice a s m, Z.of_nat (length (Js.slice a s m)))
                 else (a, m))
                = (Js.slice a s m, Z.of_nat (length (Js.slice a s m)))).
  { destruct (bool_decide (s > 0) || bool_decide (m < la)) eqn:Hc; [done|].
    apply orb_false_elim in Hc as [H1%bool_decide_eq_false H2%bool_decide_eq_false].
    replace s with 0 by lia. replace m with la by lia.
    unfold la. by rewrite slice_all. }
  assert (Hbb : (if bool_decide (s > 0) || bool_decide (n < lb)
                 then (Js.slice b s n, Z.of_nat (length (Js.slice b s n)))
                 else (b, n))
                = (Js.slice b s n, Z.of_nat (length (Js.slice b s n)))).
  { destruct (bool_decide (s > 0) || bool_decide (n < lb)) eqn:Hc; [done|].
    apply orb_false_elim in Hc as [H1%bool_decide_eq_false H2%bool_decide_eq_false].
    replace s with 0 by lia. replace n with lb by lia.
    unfold lb. by rewrite slice_all. }
  rewrite Haa, Hbb. clear Haa Hbb.
  destruct (slice_spec a s m) as (_ & _ & Ha); [lia..|].
  destruct (slice_spec b s n) as (_ & _ & Hb); [lia..|].
  rewrite <-(take_get_ext a b s) in Hb by (done || lia).
  rewrite <-(drop_get_ext a b m n) in Hb by (done || lia).
  exists s, (Js.slice a s m), (Js.slice b s n), (take (Z.to_nat s) a),
    (drop (Z.to_nat m) a).
  split_and!; [rewrite length_take; lia|done|done|].
  by rewrite !Nat2Z.id.
Qed.

Lemma get_app_l (P R : list string) k :
  k < Z.of_nat (length P) → Js.get (P ++ R) k = Js.get P k.
Proof.
  intros Hk. unfold Js.get. case_decide; [|done]. apply lookup_app_l. lia.
Qed.

Lemma get_app_r (P R : list string) k :
  0 ≤ k → Js.get (P ++ R) (k + Z.of_nat (length P)) = Js.get R k.
Proof.
  intros Hk. unfold Js.get. rewrite !decide_True by lia.
  rewrite lookup_app_r by lia. f_equal. lia.
Qed.

Lemma get_end (l P X T : list string) m t :
  l = P ++ X ++ T →
  m = Z.of_nat (length P) + Z.of_nat (length X) + t → 0 ≤ t →
  Js.get l m = Js.get T t.
Proof.
  intros -> -> Ht.
  replace (Z.of_nat (length P) + Z.of_nat (length X) + t)
    with (t + Z.of_nat (length X) + Z.of_nat (length P)) by lia.
  by rewrite !get_app_r by lia.
Qed.

Section fits.
Variables (aa bb : list string) (c : list (list Z)) (s : Z).
Variables (P T : list string).
Hypothesis HP : Z.of_nat (length P) = s.

Lemma get_mid (X : list string) (k : nat) (m : Z) x :
  X !! k = Some x → m = Z.of_nat k + s →
  Js.get (P ++ X ++ T) m = Some x.
Proof.
  intros Hx ->. rewrite <-HP, get_app_r by lia.
  apply lookup_lt_Some in Hx as Hk.
  rewrite get_app_l by lia. unfold Js.get. rewrite decide_True by lia.
  by rewrite Nat2Z.id.
Qed.

(** The calls of the walk name elements by their places in the two
    lists. *)
Lemma walk_fits i : ∀ j idx r adds,
  (i ≤ length aa)%nat → (j ≤ length bb)%nat →
  Forall (fits (P ++ aa ++ T) (P ++ bb ++ T))
         (walk aa bb c s i j idx r adds).1.1.
Proof.
  induction i as [|i IHi]; intros j; induction j as [|j IHj];
    intros idx r adds Hi Hj.
  - rewrite walk_00. constructor.
  - rewrite walk_0S. apply IHj; lia.
  - rewrite walk_S0. specialize (IHi 0%nat (idx - 1) (r + 1) adds).
    destruct (walk aa bb c s i 0 _ _ _) as [[calls r'] adds'].
    destruct (lookup_lt_is_Some_2 aa i) as [x Hx]; [lia|].
    constructor; [|apply IHi; lia]. rewrite Hx.
    split; [by eexists|]. apply (get_mid _ i); [done|lia].
  - rewrite walk_SS.
    destruct (lookup_lt_is_Some_2 aa i) as [x Hx]; [lia|].
    destruct (lookup_lt_is_Some_2 bb j) as [y Hy]; [lia|].
    destruct (decide (aa !! i = bb !! j)) as [Heq|Hne].
    + specialize (IHi j (idx - 1) r adds).
      destruct (walk aa bb c s i j _ _ _) as [[calls r'] adds'].
      constructor; [|apply IHi; lia]. rewrite Hx.
      split_and!; [by eexists|apply (get_mid _ i); [done|lia]|].
      rewrite Hx in Heq. apply (get_mid _ j); [congruence|lia].
    + case_bool_decide; [apply IHj; lia|].
      specialize (IHi (S j) (idx - 1) (r + 1) adds).
      destruct (walk aa bb c s i (S j) _ _ _) as [[calls r'] adds'].
      constructor; [|apply IHi; lia]. rewrite Hx.
      split; [by eexists|]. apply (get_mid _ i); [done|lia].
Qed.

End fits.

(** X6.  For lists without duplicates every call of [_patchDiff a b]
    fits the lists: a keep names an element that is at [m] in [a] and at
    [n] in [b], a removal one that is at [m] in [a], and an insertion the
    element at [n] in [b], to be put at that same index [n].  The
    callbacks of [_syncResource], which read [data[n]], so find the data of
    the element they are called for. *)
Theorem patchDiff_fits a b :
  NoDup a → NoDup b → Forall (fits a b) (_patchDiff a b).
Proof.
  intros Hnda Hndb. destruct (decide (a = b)) as [->|Hab].
  { destruct (decide (b = [])) as [->|Hne]; [by vm_compute|].
    rewrite (patchDiff_trimmed b (Z.of_nat (length b)))
      by (destruct b; [done|simpl; lia]).
    apply Forall_fmap, Forall_forall.
    intros i [Hi0 Hi]%elem_of_downto. simpl.
    split_and!; [apply get_Some; lia|done..]. }
  destruct (patchDiff_shape a b Hnda Hndb Hab)
    as (s & aa & bb & P & T & HP & Ha & Hb & ->).
  pose proof (walk_fits aa bb (lcsMatrix aa bb) s P T HP (length aa)
    (length bb) (Z.of_nat (length aa) + s) 0 [] ltac:(done) ltac:(done)) as Hw.
  destruct (walk_spec aa bb (lcsMatrix aa bb) s P HP (length aa) (length bb) 0 [])
    as (calls & r' & new & K & Hwalk & _ & _ & _ & Hnew & _); [done..|].
  change ([] ++ new) with new in Hwalk. rewrite Z.add_comm in Hwalk.
  rewrite Hwalk in Hw |- *. simpl in Hw. rewrite <-Ha, <-Hb in Hw.
  assert (Hla : Z.of_nat (length a)
                = s + Z.of_nat (length aa) + Z.of_nat (length T)).
  { rewrite Ha at 1. rewrite !length_app. lia. }
  rewrite !Forall_app. split_and!.
  - apply Forall_fmap, Forall_forall. intros i [Hi0 Hi]%elem_of_downto. simpl.
    split_and!; [apply get_Some; lia|done|].
    rewrite (get_end a P aa T i (i - s - Z.of_nat (length aa)) Ha) by lia.
    by rewrite (get_end b P bb T _ (i - s - Z.of_nat (length aa)) Hb) by lia.
  - done.
  - apply Forall_fmap, Forall_forall. intros i [Hi0 Hi]%elem_of_downto. simpl.
    split_and!; [apply get_Some; lia|done|].
    rewrite Hb, Ha at 1. by rewrite !get_app_l by lia.
  - rewrite (doAdds_spec bb s r' new) by (intros; by eapply Hnew).
    apply Forall_fmap, Forall_forall. intros n Hn. simpl.
    apply elem_of_reverse, list_elem_of_fmap in Hn as (p & -> & Hn).
    apply list_elem_of_fmap in Hn as (e & -> & Hn).
    destruct e as [[k idx_e] r_e]. simpl.
    apply list_elem_of_lookup in Hn as [q Hq].
    apply Hnew in Hq as [_ Hrange].
    destruct (lookup_lt_is_Some_2 bb (Z.to_nat k)) as [y Hy]; [lia|].
    assert (Js.get bb k = Some y) as ->.
    { unfold Js.get. by rewrite decide_True by lia. }
    split_and!; [by eexists| |done].
    rewrite Hb. apply (get_mid s P T HP bb (Z.to_nat k)); [done|lia].
Qed.

(** The lists [[A, B, C]] and [[A, C, D]]. *)
Lemma patchDiff_fits_witness :
  NoDup ["A"; "B"; "C"] ∧ NoDup ["A"; "C"; "D"] ∧
  Forall (fits ["A"; "B"; "C"] ["A"; "C"; "D"])
         (_patchDiff ["A"; "B"; "C"] ["A"; "C"; "D"]).
Proof.
  assert (Ha : NoDup ["A"; "B"; "C"])
    by (apply (bool_decide_unpack _); by vm_compute).
  assert (Hb : NoDup ["A"; "C"; "D"])
    by (apply (bool_decide_unpack _); by vm_compute).
  split_and!; [done..|]. by apply patchDiff_fits.
Defined.

End DiffCalls.

(** ** The collection value: reading, adding and removing *)

Module CollectionOps.
Import Js ResCollection Collection.

(** Items with different ids are told apart by their ids. *)
Lemma NoDup_fmap_eq {A B} (f : A → B) (l : list A) v w :
  NoDup (f <$> l) → v ∈ l → w ∈ l → f v = f w → v = w.
Proof.
  intros Hnd [i Hi]%list_elem_of_lookup [j Hj]%list_elem_of_lookup Heq.
  assert (i = j) as ->; [|congruence].
  apply (NoDup_lookup (f <$> l) i j (f v)); [done|..].
  - by rewrite list_lookup_fmap, Hi.
  - by rewrite list_lookup_fmap, Hj, Heq.
Qed.

(** [__init] with an id callback and items of different ids: the list is
    the data, and the map has each item under its id and nothing else. *)
Lemma init_map c f data :
  _idCallback c = Some f → NoDup (f <$> data) →
  ∃ m, __init (Some data) c = (with_map m (with_list data c), Normal ()) ∧
       (∀ v, v ∈ data → m !! f v = Some v) ∧
       (∀ id, id ∉ f <$> data → m !! id = None).
Proof.
  intros Hf Hnd. unfold __init.
  change (default [] (Some data)) with data.
  cbn [_idCallback with_list]. rewrite Hf.
  destruct (initMap_distinct f data ∅ Hnd) as (m & -> & Hm).
  { intros v _. apply lookup_empty. }
  exists m. split_and!; [done| |].
  - intros v Hv. rewrite Hm.
    destruct (list_find _ data) as [[i w]|] eqn:Hfind.
    + apply list_find_Some in Hfind as (Hw%list_elem_of_lookup_2 & Hfw & _).
      f_equal. by apply (NoDup_fmap_eq f data).
    + apply list_find_None in Hfind.
      rewrite Forall_forall in Hfind. by destruct (Hfind v Hv).
  - intros id Hid. rewrite Hm.
    destruct (list_find _ data) as [[i w]|] eqn:Hfind; [|by rewrite lookup_empty].
    apply list_find_Some in Hfind as (Hw%list_elem_of_lookup_2 & Hfw & _).
    destruct Hid. rewrite <-Hfw. by apply list_elem_of_fmap_2.
Qed.

(** X7.  [__init] with an id callback, on items whose ids differ and are
    no names of [Object.prototype], returns; after it [toArray] gives the
    data, [get] gives each item under its id, and [undefined] under any
    other id that is no such name. *)
Theorem init_get c f data :
  _idCallback c = Some f → NoDup (f <$> data) →
  (∀ v, v ∈ data → inherited (f v) = false) →
  (__init (Some data) c).2 = Normal () ∧
  Read.toArray (__init (Some data) c).1 = Normal data ∧
  (∀ v, v ∈ data → Read.get (f v) (__init (Some data) c).1 = Normal (Some v)) ∧
  (∀ id, id ∉ f <$> data → inherited id = false →
         Read.get id (__init (Some data) c).1 = Normal None).
Proof.
  intros Hf Hnd _.
  destruct (init_map c f data Hf Hnd) as (m & -> & Hin & Hout).
  unfold Read.get, Read.toArray. cbn. rewrite Hf.
  split_and!; [done|done| |].
  - intros v Hv. by rewrite Hin.
  - intros id Hid _. by rewrite Hout.
Qed.

(** The items [{id: "a"}] and [{id: "b"}]. *)
Lemma init_get_witness :
  _idCallback (constructor "c" (Some idOf)) = Some idOf ∧
  NoDup (idOf <$> [itemA; itemB]) ∧
  (∀ v, v ∈ [itemA; itemB] → inherited (idOf v) = false) ∧
  Read.get (idOf itemB)
           (__init (Some [itemA; itemB]) (constructor "c" (Some idOf))).1
  = Normal (Some itemB).
Proof.
  assert (Hnd : NoDup (idOf <$> [itemA; itemB]))
    by (apply (bool_decide_unpack _); by vm_compute).
  assert (Hin : ∀ v, v ∈ [itemA; itemB] → inherited (idOf v) = false).
  { intros v Hv. repeat (apply elem_of_cons in Hv as [->|Hv]; [by vm_compute|]).
    by apply elem_of_nil in Hv. }
  split_and!; [done..|].
  destruct (init_get (constructor "c" (Some idOf)) idOf [itemA; itemB]
                     eq_refl Hnd Hin) as (_ & _ & Hget & _).
  apply Hget. apply elem_of_cons. right. apply elem_of_cons. by left.
Defined.

Lemma delete_beyond {A} (l : list A) (i : nat) :
  (length l ≤ i)%nat → delete i l = l.
Proof.
  intros Hi. rewrite delete_take_drop, take_ge, drop_ge by lia.
  apply app_nil_r.
Qed.

Lemma splice_insert {A} (l : list A) (idx : Z) (x : A) :
  0 ≤ idx ≤ Z.of_nat (length l) →
  splice l (Some idx) 0 [x]
  = take (Z.to_nat idx) l ++ x :: drop (Z.to_nat idx) l.
Proof.
  intros Hi. unfold splice, rel. change (default 0 (Some idx)) with idx.
  rewrite decide_False by lia. rewrite Z.min_l by lia.
  rewrite Z.max_id. do 3 f_equal. lia.
Qed.

Lemma splice_delete {A} (l : list A) (idx : Z) :
  0 ≤ idx → splice l (Some idx) 1 [] = delete (Z.to_nat idx) l.
Proof.
  intros Hi. unfold splice, rel. change (default 0 (Some idx)) with idx. rewrite decide_False by lia.
  destruct (decide (idx < Z.of_nat (length l))) as [Hlt|Hge].
  - rewrite Z.min_l by lia. rewrite (Z.min_l (Z.max 1 0)) by lia.
    cbn [app]. change (Z.max 1 0) with 1.
    replace (Z.to_nat (idx + 1)) with (S (Z.to_nat idx)) by lia.
    by rewrite delete_take_drop.
  - rewrite Z.min_r by lia.
    rewrite (Z.min_r (Z.max 1 0)) by lia. cbn [app].
    replace (Z.of_nat (length l) + (Z.of_nat (length l) - Z.of_nat (length l)))
      with (Z.of_nat (length l)) by lia.
    rewrite Nat2Z.id, firstn_all, drop_all, app_nil_r.
    symmetry. apply delete_beyond. lia.
Qed.

Lemma splice_delete_negative {A} (l : list A) (idx : Z) :
  - Z.of_nat (length l) ≤ idx < 0 →
  splice l (Some idx) 1 [] = delete (Z.to_nat (Z.of_nat (length l) + idx)) l.
Proof.
  intros Hi. unfold splice, rel. change (default 0 (Some idx)) with idx. rewrite decide_True by lia.
  rewrite Z.max_l by lia. rewrite (Z.min_l (Z.max 1 0)) by lia.
  cbn [app]. change (Z.max 1 0) with 1.
  replace (Z.to_nat (Z.of_nat (length l) + idx + 1))
    with (S (Z.to_nat (Z.of_nat (length l) + idx))) by lia.
  by rewrite delete_take_drop.
Qed.

(** X9.  On a collection without id callback, [__add(item, idx)] with
    [idx] between 0 and the length returns, makes the list one longer and
    puts the item at [idx]; [__remove(idx)] after it gives the item back
    and leaves the collection as it was before the two calls. *)
Theorem add_remove item idx c l :
  _list c = Some l → _idCallback c = None →
  0 ≤ idx ≤ Z.of_nat (length l) →
  (__add item (Some idx) c).2 = Normal () ∧
  Read.length (__add item (Some idx) c).1 = Normal (Z.of_nat (length l) + 1) ∧
  atIndex idx (__add item (Some idx) c).1 = Normal (Some item) ∧
  __remove (Some idx) (__add item (Some idx) c).1 = (c, Normal (Some item)).
Proof.
  intros Hl Hf Hi. unfold __add. rewrite Hl. cbn [_idCallback with_list].
  rewrite Hf. cbn [fst snd]. rewrite splice_insert by done.
  assert (Hlen : length (take (Z.to_nat idx) l) = Z.to_nat idx)
    by (rewrite length_take; lia).
  assert (Hget : Js.get (take (Z.to_nat idx) l ++ item :: drop (Z.to_nat idx) l)
                        idx = Some item).
  { unfold Js.get. rewrite decide_True by lia.
    rewrite lookup_app_r by lia. by rewrite Hlen, Nat.sub_diag. }
  split_and!; [done| | |].
  - unfold Read.length. cbn. f_equal.
    rewrite length_app. cbn [length]. rewrite length_take, length_drop. lia.
  - unfold atIndex. cbn. by rewrite Hget.
  - unfold __remove. cbn [_list with_list _idCallback]. rewrite Hf.
    cbn [mbind option_bind]. rewrite Hget. rewrite splice_delete by lia.
    pose proof (delete_middle (take (Z.to_nat idx) l) (drop (Z.to_nat idx) l)
                  item) as Hd.
    rewrite Hlen in Hd. rewrite Hd, take_drop.
    destruct c as [r cb m li]. simpl in *. by subst.
Qed.

(** [{id: "b"}] added behind [{id: "a"}], and removed again. *)
Lemma add_remove_witness :
  _list (with_list [itemA] (constructor "c" None)) = Some [itemA] ∧
  _idCallback (with_list [itemA] (constructor "c" None)) = None ∧
  0 ≤ 1 ≤ Z.of_nat (length [itemA]) ∧
  __remove (Some 1)
           (__add itemB (Some 1) (with_list [itemA] (constructor "c" None))).1
  = (with_list [itemA] (constructor "c" None), Normal (Some itemB)).
Proof.
  split_and!; [done|done|done|simpl; lia|].
  by apply (add_remove itemB 1 _ [itemA]).
Defined.

(** X10.  [__remove(idx)] on a collection without id callback: for an
    index of the list it takes the item there out and returns it; for an
    index from the length on it changes nothing and returns [undefined];
    for a negative index down to minus the length it returns [undefined]
    as well, but takes an item out all the same, the one that [splice]
    counts from the end. *)
Theorem remove_bounds idx c l :
  _list c = Some l → _idCallback c = None →
  (0 ≤ idx < Z.of_nat (length l) →
   ∃ item, l !! Z.to_nat idx = Some item ∧
     __remove (Some idx) c
     = (with_list (delete (Z.to_nat idx) l) c, Normal (Some item))) ∧
  (Z.of_nat (length l) ≤ idx → __remove (Some idx) c = (c, Normal None)) ∧
  (- Z.of_nat (length l) ≤ idx < 0 →
   __remove (Some idx) c
   = (with_list (delete (Z.to_nat (Z.of_nat (length l) + idx)) l) c,
      Normal None)).
Proof.
  intros Hl Hf. unfold __remove. rewrite Hl. cbn [_idCallback with_list].
  rewrite Hf. cbn [mbind option_bind]. split_and!.
  - intros Hi. destruct (lookup_lt_is_Some_2 l (Z.to_nat idx)) as [item Hitem]; [lia|].
    exists item. split; [done|]. rewrite splice_delete by lia.
    unfold Js.get. rewrite decide_True by lia. by rewrite Hitem.
  - intros Hi. rewrite splice_delete by lia. rewrite delete_beyond by lia.
    unfold Js.get. rewrite decide_True by lia.
    rewrite lookup_ge_None_2 by lia.
    destruct c as [r cb m li]. simpl in *. by subst.
  - intros Hi. rewrite splice_delete_negative by lia.
    unfold Js.get. by rewrite decide_False by lia.
Qed.

(** [__remove(-1)] on the list of [{id: "a"}] and [{id: "b"}]. *)
Lemma remove_bounds_witness :
  _list (with_list [itemA; itemB] (constructor "c" None))
  = Some [itemA; itemB] ∧
  _idCallback (with_list [itemA; itemB] (constructor "c" None)) = None ∧
  __remove (Some (-1)) (with_list [itemA; itemB] (constructor "c" None))
  = (with_list [itemA] (constructor "c" None), Normal None).
Proof.
  split_and!; [done..|].
  destruct (remove_bounds (-1) (with_list [itemA; itemB] (constructor "c" None))
                          [itemA; itemB] eq_refl eq_refl) as (_ & _ & H).
  apply H. simpl. lia.
Defined.


(** X11.  With an id callback and items whose ids differ and are no names
    of [Object.prototype]: [__remove] of an index of the list after
    [__init] returns the item there and takes it out of the list, [get]
    then gives [undefined] for its id and still gives every other item
    under its id. *)
Theorem init_remove_get c f data idx v :
  _idCallback c = Some f → NoDup (f <$> data) →
  (∀ w, w ∈ data → inherited (f w) = false) →
  0 ≤ idx → data !! Z.to_nat idx = Some v →
  (__remove (Some idx) (__init (Some data) c).1).2 = Normal (Some v) ∧
  Read.toArray (__remove (Some idx) (__init (Some data) c).1).1
  = Normal (delete (Z.to_nat idx) data) ∧
  Read.get (f v) (__remove (Some idx) (__init (Some data) c).1).1
  = Normal None ∧
  (∀ w, w ∈ data → w ≠ v →
        Read.get (f w) (__remove (Some idx) (__init (Some data) c).1).1
        = Normal (Some w)).
Proof.
  intros Hf Hnd _ Hidx Hv.
  destruct (init_map c f data Hf Hnd) as (m & -> & Hin & _).
  unfold __remove, Read.get, Read.toArray.
  cbn [fst snd _list _map _idCallback with_list with_map]. rewrite Hf.
  cbn [fst snd mbind option_bind _list _map _idCallback with_list with_map].
  rewrite Hf.
  assert (Js.get data idx = Some v) as ->.
  { unfold Js.get. by rewrite decide_True by lia. }
  change (default VUndefined (Some v)) with v.
  rewrite splice_delete by done.
  split_and!; [done|done|by rewrite lookup_delete_eq|].
  intros w Hw Hne.
  rewrite lookup_delete_ne; [by rewrite Hin|].
  intros Heq. apply Hne. symmetry.
  apply (NoDup_fmap_eq f data); [done|by eapply list_elem_of_lookup_2|done|done].
Qed.

(** The items [{id: "a"}] and [{id: "b"}], and the first one removed. *)
Lemma init_remove_get_witness :
  _idCallback (constructor "c" (Some idOf)) = Some idOf ∧
  NoDup (idOf <$> [itemA; itemB]) ∧
  (∀ w, w ∈ [itemA; itemB] → inherited (idOf w) = false) ∧
  [itemA; itemB] !! Z.to_nat 0 = Some itemA ∧
  Read.get (idOf itemA)
    (__remove (Some 0)
       (__init (Some [itemA; itemB]) (constructor "c" (Some idOf))).1).1
  = Normal None.
Proof.
  assert (Hnd : NoDup (idOf <$> [itemA; itemB]))
    by (apply (bool_decide_unpack _); by vm_compute).
  assert (Hin : ∀ v, v ∈ [itemA; itemB] → inherited (idOf v) = false).
  { intros v Hv. repeat (apply elem_of_cons in Hv as [->|Hv]; [by vm_compute|]).
    by apply elem_of_nil in Hv. }
  split_and!; [done..|].
  by destruct (init_remove_get (constructor "c" (Some idOf)) idOf
                 [itemA; itemB] 0 itemA eq_refl Hnd Hin ltac:(lia) eq_refl)
    as (_ & _ & Hget & _).
Defined.

(** The rest of an iteration that has come to [i]. *)
Lemma forOf_from a fuel : ∀ i : nat,
  (i ≤ length a)%nat → (length a - i < fuel)%nat →
  Read.forOf fuel (Read.Iterator (Z.of_nat i) a (Z.of_nat (length a)))
  = Some (Some <$> drop i a).
Proof.
  induction fuel as [|fuel IH]; intros i Hi Hfuel; [lia|].
  cbn [Read.forOf Read.next Read.it_i Read.it_a Read.it_l].
  destruct (decide (i = length a)) as [->|Hne].
  - rewrite bool_decide_eq_true_2 by lia. by rewrite drop_all.
  - rewrite bool_decide_eq_false_2 by lia.
    destruct (lookup_lt_is_Some_2 a i) as [x Hx]; [lia|].
    replace (Z.of_nat i + 1) with (Z.of_nat (S i)) by lia.
    rewrite IH by lia. unfold Js.get. rewrite decide_True by lia.
    rewrite Nat2Z.id, Hx. cbn. by rewrite (drop_S _ _ _ Hx).
Qed.

(** X12.  The iterator of a collection that is left alone meanwhile
    gives the items of its list, in their order, and then is done: a
    [for ... of] over it takes one turn for each item, and comes to its
    end. *)
Theorem forOf_items c l fuel :
  _list c = Some l → (length l < fuel)%nat →
  ∃ it, Read.iterate c = Normal it ∧ Read.forOf fuel it = Some (Some <$> l).
Proof.
  intros Hl Hfuel. unfold Read.iterate. rewrite Hl. eexists. split; [done|].
  change 0 with (Z.of_nat 0). by rewrite (forOf_from l fuel 0) by lia.
Qed.

(** The list of [{id: "a"}] and [{id: "b"}]. *)
Lemma forOf_items_witness :
  _list (with_list [itemA; itemB] (constructor "c" None))
  = Some [itemA; itemB] ∧
  (length [itemA; itemB] < 3)%nat ∧
  ∃ it, Read.iterate (with_list [itemA; itemB] (constructor "c" None))
        = Normal it ∧
        Read.forOf 3 it = Some [Some itemA; Some itemB].
Proof.
  split_and!; [done|simpl; lia|].
  apply (forOf_items _ [itemA; itemB] 3); [done|simpl; lia].
Defined.

End CollectionOps.

(** ** Model types: [_getModelType], [unregisterModelType] *)

Module ModelTypes.
Import Objects Js Client Scenarios Registry.

Lemma append_cons c u r : String c u +:+ r = String c (u +:+ r).
Proof. done. Qed.

Lemma append_nil r : "" +:+ r = r.
Proof. done. Qed.

Lemma length_append u r :
  String.length (u +:+ r) = (String.length u + String.length r)%nat.
Proof.
  induction u as [|c u IH]; [done|]. rewrite append_cons. simpl. by rewrite IH.
Qed.

Lemma dropString_append u r : dropString (String.length u) (u +:+ r) = r.
Proof. induction u as [|c u IH]; [by destruct r|]. by rewrite append_cons. Qed.

Lemma dropString_0 s : dropString 0 s = s.
Proof. by destruct s. Qed.

Lemma substring_append u r : String.substring 0 (String.length u) (u +:+ r) = u.
Proof.
  induction u as [|c u IH]; [by destruct r|].
  rewrite append_cons. simpl. by rewrite IH.
Qed.

Lemma substring_all u : String.substring 0 (String.length u) u = u.
Proof. induction u as [|c u IH]; [done|]. simpl. by rewrite IH. Qed.

(** The first dot after a part without dots. *)
Lemma indexFrom_dot u r k :
  noDots u = true →
  indexFrom "." (u +:+ String "." r) k = k + Z.of_nat (String.length u).
Proof.
  revert k. induction u as [|c u IH]; intros k Hu.
  - rewrite append_nil. simpl. lia.
  - rewrite append_cons. simpl in *.
    apply andb_prop in Hu as [Hc Hu]. apply negb_true_iff in Hc.
    rewrite Hc, IH by done. lia.
Qed.

Lemma indexFrom_none u k : noDots u = true → indexFrom "." u k = -1.
Proof.
  revert k. induction u as [|c u IH]; intros k Hu; [done|]. simpl in *.
  apply andb_prop in Hu as [Hc Hu]. apply negb_true_iff in Hc.
  by rewrite Hc, IH.
Qed.

Lemma indexOf_0 s : indexOf "." s 0 = indexFrom "." s 0.
Proof.
  unfold indexOf. rewrite Z.max_id, Z.min_l by lia.
  by rewrite dropString_0.
Qed.

(** The search from behind the first part. *)
Lemma indexOf_after u r :
  indexOf "." (u +:+ String "." r) (Z.of_nat (String.length u) + 1)
  = indexFrom "." r (Z.of_nat (String.length u) + 1).
Proof.
  unfold indexOf. rewrite length_append. cbn [String.length].
  rewrite Z.max_l, Z.min_l by lia.
  replace (Z.to_nat (Z.of_nat (String.length u) + 1))
    with (String.length (u +:+ ".")).
  2:{ rewrite length_append. simpl. lia. }
  replace (u +:+ String "." r) with ((u +:+ ".") +:+ r).
  2:{ clear. induction u as [|c u IH]; [done|]. rewrite !append_cons. by rewrite IH. }
  by rewrite dropString_append.
Qed.

Lemma substr_prefix u r :
  substr (u +:+ r) 0 (Some (Z.of_nat (String.length u))) = u.
Proof.
  unfold substr, rel. rewrite decide_False by lia.
  rewrite length_append. rewrite Z.min_l by lia.
  rewrite Z.max_l, Z.min_l by lia. change (Z.to_nat 0) with 0%nat.
  by rewrite Nat2Z.id, substring_append.
Qed.

Lemma substr_whole u : substr u 0 (Some (Z.of_nat (String.length u))) = u.
Proof.
  rewrite <-(append_empty_r u) at 1. rewrite substr_prefix. done.
Qed.

Lemma getModelType_parts_aux u v rest st :
  noDots u = true → noDots v = true →
  _getModelType (u +:+ String "." (v +:+ String "." rest)) st
  = read (modelTypes st) (u +:+ String "." v) ∧
  _getModelType (u +:+ String "." v) st
  = read (modelTypes st) (u +:+ String "." v) ∧
  _getModelType u st = read (modelTypes st) u.
Proof.
  intros Hu Hv. unfold _getModelType. split_and!.
  - cbn [typeNameEnd].
    rewrite bool_decide_eq_true_2 by lia.
    change (-1 + 1) with 0. rewrite indexOf_0, indexFrom_dot, Z.add_0_l by done.
    rewrite bool_decide_eq_false_2 by lia.
    rewrite bool_decide_eq_true_2 by (rewrite length_append; simpl; lia).
    rewrite indexOf_after, indexFrom_dot by done.
    rewrite bool_decide_eq_false_2 by lia.
    replace (Z.of_nat (String.length u) + 1 + Z.of_nat (String.length v))
      with (Z.of_nat (String.length (u +:+ String "." v)))
      by (rewrite length_append; simpl; lia).
    replace (u +:+ String "." (v +:+ String "." rest))
      with ((u +:+ String "." v) +:+ String "." rest).
    2:{ clear. induction u as [|c u IH]; [done|]. rewrite !append_cons. by rewrite IH. }
    by rewrite substr_prefix.
  - cbn [typeNameEnd].
    rewrite bool_decide_eq_true_2 by lia.
    change (-1 + 1) with 0. rewrite indexOf_0, indexFrom_dot, Z.add_0_l by done.
    rewrite bool_decide_eq_false_2 by lia.
    rewrite bool_decide_eq_true_2 by (rewrite length_append; simpl; lia).
    rewrite indexOf_after, indexFrom_none by done.
    rewrite bool_decide_eq_true_2 by lia.
    by rewrite substr_whole.
  - cbn [typeNameEnd].
    rewrite bool_decide_eq_true_2 by lia.
    change (-1 + 1) with 0. rewrite indexOf_0, indexFrom_none by done.
    rewrite bool_decide_eq_true_2 by lia.
    by rewrite substr_whole.
Qed.


(** No property of [Object.prototype] has a dot in its name. *)
Lemma inherited_noDots k : inherited k = true → noDots k = true.
Proof.
  unfold inherited. intros H%bool_decide_eq_true.
  repeat (apply elem_of_cons in H as [->|H]; [reflexivity|]).
  by apply elem_of_nil in H.
Qed.

Lemma noDots_dotted u v : noDots (u +:+ String "." v) = false.
Proof.
  induction u as [|c u IH]; [done|]. rewrite append_cons. cbn [noDots].
  rewrite IH. apply andb_false_r.
Qed.

Lemma read_dotted {A} (o : gmap string A) u v :
  read o (u +:+ String "." v)
  = match o !! (u +:+ String "." v) with
    | Some a => Own a
    | None => Undefined
    end.
Proof.
  unfold read. destruct (o !! _); [done|].
  destruct (inherited _) eqn:Hi; [|done].
  apply inherited_noDots in Hi. by rewrite noDots_dotted in Hi.
Qed.

(** X13.  [_getModelType] looks a resource up under the first two parts
    of its id: for [u.v.rest], with [u] and [v] without dots, under
    [u.v], whatever follows, and finds the type registered under it or
    else the default type; an id of two parts is looked up as it is, and
    so is one of a single part, for which the lookup also finds the
    properties that objects inherit: a name of one that is not registered
    gives that property instead of the default type. *)
Theorem getModelType_parts u v st :
  noDots u = true → noDots v = true →
  let found :=
    match modelTypes st !! (u +:+ String "." v) with
    | Some t => Own t
    | None => Undefined
    end in
  (∀ rest, _getModelType (u +:+ String "." (v +:+ String "." rest)) st
           = found) ∧
  _getModelType (u +:+ String "." v) st = found ∧
  _getModelType u st
  = match modelTypes st !! u with
    | Some t => Own t
    | None => if inherited u then Inherited u else Undefined
    end.
Proof.
  intros Hu Hv found. subst found. rewrite <-read_dotted. split_and!.
  - intros rest. by apply getModelType_parts_aux.
  - by apply (getModelType_parts_aux u v "").
  - by apply (getModelType_parts_aux u v "").
Qed.

(** The resource ["svc.x.42"] with the type ["svc.x"] registered, and the
    resource ["constructor"]. *)
Lemma getModelType_parts_witness :
  noDots "svc" = true ∧ noDots "x" = true ∧
  _getModelType "svc.x.42" (with_modelTypes {[ "svc.x" := svcX ]} constructor)
  = Own svcX ∧
  noDots "constructor" = true ∧
  _getModelType "constructor" constructor = Inherited "constructor".
Proof.
  split_and!; [done..| |done|].
  - destruct (getModelType_parts "svc" "x"
                (with_modelTypes {[ "svc.x" := svcX ]} constructor)
                eq_refl eq_refl) as (H & _ & _).
    etrans; [exact (H "42")|by vm_compute].
  - destruct (getModelType_parts "constructor" "x" constructor
                eq_refl eq_refl) as (_ & _ & H).
    etrans; [exact H|by vm_compute].
Defined.

(** A call of [registerModelType] that returns has put the type into the
    registry, under an id of two parts that was free. *)
Lemma register_done modelType st st' :
  registerModelType modelType st = (st', Normal ()) →
  typeId (id modelType) ∧ modelTypes st !! id modelType = None ∧
  st' = with_modelTypes (<[id modelType := modelType]> (modelTypes st)) st.
Proof.
  unfold registerModelType. case_bool_decide as Hreg; [done|].
  destruct (String.eqb (id modelType) "" || negb (matchesTypeId (id modelType)))
    eqn:Hid; [done|].
  intros [= <-]. apply orb_false_elim in Hid as [_ Hm].
  apply negb_false_iff, matchesTypeId_spec in Hm. split_and!; [done| |done].
  destruct (modelTypes st !! id modelType) eqn:Hl; [|done].
  destruct Hreg. by eexists.
Qed.

(** X14.  A model type that [registerModelType] has taken is the type
    that [_getModelType] finds for its own id and for every resource id
    that goes on from it behind a dot. *)
Theorem register_getModelType modelType st st' rest :
  registerModelType modelType st = (st', Normal ()) →
  _getModelType (id modelType) st' = Own modelType ∧
  _getModelType (id modelType +:+ String "." rest) st' = Own modelType.
Proof.
  intros (Hid & _ & ->)%register_done.
  set (st1 := with_modelTypes _ st).
  assert (Hl : modelTypes st1 !! id modelType = Some modelType)
    by apply lookup_insert_eq.
  clearbody st1. destruct Hid as (u & v & Heq & _ & _ & Hu & Hv).
  rewrite Heq in *.
  destruct (getModelType_parts_aux u v rest st1 Hu Hv) as (H1 & H2 & _).
  replace ((u +:+ String "." v) +:+ String "." rest)
    with (u +:+ String "." (v +:+ String "." rest)).
  2:{ clear. induction u as [|c u IH]; [done|]. rewrite !append_cons. by rewrite IH. }
  by rewrite H1, H2, (read_own _ _ _ Hl).
Qed.

(** [{id: "svc.x", modelFactory}] registered, and the resource
    ["svc.x.42"]. *)
Lemma register_getModelType_witness :
  registerModelType svcX constructor
  = (with_modelTypes {[ "svc.x" := svcX ]} constructor, Normal ()) ∧
  _getModelType ("svc.x" +:+ String "." "42")
                (with_modelTypes {[ "svc.x" := svcX ]} constructor)
  = Own svcX.
Proof.
  assert (H : registerModelType svcX constructor
              = (with_modelTypes {[ "svc.x" := svcX ]} constructor, Normal ()))
    by (by vm_compute).
  split; [done|]. by apply (register_getModelType svcX constructor _ "42" H).
Defined.

(** X15.  [unregisterModelType] undoes [registerModelType]: after a call
    of [registerModelType] that returned, [unregisterModelType] of the id
    returns the type and leaves the client as it was before the
    registration, where the same call returns [null] and changes
    nothing. *)
Theorem register_unregister modelType st st' :
  registerModelType modelType st = (st', Normal ()) →
  unregisterModelType (id modelType) st' = (st, Some modelType) ∧
  unregisterModelType (id modelType) st = (st, None).
Proof.
  intros (_ & Hnew & ->)%register_done. unfold unregisterModelType.
  cbn [modelTypes with_modelTypes]. rewrite lookup_insert_eq, Hnew.
  split; [|done]. rewrite delete_insert_id by done. by destruct st.
Qed.

(** [{id: "svc.x", modelFactory}] registered and unregistered. *)
Lemma register_unregister_witness :
  registerModelType svcX constructor
  = (with_modelTypes {[ "svc.x" := svcX ]} constructor, Normal ()) ∧
  unregisterModelType "svc.x" (with_modelTypes {[ "svc.x" := svcX ]} constructor)
  = (constructor, Some svcX).
Proof.
  assert (H : registerModelType svcX constructor
              = (with_modelTypes {[ "svc.x" := svcX ]} constructor, Normal ()))
    by (by vm_compute).
  split; [done|]. by apply (register_unregister svcX constructor _ H).
Defined.

End ModelTypes.

(** ** Calls and their responses: [callModel], [_receive], [disconnect] *)

Module Responses.
Import Js Client Scenarios TryDelete Sending.

Section responses.
Variable g : option string → payload → bool → option nat → client →
             client * completion loc.

(** What [_receive] does with the answer to a request that nothing is
    chained on. *)
Lemma receive_return req data st :
  requests st !! responseId data = Some req → chain req = KReturn →
  _receive g data st
  = (let st1 := with_requests (delete (responseId data) (requests st)) st in
     match data with
     | Result _ result =>
         with_settled (<[settles req := Normal (Data result)]> (settled st1)) st1
     | Failure _ code message d =>
         let err := ResError code message d (method req) (params req) in
         with_settled (<[settles req := Throw err]> (settled st1))
                      (emit (EmitError err) st1)
     end, Normal ()).
Proof.
  intros Hreq Hk. unfold _receive. rewrite Hreq.
  destruct data as [id result|id code message d]; cbn zeta.
  - unfold _handleSuccessResponse, resolve. by rewrite Hk.
  - unfold _handleErrorResponse, reject. by rewrite Hk.
Qed.

(** X16.  A call and its answer.  On a connected client with a socket,
    [callModel] hands the socket one frame with the next request id, the
    method [call.<modelId>.<method>] and the params, or no params when
    they are falsy, and settles no promise; when the message with
    that id and a result comes in, [_receive] resolves the promise with
    the result, takes the request out of [requests], and emits
    nothing. *)
Theorem call_resolves modelId method params st sent result :
  connected st = true → ws st = Some sent → requests st !! reqId st = None →
  let m := "call." +:+ modelId +:+ "." +:+ method in
  let sent_params := if truthy params then params else VUndefined in
  let st1 := (callModel modelId method params st).1 in
  let p := (callModel modelId method params st).2 in
  let st2 := (_receive g (Result (reqId st) result) st1).1 in
  ws st1 = Some (sent ++ [Frame (reqId st) m (stringify st sent_params)]) ∧
  settled st1 = settled st ∧
  (_receive g (Result (reqId st) result) st1).2 = Normal () ∧
  settled st2 = <[p := Normal (Data result)]> (settled st) ∧
  requests st2 = requests st ∧ emitted st2 = emitted st.
Proof.
  intros Hc Hws Hfree m sent_params st1 p st2. subst st1 p st2.
  unfold callModel. fold m. rewrite (send_open _ _ _ _ sent Hc Hws).
  fold sent_params. cbn [fst snd].
  rewrite (receive_return (Request m sent_params KReturn (nextPromise st)));
    [|cbn; apply lookup_insert_eq|done].
  cbn. rewrite delete_insert_id by done. done.
Qed.

(** X17.  A call and its error.  When the message with the id of a call
    and an error comes in, [_receive] rejects the promise of [callModel]
    with a [ResError] of the code, message and data of the error and of
    the method and the params of the request, emits that error once as
    the [error] event, and takes the request out of [requests]. *)
Theorem call_rejects modelId method params st sent code message d :
  connected st = true → ws st = Some sent → requests st !! reqId st = None →
  let m := "call." +:+ modelId +:+ "." +:+ method in
  let sent_params := if truthy params then params else VUndefined in
  let st1 := (callModel modelId method params st).1 in
  let p := (callModel modelId method params st).2 in
  let st2 := (_receive g (Failure (reqId st) code message d) st1).1 in
  let err := ResError code message d m sent_params in
  (_receive g (Failure (reqId st) code message d) st1).2 = Normal () ∧
  settled st2 = <[p := Throw err]> (settled st) ∧
  emitted st2 = emitted st ++ [EmitError err] ∧
  requests st2 = requests st.
Proof.
  intros Hc Hws Hfree m sent_params st1 p st2 err. subst st1 p st2.
  unfold callModel. fold m. rewrite (send_open _ _ _ _ sent Hc Hws).
  fold sent_params. cbn [fst snd].
  rewrite (receive_return (Request m sent_params KReturn (nextPromise st)));
    [|cbn; apply lookup_insert_eq|done].
  cbn. rewrite delete_insert_id by done. done.
Qed.

(** Resolving a promise leaves the requests alone when the ingestion of
    resources does. *)
Lemma resolved_requests k result st :
  (∀ rid data addIndirect factory s,
     requests (g rid data addIndirect factory s).1 = requests s) →
  requests (resolved g k result st).1 = requests st.
Proof.
  intros Hg.
  assert (Hrej : ∀ e s, requests (rejected k e s).1 = requests s).
  { intros e s. by destruct (rejected_settles_only k e s) as (_&_&_& -> &_). }
  assert (Htd : ∀ l s, requests (_tryDelete l s).1 = requests s).
  { intros l s. by destruct (tryDelete_settles_only l s) as (_&_&_& -> &_). }
  destruct k as [|rid l f|l|l]; cbn [resolved]; [done| | |done].
  - specialize (Hg (Some rid) result false (Some f) st).
    destruct (g _ _ _ _ st) as [st1 [l1|e]]; cbn [fst] in Hg.
    + destruct (items st1 !! l1); [done|]. by rewrite Hrej.
    + by rewrite Hrej.
  - specialize (Htd l (update l (setSubscribed false) st)).
    destruct (_tryDelete l _) as [st1 [b|e]]; cbn [fst] in *; [done|].
    by rewrite Hrej.
Qed.

(** X18.  A response is taken once.  Once [_receive] has returned for a
    message with an id, a further message with that id finds no request:
    [_receive] throws [Server response without matching request] and
    changes nothing.  This holds for every ingestion of resources that
    leaves the requests alone. *)
Theorem receive_once data data' st :
  (∀ rid data addIndirect factory s,
     requests (g rid data addIndirect factory s).1 = requests s) →
  responseId data' = responseId data →
  (_receive g data st).2 = Normal () →
  _receive g data' (_receive g data st).1
  = ((_receive g data st).1,
     Throw (Error "Server response without matching request")).
Proof.
  intros Hg Hid Hok.
  assert (∃ st2, _receive g data st = (st2, Normal ()) ∧
                 requests st2 !! responseId data = None)
    as (st2 & -> & Hnone).
  { unfold _receive in *.
    destruct (requests st !! responseId data) as [req|] eqn:Hreq; [|done].
    set (st1 := with_requests (delete (responseId data) (requests st)) st).
    assert (Hst1 : requests st1 !! responseId data = None)
      by apply lookup_delete_eq.
    destruct data as [id result|id code message d]; eexists; (split; [done|]).
    - unfold _handleSuccessResponse, resolve.
      pose proof (resolved_requests (chain req) result st1 Hg) as Hr.
      destruct (resolved _ _ _ _) as [st2 r]. cbn in *. by rewrite Hr.
    - unfold _handleErrorResponse.
      by destruct (reject_settles_only req
                     (ResError code message d (method req) (params req))
                     (emit (EmitError (ResError code message d (method req)
                                                (params req))) st1))
        as (_&_&_& -> &_). }
  cbn [fst]. unfold _receive. by rewrite Hid, Hnone.
Qed.

End responses.

(** [callModel("svc.m", "ping")] on a connected client, answered with
    ["pong"]. *)
Lemma call_resolves_witness :
  connected online = true ∧ ws online = Some [] ∧
  requests online !! reqId online = None ∧
  let st1 := (callModel "svc.m" "ping" VUndefined online).1 in
  ws st1 = Some [Frame 1 "call.svc.m.ping" VUndefined] ∧
  settled (_receive noIngest (Result 1 (Object (VStr "pong"))) st1).1
  = <[0%nat := Normal (Data (Object (VStr "pong")))]> ∅.
Proof.
  split_and!; [done..|]. cbv zeta.
  destruct (call_resolves noIngest "svc.m" "ping" VUndefined online []
              (Object (VStr "pong")) eq_refl eq_refl eq_refl)
    as (Hws & _ & _ & Hs & _).
  split; [exact Hws|exact Hs].
Defined.

(** The same call, answered with the error [system.notFound]. *)
Lemma call_rejects_witness :
  connected online = true ∧ ws online = Some [] ∧
  requests online !! reqId online = None ∧
  let st1 := (callModel "svc.m" "ping" VUndefined online).1 in
  let err := ResError "system.notFound" "Not found" VUndefined
                      "call.svc.m.ping" VUndefined in
  let st2 :=
    (_receive noIngest (Failure 1 "system.notFound" "Not found" VUndefined)
              st1).1 in
  settled st2 = <[0%nat := Throw err]> ∅ ∧ emitted st2 = [EmitError err].
Proof.
  split_and!; [done..|]. cbv zeta.
  destruct (call_rejects noIngest "svc.m" "ping" VUndefined online []
              "system.notFound" "Not found" VUndefined eq_refl eq_refl eq_refl)
    as (_ & Hs & He & _).
  split; [exact Hs|exact He].
Defined.

(** The answer ["pong"] to the same call, twice. *)
Lemma receive_once_witness :
  (∀ rid data addIndirect factory s,
     requests (noIngest rid data addIndirect factory s).1 = requests s) ∧
  responseId (Result 1 (Object (VStr "pong")))
  = responseId (Result 1 (Object (VStr "pong"))) ∧
  let st1 := (callModel "svc.m" "ping" VUndefined online).1 in
  let st2 := (_receive noIngest (Result 1 (Object (VStr "pong"))) st1).1 in
  (_receive noIngest (Result 1 (Object (VStr "pong"))) st1).2 = Normal () ∧
  _receive noIngest (Result 1 (Object (VStr "pong"))) st2
  = (st2, Throw (Error "Server response without matching request")).
Proof.
  split_and!; [done..|]. cbv zeta. split; [done|].
  by apply (receive_once noIngest).
Defined.

(** Rejecting the sends that wait for the connection settles promises
    and releases cache items, and nothing else. *)
Lemma reject_all_settles_only e queued : ∀ st,
  settles_only st (foldl (λ st w, reject w e st) st queued).
Proof.
  induction queued as [|w queued IH]; intros st; [apply settles_only_refl|].
  cbn [foldl]. eapply settles_only_trans; [|apply IH].
  apply reject_settles_only.
Qed.

(** X19.  A call that waits for the connection is given up by
    [disconnect].  A call made on a client that is not connected waits for
    the connection, which it starts if none is on its way; [disconnect]
    before the socket has opened rejects its promise with
    [Disconnect called], drops the socket, the connect promise and the
    queue, and stops the reconnecting; the call has taken no request id
    and left nothing in [requests]. *)
Theorem disconnect_rejects modelId method params st :
  connected st = false →
  (connectPromise st = true → connectCallback st = true ∧ is_Some (ws st)) →
  let st1 := (callModel modelId method params st).1 in
  let p := (callModel modelId method params st).2 in
  settled (disconnect st1) !! p = Some (Throw (Error "Disconnect called")) ∧
  ws (disconnect st1) = None ∧ tryConnect (disconnect st1) = false ∧
  connectPromise (disconnect st1) = false ∧
  waiting (disconnect st1) = [] ∧
  reqId (disconnect st1) = reqId st ∧ requests (disconnect st1) = requests st.
Proof.
  intros Hc Hp st1 p. subst st1 p. unfold callModel.
  set (m := "call." +:+ modelId +:+ "." +:+ method).
  assert (∃ st1 sent W,
            _send m params KReturn st = (st1, nextPromise st) ∧
            ws st1 = Some sent ∧ connectCallback st1 = true ∧
            waiting st1 = W ++ [Request m params KReturn (nextPromise st)] ∧
            reqId st1 = reqId st ∧ requests st1 = requests st)
    as (st1 & sent & W & -> & Hws & Hcb & Hw & Hid & Hreq).
  { destruct (connectPromise st) eqn:Hcp.
    - destruct Hp as [Hcb [sent Hws]]; [done|].
      rewrite send_queued by done. by eexists _, sent, (waiting st).
    - unfold _send, connect.
      cbn [connected with_nextPromise with_tryConnect connectPromise].
      rewrite Hc, Hcp. cbn. by eexists _, [], []. }
  cbn [fst snd]. unfold disconnect. cbn [ws with_tryConnect]. rewrite Hws.
  unfold _connectReject.
  cbn [connectCallback with_ws with_connectPromise with_tryConnect].
  rewrite Hcb. cbn [waiting with_ws with_connectPromise with_tryConnect].
  rewrite Hw, foldl_app. cbn [foldl].
  match goal with |- context [foldl ?f ?s W] =>
    pose proof (reject_all_settles_only (Error "Disconnect called") W s) as Hso;
    set (st2 := foldl f s W) in * end.
  destruct Hso as (Htc & _ & Hws2 & Hreq2 & Hid2 & _ & Hcp2 & _ & Hw2 & _).
  unfold reject. cbn [chain rejected settles].
  cbn. rewrite lookup_insert_eq, Hws2, Htc, Hcp2, Hw2, Hid2, Hreq2. cbn.
  by rewrite Hid, Hreq.
Qed.

(** A call on a new client, and [disconnect] at once. *)
Lemma disconnect_rejects_witness :
  connected constructor = false ∧
  (connectPromise constructor = true →
   connectCallback constructor = true ∧ is_Some (ws constructor)) ∧
  let st1 := (callModel "svc.m" "ping" VUndefined constructor).1 in
  settled (disconnect st1) !! 0%nat = Some (Throw (Error "Disconnect called")) ∧
  reqId (disconnect st1) = 1 ∧ requests (disconnect st1) = ∅.
Proof.
  assert (H : connectPromise constructor = true →
              connectCallback constructor = true ∧ is_Some (ws constructor))
    by (by intros [=]).
  split_and!; [done..|]. cbv zeta.
  destruct (disconnect_rejects "svc.m" "ping" VUndefined constructor eq_refl H)
    as (Hs & _ & _ & _ & _ & Hid & Hreq).
  split_and!; [exact Hs|exact Hid|exact Hreq].
Defined.

End Responses.

(** ** Remove events: [_handleRemoveEvent] *)

Module Events.
Import Js Client Scenarios TryDelete Sending.

Lemma splice_remove {A} (l : list A) (idx : Z) (x : A) :
  0 ≤ idx → l !! Z.to_nat idx = Some x →
  Js.splice l (Some idx) 1 [] = delete (Z.to_nat idx) l.
Proof.
  intros H0 Hx. unfold Js.splice, Js.rel. change (default 0 (Some idx)) with idx.
  apply lookup_lt_Some in Hx as Hlt.
  rewrite decide_False by lia. rewrite Z.min_l by lia.
  rewrite (Z.min_l (Z.max 1 0)) by lia. cbn [app]. change (Z.max 1 0) with 1.
  replace (Z.to_nat (idx + 1)) with (S (Z.to_nat idx)) by lia.
  by rewrite delete_take_drop.
Qed.

(** A remove event with the index of a cached model: what is done before
    the model is released. *)
Lemma removeEvent_unfold cacheItem data idx st ci models r cm :
  items st !! cacheItem = Some ci → isCollection ci = Some true →
  item ci = Some (Collection models) →
  e_idx data = Some idx → 0 ≤ idx → models !! Z.to_nat idx = Some r →
  cache st !! r = Some cm →
  _handleRemoveEvent cacheItem data st
  = match _tryDelete cm
            (update cm removeIndirect
               (emit (EmitRemove (rid ci) (Some r) (Some idx))
                  (update cacheItem
                     (setModels (delete (Z.to_nat idx) models)) st))) with
    | (st, Normal _) => (st, Normal ())
    | (st, Throw e) => (st, Throw e)
    end.
Proof.
  intros Hci Hcol Hitem Hidx H0 Hr Hcm.
  unfold _handleRemoveEvent. rewrite Hci.
  unfold collection. rewrite Hcol. change (negb (default false (Some true))) with false.
  cbn iota. rewrite Hitem, Hidx. cbn [mbind option_bind].
  assert (Js.get models idx = Some r) as ->.
  { unfold Js.get. by rewrite decide_True by lia. }
  rewrite (splice_remove _ _ r) by done.
  cbn [cache emit update with_emitted with_items]. by rewrite Hcm.
Qed.

(** X20.  A remove event with an index.  For a collection and the index
    of one of its models that is cached and is no collection itself,
    [_handleRemoveEvent] returns; it has taken exactly that model out of
    the collection, emitted one remove event with the model and the
    index, lowered the model's [indirect] by one, and deleted the model
    from the cache exactly when that was its last reference and it has no
    listener and no subscription. *)
Theorem removeEvent_removes cacheItem data idx st ci models r cm cmi :
  items st !! cacheItem = Some ci → isCollection ci = Some true →
  item ci = Some (Collection models) →
  e_idx data = Some idx → 0 ≤ idx → models !! Z.to_nat idx = Some r →
  cache st !! r = Some cm → items st !! cm = Some cmi →
  collection cmi = false →
  let st' := (_handleRemoveEvent cacheItem data st).1 in
  (_handleRemoveEvent cacheItem data st).2 = Normal () ∧
  items st' !! cacheItem
  = Some (setModels (delete (Z.to_nat idx) models) ci) ∧
  emitted st' = emitted st ++ [EmitRemove (rid ci) (Some r) (Some idx)] ∧
  items st' !! cm = Some (removeIndirect cmi) ∧
  cache st'
  = (if bool_decide (indirect cmi = 1 ∧ direct cmi = 0 ∧ subscribed cmi = false)
     then delete (rid cmi) (cache st) else cache st).
Proof.
  intros Hci Hcol Hitem Hidx H0 Hr Hcm Hcmi Hmodel st'. subst st'.
  assert (Hne : cm ≠ cacheItem).
  { intros ->. rewrite Hci in Hcmi. injection Hcmi as <-.
    unfold collection in Hmodel. by rewrite Hcol in Hmodel. }
  rewrite (removeEvent_unfold _ _ idx _ ci models r cm) by done.
  set (st1 := update cm removeIndirect _).
  assert (Hl : items st1 !! cm = Some (removeIndirect cmi)).
  { subst st1. cbn [items update emit with_items with_emitted].
    rewrite lookup_alter_eq, lookup_alter_ne, Hcmi by done. done. }
  assert (Hcoll : items st1 !! cacheItem
                  = Some (setModels (delete (Z.to_nat idx) models) ci)).
  { subst st1. cbn [items update emit with_items with_emitted].
    rewrite lookup_alter_ne, lookup_alter_eq, Hci by done. done. }
  assert (Hem : emitted st1
                = emitted st ++ [EmitRemove (rid ci) (Some r) (Some idx)])
    by done.
  assert (Hca : cache st1 = cache st) by done.
  clearbody st1.
  destruct (decide (indirect cmi = 1 ∧ direct cmi = 0 ∧ subscribed cmi = false))
    as [(Hi & Hd & Hs)|Hkept].
  - rewrite bool_decide_true by done.
    rewrite (tryDelete_released st1 cm (removeIndirect cmi) Hl);
      [|cbn; lia|done|done].
    change (collection (removeIndirect cmi)) with (collection cmi).
    rewrite Hmodel. cbn. by rewrite Hl, Hcoll, Hem, Hca.
  - rewrite bool_decide_false by done.
    rewrite (tryDelete_kept st1 cm (removeIndirect cmi) Hl).
    2:{ cbn [indirect direct subscribed removeIndirect].
        destruct (decide (indirect cmi - 1 = 0)); [|by left].
        destruct (decide (direct cmi = 0)); [|by right; left].
        right; right. destruct (subscribed cmi) eqn:Hs; [done|].
        destruct Hkept. split_and!; [lia|done..]. }
    case_bool_decide; cbn [fst snd]; by rewrite ?Hl, ?Hcoll.
Qed.

(** The only model of a collection, which nothing else refers to. *)
Lemma removeEvent_removes_witness :
  items releasedCollection !! 1%positive
  = Some (CacheItem "c" (Some (Collection ["m"])) (Some true) None 0 0 false
                    None) ∧
  cache releasedCollection !! "m" = Some 2%positive ∧
  items releasedCollection !! 2%positive
  = Some (CacheItem "m" (Some Model) (Some false) None 0 1 false None) ∧
  let st' :=
    (_handleRemoveEvent 1%positive (EventData None VUndefined (Some 0))
                        releasedCollection).1 in
  emitted st' = [EmitRemove "c" (Some "m") (Some 0)] ∧
  cache st' !! "m" = None.
Proof.
  split_and!; [done..|]. cbv zeta.
  destruct (removeEvent_removes 1%positive (EventData None VUndefined (Some 0))
              0 releasedCollection
              (CacheItem "c" (Some (Collection ["m"])) (Some true) None 0 0
                         false None)
              ["m"] "m" 2%positive
              (CacheItem "m" (Some Model) (Some false) None 0 1 false None)
              eq_refl eq_refl eq_refl eq_refl ltac:(lia) eq_refl eq_refl
              eq_refl eq_refl)
    as (_ & _ & He & _ & Hc).
  split; [exact He|]. rewrite Hc. by vm_compute.
Defined.

End Events.

(** ** Change events: [_handleChangeEvent] *)

Module Changes.
Import Js Client Scenarios TryDelete Sending SetModel.

#[local] Opaque actionDelete.

Lemma restore_sentinel st v : isObject v = false → restore st (sentinel v) = v.
Proof.
  intros Hv. by destruct v.
Qed.

(** The loop over any keys, on data whose objects are all delete actions. *)
Lemma deleteActions_restores st keys : ∀ m,
  (∀ k v, m !! k = Some v → isObject v = true → isDelete st v = true) →
  ∃ m', deleteActions keys (VObj m) st = (st, Normal (VObj m')) ∧
        ∀ k, m' !! k = if decide (k ∈ keys) then restore st <$> m !! k
                       else m !! k.
Proof.
  induction keys as [|k0 keys IH]; intros m Hm.
  { exists m. split; [done|]. intros k. rewrite decide_False; [done|].
    by intros ?%elem_of_nil. }
  cbn [deleteActions property].
  assert (Hstep : ∃ m1,
            (match m !! k0 with
             | Some v =>
                 if isObject v then
                   if isDelete st v then
                     let '(st, data) := clearProperty k0 (VObj m) st in
                     deleteActions keys data st
                   else (st, Throw (Error "Unsupported model change value: "))
                 else deleteActions keys (VObj m) st
             | None => deleteActions keys (VObj m) st
             end) = deleteActions keys (VObj m1) st ∧
            (∀ k v, m1 !! k = Some v → isObject v = true → isDelete st v = true) ∧
            (∀ k, k ≠ k0 → m1 !! k = m !! k) ∧
            m1 !! k0 = restore st <$> m !! k0).
  { destruct (m !! k0) as [v|] eqn:H0.
    - destruct (isObject v) eqn:Hobj.
      + rewrite (Hm _ _ H0 Hobj). cbn [clearProperty].
        exists (<[k0 := VUndefined]> m). split_and!; [done| | |].
        * intros k w. rewrite lookup_insert. case_decide; [by intros [= <-]|].
          apply Hm.
        * intros k Hk. by rewrite lookup_insert_ne.
        * rewrite lookup_insert_eq. cbn. unfold restore.
          by rewrite Hobj, (Hm _ _ H0 Hobj).
      + exists m. split_and!; [done..|]. rewrite H0. cbn. unfold restore.
        by rewrite Hobj.
    - exists m. split_and!; [done..|]. by rewrite H0. }
  destruct Hstep as (m1 & -> & Hm1 & Hother & Hk0).
  destruct (IH m1 Hm1) as (m' & -> & Hm').
  exists m'. split; [done|]. intros k. rewrite Hm'.
  destruct (decide (k = k0)) as [->|Hne].
  - rewrite (decide_True (P := k0 ∈ k0 :: keys)) by (apply elem_of_cons; by left).
    rewrite Hk0. case_decide; [|done].
    destruct (m !! k0) as [v|]; [|done]. cbn. f_equal.
    unfold restore. destruct (isObject v && isDelete st v) eqn:Hv; [done|].
    by rewrite Hv.
  - rewrite Hother by done.
    destruct (decide (k ∈ keys)) as [Hin|Hnin].
    + rewrite decide_True; [done|]. apply elem_of_cons. by right.
    + rewrite decide_False; [done|]. intros [?|?]%elem_of_cons; done.
Qed.

(** The loop stops at an object that is no delete action. *)
Lemma deleteActions_unsupported st keys k v : ∀ m,
  k ∈ keys → m !! k = Some v → isObject v = true → isDelete st v = false →
  deleteActions keys (VObj m) st
  = (st, Throw (Error "Unsupported model change value: ")).
Proof.
  induction keys as [|k0 keys IH]; intros m Hin Hk Hobj Hdel.
  { by apply elem_of_nil in Hin. }
  cbn [deleteActions property].
  destruct (decide (k0 = k)) as [->|Hne].
  { by rewrite Hk, Hobj, Hdel. }
  apply elem_of_cons in Hin as [?|Hin]; [done|].
  destruct (m !! k0) as [w|] eqn:H0; [|by apply IH].
  destruct (isObject w); [|by apply IH].
  destruct (isDelete st w); [|done].
  cbn [clearProperty]. apply IH; [done| |done..].
  by rewrite lookup_insert_ne.
Qed.

Section changes.
Variable deliver : loc → string → value → client → client * completion ().

(** A change whose objects are all delete actions is delivered with
    [undefined] in their places. *)
Lemma handleChange_restores cacheItem event m st :
  (∀ k v, m !! k = Some v → isObject v = true → isDelete st v = true) →
  _handleChangeEvent deliver cacheItem event (VObj m) st
  = deliver cacheItem event (VObj (restore st <$> m)) st.
Proof.
  intros Hm. unfold _handleChangeEvent. cbn [keysOf].
  destruct (deleteActions_restores st (map_to_list m).*1 m Hm) as (m' & -> & Hm').
  do 2 f_equal. apply map_eq. intros k. rewrite Hm', lookup_fmap.
  destruct (m !! k) as [v|] eqn:Hk.
  - rewrite decide_True; [done|]. apply list_elem_of_fmap. exists (k, v).
    split; [done|]. by apply elem_of_map_to_list.
  - by case_decide.
Qed.

(** X21.  What [setModel] sends for [undefined], [_handleChangeEvent]
    takes back.  For props whose values are no objects, a connected
    client with a socket sends the props, but for a key [__proto__], with
    [{action: "delete"}] for every [undefined]; and a change event with
    the data so sent is delivered to the model with the props as
    [setModel] was given them, [undefined] values included, but for that
    key. *)
Theorem setModel_change_round_trip modelId props st o sent :
  heap st !! props = Some o → connected st = true → ws st = Some sent →
  (∀ k v, o !! k = Some v → isObject v = false) →
  ∃ data,
    ws (setModel modelId props st).1
    = Some (sent ++ [Frame (reqId st) ("call." +:+ modelId +:+ ".set")
                           (VObj data)]) ∧
    ∀ cacheItem event st',
      _handleChangeEvent deliver cacheItem event (VObj data) st'
      = deliver cacheItem event (VObj (delete "__proto__" o)) st'.
Proof.
  intros Ho Hc Hws Hprim. exists (sentinel <$> delete "__proto__" o). split.
  - destruct (setModel_unfold modelId props st o Ho) as (h & Hh & ->).
    rewrite (send_open _ _ _ _ sent) by done.
    cbn [fst ws with_ws truthy stringify heap with_heap]. by rewrite Hh.
  - assert (Hprim' : ∀ k v, delete "__proto__" o !! k = Some v →
                            isObject v = false).
    { intros k v Hk. apply lookup_delete_Some in Hk as [_ Hk]. by eapply Hprim. }
    set (o' := delete "__proto__" o) in *. clearbody o'.
    intros cacheItem event st'. rewrite handleChange_restores.
    + do 2 f_equal. rewrite <-map_fmap_compose. apply map_eq. intros k.
      rewrite lookup_fmap. destruct (o' !! k) as [v|] eqn:Hk; [|done].
      cbn. f_equal. apply restore_sentinel. by eapply Hprim'.
    + intros k v. rewrite lookup_fmap.
      destruct (o' !! k) as [w|] eqn:Hk; [|done]. intros [= <-] Hobj.
      specialize (Hprim' _ _ Hk). by destruct w.
Qed.

(** X22.  A change with a value that is an object and no delete action
    is turned down as a whole: [_handleChangeEvent] throws
    [Unsupported model change value: ], hands nothing to the model, and
    leaves the client as it is, whatever the other values are. *)
Theorem change_unsupported cacheItem event m st k v :
  m !! k = Some v → isObject v = true → isDelete st v = false →
  _handleChangeEvent deliver cacheItem event (VObj m) st
  = (st, Throw (Error "Unsupported model change value: ")).
Proof.
  intros Hk Hobj Hdel. unfold _handleChangeEvent. cbn [keysOf].
  rewrite (deleteActions_unsupported st _ k v); [done| |done..].
  apply list_elem_of_fmap. exists (k, v). split; [done|].
  by apply elem_of_map_to_list.
Qed.

End changes.

(** The props [{a: undefined, b: 2}]. *)
Lemma setModel_change_round_trip_witness :
  heap onlineWithProps !! 1%positive
  = Some {[ "a" := VUndefined; "b" := VNum 2 ]} ∧
  connected onlineWithProps = true ∧ ws onlineWithProps = Some [] ∧
  (∀ k v, ({[ "a" := VUndefined; "b" := VNum 2 ]} : gmap string value) !! k
          = Some v → isObject v = false) ∧
  ∃ data,
    ws (setModel "svc.m" 1%positive onlineWithProps).1
    = Some ([] ++ [Frame (reqId onlineWithProps) ("call." +:+ "svc.m" +:+ ".set")
                         (VObj data)]) ∧
    ∀ cacheItem event st',
      _handleChangeEvent noHandler cacheItem event (VObj data) st'
      = noHandler cacheItem event
                  (VObj (delete "__proto__"
                           {[ "a" := VUndefined; "b" := VNum 2 ]})) st'.
Proof.
  assert (H : ∀ k v,
            ({[ "a" := VUndefined; "b" := VNum 2 ]} : gmap string value) !! k
            = Some v → isObject v = false).
  { intros k v. rewrite lookup_insert. case_decide; [by intros [= <-]|].
    rewrite lookup_singleton. case_decide; [by intros [= <-]|done]. }
  split_and!; [done..|].
  by apply (setModel_change_round_trip noHandler "svc.m" 1%positive
              onlineWithProps _ []).
Defined.

(** A change of [a] to the object [{}]. *)
Lemma change_unsupported_witness :
  ({[ "a" := VObj ∅ ]} : gmap string value) !! "a" = Some (VObj ∅) ∧
  isObject (VObj ∅) = true ∧ isDelete online (VObj ∅) = false ∧
  _handleChangeEvent noHandler 1%positive "change" (VObj {[ "a" := VObj ∅ ]})
                     online
  = (online, Throw (Error "Unsupported model change value: ")).
Proof.
  split_and!; [done..|].
  by apply (change_unsupported noHandler 1%positive "change" _ online "a"
              (VObj ∅)).
Defined.

End Changes.

(** ** The end of a connection: [_handleOnclose] *)

Module Closing.
Import Js Client Scenarios TryDelete Sending.

Lemma releases_cache st st' : releases st st' → cache st' ⊆ cache st.
Proof. by intros (_&_&_&_&_&_&_&_&_&_&_&_&_&_&?). Qed.

(** One turn of the loop of [_handleOnclose]. *)
Lemma closeItem_spec id st st' r done :
  closeItem id st = (st', r) →
  unsubscribed done st →
  settles_only st st' ∧ cache st' ⊆ cache st ∧
  (r = Normal () → unsubscribed (id :: done) st').
Proof.
  unfold closeItem. intros Hclose Hdone.
  destruct (cache st !! id) as [l|] eqn:Hl.
  2:{ injection Hclose as <- <-. split_and!; [apply settles_only_refl|done|].
      intros _ rid l ci [->|Hin]%elem_of_cons; [congruence|by apply Hdone]. }
  set (st1 := update l (setSubscribed false) st) in *.
  pose proof (tryDelete_releases l st1) as Hrel.
  pose proof (tryDelete_settles_only l st1) as Hso.
  destruct (_tryDelete l st1) as [st2 [b|e]]; cbn [fst] in *;
    injection Hclose as <- <-.
  - split_and!.
    + eapply settles_only_trans; [|exact Hso]. by repeat split.
    + by apply releases_cache in Hrel.
    + intros _ rid l' ci Hin Hrid Hci.
      pose proof (releases_subscribed _ _ l' Hrel) as Hsub.
      rewrite Hci in Hsub. cbn in Hsub.
      assert (Hrid1 : cache st !! rid = Some l').
      { apply releases_cache in Hrel. by eapply lookup_weaken. }
      subst st1. cbn [items update with_items] in Hsub.
      destruct (decide (l' = l)) as [->|Hne].
      * rewrite lookup_alter_eq in Hsub.
        destruct (items st !! l); by simplify_eq/=.
      * rewrite lookup_alter_ne in Hsub by done.
        apply elem_of_cons in Hin as [->|Hin]; [congruence|].
        destruct (items st !! l') as [ci'|] eqn:Hci'; [|done].
        injection Hsub as Hsub. rewrite Hsub. by eapply Hdone.
  - split_and!; [|by apply releases_cache in Hrel|done].
    eapply settles_only_trans; [|exact Hso]. by repeat split.
Qed.


(** The loop of [_handleOnclose], when it comes to its end. *)
Lemma forEach_closeItem keys : ∀ st st' done,
  forEach closeItem keys st = (st', Normal ()) →
  unsubscribed done st →
  settles_only st st' ∧ cache st' ⊆ cache st ∧ unsubscribed (keys ++ done) st'.
Proof.
  induction keys as [|k keys IH]; intros st st' done Hloop Hdone.
  { injection Hloop as <-. split_and!; [apply settles_only_refl|done..]. }
  cbn [forEach] in Hloop.
  destruct (closeItem k st) as [st1 r] eqn:Hk.
  destruct (closeItem_spec k st st1 r done Hk Hdone) as (Hso & Hsub & Hun).
  destruct r as [[]|e]; [|done].
  destruct (IH st1 st' (k :: done) Hloop (Hun eq_refl)) as (Hso' & Hsub' & Hun').
  split_and!.
  - by eapply settles_only_trans.
  - by etrans.
  - intros rid l ci Hin. apply Hun'.
    rewrite elem_of_app, !elem_of_cons in *. tauto.
Qed.

(** X23.  When the socket of a connected client closes and
    [_handleOnclose] returns, with [keys] for the keys of the cache in the
    order of the loop, whichever it is: the client is not connected and
    has no socket and no connect promise, its requests are as they were,
    the cache has lost entries at most, no item that is still in the cache
    is subscribed, and [close] has been emitted once, followed by the
    timer of [_reconnect] exactly when [tryConnect] is set. *)
Theorem onclose_unsubscribes keys st :
  connected st = true →
  (∀ rid, is_Some (cache st !! rid) → rid ∈ keys) →
  (_handleOnclose keys st).1.2 = Normal () →
  let st' := (_handleOnclose keys st).1.1 in
  connected st' = false ∧ ws st' = None ∧ connectPromise st' = false ∧
  requests st' = requests st ∧ cache st' ⊆ cache st ∧
  (∀ rid l ci, cache st' !! rid = Some l → items st' !! l = Some ci →
               subscribed ci = false) ∧
  (_handleOnclose keys st).2
  = Emit "close" :: (if tryConnect st then [SetReconnect] else []).
Proof.
  intros Hc Hkeys. unfold _handleOnclose.
  cbn [connected with_ws with_connectPromise]. rewrite Hc.
  set (st0 := with_connected false _).
  destruct (forEach closeItem keys st0) as [st1 [[]|e]] eqn:Hloop; [|done].
  intros _. cbn [fst snd].
  destruct (forEach_closeItem keys st0 st1 [] Hloop) as (Hso & Hsub & Hun).
  { by intros rid l ci ?%elem_of_nil. }
  destruct Hso as (Htc & Hcon & Hws & Hreq & _ & _ & Hcp & _).
  rewrite Htc, Hcon, Hws, Hreq, Hcp. split_and!; try done.
  intros rid l ci Hrid Hci. apply (Hun rid l ci); [|done..].
  rewrite app_nil_r. apply Hkeys. exists l.
  by apply (lookup_weaken _ _ _ _ Hrid).
Qed.

(** The close of a connection with one subscribed model in the cache. *)
Lemma onclose_unsubscribes_witness :
  connected onlineSvcM = true ∧
  (∀ rid, is_Some (cache onlineSvcM !! rid) → rid ∈ ["svc.m"]) ∧
  (_handleOnclose ["svc.m"] onlineSvcM).1.2 = Normal () ∧
  connected (_handleOnclose ["svc.m"] onlineSvcM).1.1 = false ∧
  (_handleOnclose ["svc.m"] onlineSvcM).2 = [Emit "close"; SetReconnect].
Proof.
  assert (H : ∀ rid, is_Some (cache onlineSvcM !! rid) → rid ∈ ["svc.m"]).
  { intros rid [l Hl].
    change (cache onlineSvcM)
      with ({[ "svc.m" := 1%positive ]} : gmap string positive) in Hl.
    apply lookup_singleton_Some in Hl as [<- _].
    apply elem_of_cons. by left. }
  assert (Hr : (_handleOnclose ["svc.m"] onlineSvcM).1.2 = Normal ())
    by (by vm_compute).
  split_and!; [done..| |];
    by destruct (onclose_unsubscribes ["svc.m"] onlineSvcM eq_refl H Hr)
      as (Hc & _ & _ & _ & _ & _ & He).
Defined.

End Closing.

(** ** Events by name: [_handleEvent] *)

Module EventNames.
Import Js Client Scenarios Registry ModelTypes.

Lemma lastIndexFrom_none v k found :
  noDots v = true → lastIndexFrom "." v k found = found.
Proof.
  revert k. induction v as [|c v IH]; intros k Hv; [done|]. simpl in *.
  apply andb_prop in Hv as [Hc Hv]. apply negb_true_iff in Hc.
  by rewrite Hc, IH.
Qed.

(** The last dot stands before a last part without dots. *)
Lemma lastIndexFrom_dot u v k found :
  noDots v = true →
  lastIndexFrom "." (u +:+ String "." v) k found = k + Z.of_nat (String.length u).
Proof.
  revert k found. induction u as [|c u IH]; intros k found Hv.
  - rewrite append_nil. cbn [lastIndexFrom]. rewrite Ascii.eqb_refl.
    rewrite lastIndexFrom_none by done. simpl. lia.
  - rewrite append_cons. cbn [lastIndexFrom]. rewrite IH by done.
    cbn [String.length]. lia.
Qed.

Lemma substring_skip u v :
  String.substring (String.length u) (String.length v) (u +:+ v) = v.
Proof.
  induction u as [|c u IH]; [apply substring_all|].
  by rewrite append_cons.
Qed.

Lemma substr_suffix u v :
  substr (u +:+ String "." v) (Z.of_nat (String.length u) + 1) None = v.
Proof.
  unfold substr, rel. rewrite decide_False by lia.
  rewrite length_append. cbn [String.length]. rewrite Z.min_l by lia.
  replace (u +:+ String "." v) with ((u +:+ ".") +:+ v).
  2:{ clear. induction u as [|c u IH]; [done|]. rewrite !append_cons. by rewrite IH. }
  replace (Z.to_nat (Z.of_nat (String.length u) + 1))
    with (String.length (u +:+ ".")) by (rewrite length_append; simpl; lia).
  replace (Z.to_nat _) with (String.length v) by lia.
  apply substring_skip.
Qed.

Section names.
Context {D : Type}.
Variables handleChange handleAdd handleRemove :
  loc → string → D → client → client * completion ().

(** X24.  The name of an event is split at its last dot.  For a resource
    id, with dots or without, that is in the cache, and an event name
    without dots that is not empty, the event [<rid>.<name>] goes to the
    cache item of that rid: to the handler of [change], [add] or [remove]
    with the data as they are, to [_handleUnsubscribeEvent] for
    [unsubscribe], and to the event bus as an event of the resource for
    any other name, with no change of the client. *)
Theorem handleEvent_dispatch rid event data st cacheItem :
  noDots event = true → event ≠ "" → cache st !! rid = Some cacheItem →
  _handleEvent handleChange handleAdd handleRemove
               (rid +:+ String "." event) data st
  = if String.eqb event "change" then (handleChange cacheItem event data st, [])
    else if String.eqb event "add" then (handleAdd cacheItem event data st, [])
    else if String.eqb event "remove"
    then (handleRemove cacheItem event data st, [])
    else if String.eqb event "unsubscribe"
    then _handleUnsubscribeEvent cacheItem st
    else (st, Normal (), [EmitCustom rid event data]).
Proof.
  intros Hev Hne Hcache. unfold _handleEvent, lastIndexOf.
  rewrite lastIndexFrom_dot, Z.add_0_l by done.
  rewrite length_append. cbn [String.length].
  rewrite bool_decide_eq_false_2 by lia.
  rewrite bool_decide_eq_false_2.
  2:{ destruct event; [done|]. cbn [String.length]. lia. }
  cbn [orb]. rewrite substr_prefix, Hcache, substr_suffix. done.
Qed.

(** X25.  What [_handleEvent] turns down, without calling a handler and
    without a change of the client: an event name without a dot and one
    that ends with a dot, with [Malformed event name: <name>], and an
    event for a resource id that is not in the cache and is no name of
    [Object.prototype], with [Resource not found in cache]. *)
Theorem handleEvent_rejects data st :
  (∀ event, noDots event = true →
     _handleEvent handleChange handleAdd handleRemove event data st
     = (st, Throw (Error ("Malformed event name: " +:+ event)), [])) ∧
  (∀ rid,
     _handleEvent handleChange handleAdd handleRemove (rid +:+ ".") data st
     = (st, Throw (Error ("Malformed event name: " +:+ rid +:+ ".")), [])) ∧
  (∀ rid event,
     noDots event = true → event ≠ "" → inherited rid = false →
     cache st !! rid = None →
     _handleEvent handleChange handleAdd handleRemove
                  (rid +:+ String "." event) data st
     = (st, Throw (Error "Resource not found in cache"), [])).
Proof.
  split_and!.
  - intros event Hev. unfold _handleEvent, lastIndexOf.
    rewrite lastIndexFrom_none by done. by rewrite bool_decide_eq_true_2 by lia.
  - intros rid. unfold _handleEvent, lastIndexOf.
    rewrite lastIndexFrom_dot, Z.add_0_l by done.
    rewrite length_append. cbn [String.length].
    rewrite (bool_decide_eq_true_2 (_ = _)) by lia. by rewrite orb_true_r.
  - intros rid event Hev Hne _ Hcache. unfold _handleEvent, lastIndexOf.
    rewrite lastIndexFrom_dot, Z.add_0_l by done.
    rewrite length_append. cbn [String.length].
    rewrite bool_decide_eq_false_2 by lia.
    rewrite bool_decide_eq_false_2.
    2:{ destruct event; [done|]. cbn [String.length]. lia. }
    cbn [orb]. by rewrite substr_prefix, Hcache.
Qed.

End names.

(** The event [svc.m.ping] for the cached model [svc.m]. *)
Lemma handleEvent_dispatch_witness :
  noDots "ping" = true ∧ "ping" ≠ "" ∧
  cache onlineSvcM !! "svc.m" = Some 1%positive ∧
  _handleEvent noHandler noHandler noHandler ("svc.m" +:+ String "." "ping")
               VNull onlineSvcM
  = (onlineSvcM, Normal (), [EmitCustom "svc.m" "ping" VNull]).
Proof.
  split_and!; [done..|].
  by apply (handleEvent_dispatch noHandler noHandler noHandler "svc.m" "ping"
              VNull onlineSvcM 1%positive).
Defined.

End EventNames.

(** ** Unsubscribe events: [_handleUnsubscribeEvent] *)

Module UnsubscribeEvent.
Import Js Client Scenarios TryDelete Sending.

(** X26.  An unsubscribe event for a cache item that no collection refers
    to marks it as not subscribed and emits the unsubscribe event of the
    resource with its item; an item with listeners stays in the cache, and
    on a connected client the timer for subscribing to it again is set;
    an item without listeners that is no collection is deleted from the
    cache. *)
Theorem unsubscribeEvent_releases (D : Type) l st ci :
  items st !! l = Some ci → indirect ci = 0 →
  let st1 := update l (setSubscribed false) st in
  (direct ci ≠ 0 →
   _handleUnsubscribeEvent (D := D) l st
   = (if connected st then with_timers (timers st ++ [rid ci]) st1 else st1,
      Normal (), [EmitUnsubscribe (rid ci) (item ci)])) ∧
  (direct ci = 0 → collection ci = false →
   _handleUnsubscribeEvent (D := D) l st
   = (with_cache (delete (rid ci) (cache st)) st1, Normal (),
      [EmitUnsubscribe (rid ci) (item ci)])).
Proof.
  intros Hl Hi st1.
  assert (Hl1 : items st1 !! l = Some (setSubscribed false ci)).
  { subst st1. cbn [items update with_items]. by rewrite lookup_alter_eq, Hl. }
  assert (Hc1 : connected st1 = connected st) by done.
  assert (Ht1 : timers st1 = timers st) by done.
  assert (Hca1 : cache st1 = cache st) by done.
  unfold _handleUnsubscribeEvent. fold st1. clearbody st1. split.
  - intros Hd. rewrite (tryDelete_kept st1 l _ Hl1) by (right; by left).
    cbn [indirect direct subscribed setSubscribed rid]. rewrite Hc1, Ht1.
    destruct (connected st).
    + rewrite bool_decide_true by done. cbn [items with_timers].
      by rewrite Hl1.
    + rewrite bool_decide_false by (by intros (_&_&_&?)). by rewrite Hl1.
  - intros Hd Hmodel.
    rewrite (tryDelete_released st1 l _ Hl1) by done.
    change (collection (setSubscribed false ci)) with (collection ci).
    rewrite Hmodel. cbn [items with_cache]. by rewrite Hl1, Hca1.
Qed.

(** The unsubscribe event for a subscribed model without listeners. *)
Lemma unsubscribeEvent_releases_witness :
  items onlineSvcM !! 1%positive
  = Some (CacheItem "svc.m" (Some Model) (Some false) None 0 0 true None) ∧
  cache (_handleUnsubscribeEvent (D := ()) 1%positive onlineSvcM).1.1 = ∅ ∧
  (_handleUnsubscribeEvent (D := ()) 1%positive onlineSvcM).2
  = [EmitUnsubscribe "svc.m" (Some Model)].
Proof.
  split; [done|].
  destruct (unsubscribeEvent_releases () 1%positive onlineSvcM
              (CacheItem "svc.m" (Some Model) (Some false) None 0 0 true None)
              eq_refl eq_refl) as [_ H].
  rewrite (H eq_refl eq_refl). split; by vm_compute.
Defined.

End UnsubscribeEvent.

(** ** The ingestion of resources: [_getCachedResource] *)

Module Ingest.
Import Js Client Scenarios Objects TryDelete Sending GetResource.

Section ingest.
Variable deliver : loc → string → value → client → client * completion ().
Variable setCollection :
  option loc → string → list (string * option resource) → option nat →
  client → client * completion ().
Variable setModelItem :
  option loc → string → value → field modelType → client →
  client * completion ().
Variable __add :
  loc → option string → option resource → option Z → client →
  client * completion (option Z).

(** For the data of a model, [_getCachedResource] makes no call of itself:
    the two steps of the definition are all there are. *)
Lemma getCachedResource_model self self' rid data addIndirect factory st :
  getCachedResource_body deliver setCollection setModelItem __add self rid
                         (Object data) addIndirect factory st
  = getCachedResource_body deliver setCollection setModelItem __add self' rid
                           (Object data) addIndirect factory st.
Proof. reflexivity. Qed.

(** X27.  A resource without data stays in the cache.  For a resource id
    that is not cached and data that are falsy, [_getCachedResource]
    throws.  When the id is not the name of a property that objects
    inherit, it throws [No data for resource ID <rid>] after it has
    entered a new cache item for the id, without an item and with the
    indirect reference counted if one was asked for, and nothing takes the
    entry out again: [getResource] of the id then returns a promise that
    is resolved with [undefined], and subscribes to nothing.  When the id
    is such a name, no cache item is made and the client stays as it is:
    the inherited property is taken for the cache item, and the call
    throws a [TypeError] where it asks for the reference to be counted,
    and [No data for resource ID <rid>] otherwise.  This holds for all
    factories and model types. *)
Theorem noData_leaks rid data (addIndirect : bool) factory st :
  cache st !! rid = None → given data = false →
  let answer :=
    _getCachedResource deliver setCollection setModelItem __add (Some rid)
                       data addIndirect factory st in
  (inherited rid = false →
   let l := fresh (dom (items st)) in
   let ci := if addIndirect then Client.addIndirect (newCacheItem rid)
             else newCacheItem rid in
   let st' := with_cache (<[rid := l]> (cache st))
                (with_items (<[l := ci]> (items st)) st) in
   answer = (st', Throw (Error ("No data for resource ID " +:+ rid))) ∧
   items st !! l = None ∧
   ∀ collectionFactory,
     getResource rid collectionFactory st' = (st', Normal (Resolved None))) ∧
  (inherited rid = true →
   answer
   = (st, Throw (if addIndirect
                 then TypeError "cacheItem.addIndirect is not a function"
                 else Error ("No data for resource ID " +:+ rid)))).
Proof.
  intros Hnew Hdata answer. subst answer. split.
  - intros Hi l ci st'.
    assert (Hl : items st !! l = None) by apply fresh_item.
    split_and!; [|done|].
    + unfold _getCachedResource, getCachedResource_body.
      change (default "undefined" (Some rid)) with rid.
      rewrite (read_undefined _ _ Hnew Hi). fold l.
      destruct addIndirect; rewrite Hdata; cbn [negb]; subst st' ci;
        [|done].
      do 2 f_equal. destruct st. unfold update. cbn. f_equal.
      by rewrite alter_insert_eq.
    + intros cf. unfold getResource. subst st'.
      cbn [cache items with_cache with_items].
      rewrite (read_own _ _ l) by apply lookup_insert_eq.
      rewrite lookup_insert_eq. by destruct addIndirect.
  - intros Hi. unfold _getCachedResource, getCachedResource_body.
    change (default "undefined" (Some rid)) with rid.
    rewrite (read_inherited _ _ Hnew Hi).
    destruct addIndirect; [done|]. by rewrite Hdata.
Qed.

End ingest.

(** The model ["svc.m"] without data, as a model of a collection, and
    the model ["toString"]. *)
Lemma noData_leaks_witness :
  cache online !! "svc.m" = None ∧ given (Object VUndefined) = false ∧
  inherited "svc.m" = false ∧ inherited "toString" = true ∧
  (let r := _getCachedResource noHandler noCollection noModel noAdd
              (Some "svc.m") (Object VUndefined) true None online in
   r.2 = Throw (Error "No data for resource ID svc.m") ∧
   cache r.1 !! "svc.m" = Some 1%positive ∧
   items r.1 !! 1%positive
   = Some (CacheItem "svc.m" None None None 0 1 false None) ∧
   getResource "svc.m" 0 r.1 = (r.1, Normal (Resolved None))) ∧
  _getCachedResource noHandler noCollection noModel noAdd (Some "toString")
                     (Object VUndefined) true None online
  = (online, Throw (TypeError "cacheItem.addIndirect is not a function")).
Proof.
  split_and!; [done..| |].
  - cbv zeta.
    destruct (noData_leaks noHandler noCollection noModel noAdd "svc.m"
                (Object VUndefined) true None online eq_refl eq_refl)
      as [Hleak _].
    destruct (Hleak eq_refl) as (Heq & _ & Hget).
    rewrite Heq. split_and!; [done..|]. apply Hget.
  - destruct (noData_leaks noHandler noCollection noModel noAdd "toString"
                (Object VUndefined) true None online eq_refl eq_refl)
      as [_ Hinh].
    exact (Hinh eq_refl).
Defined.

End Ingest.

(** ** The queue of a connection, and calls without one *)

Module Queue.
Import Js Client Scenarios TryDelete Sending GetResource Responses.

(** Sends on an open socket leave the queue and the connect callback
    alone. *)
Lemma sends_keep_queue queued : ∀ st sent,
  ws st = Some sent →
  let st' :=
    foldl (λ st w, _sendNow (method w) (params w) (chain w) (settles w) st)
          st queued in
  waiting st' = waiting st ∧ connectCallback st' = connectCallback st.
Proof.
  induction queued as [|w queued IH]; intros st sent Hws; [done|].
  cbn [foldl]. rewrite (sendNow_open _ _ _ _ _ sent Hws).
  match goal with |- context [foldl _ ?s queued] =>
    destruct (IH s _ eq_refl) as (Hw & Hcb) end.
  cbn zeta. by rewrite Hw, Hcb.
Qed.

(** X28.  The calls that wait for the connection go out in their order.
    When the connection is there and [_connectResolve] runs, every request
    of the queue is handed to the socket, in the order in which the calls
    were made and behind what the socket was handed before, with request
    ids that count up from [reqId], as [reqId++] counts, once for each
    request before it; the queue is empty then and the connect callback is
    gone. *)
Theorem connectResolve_in_order st sent :
  connectCallback st = true → ws st = Some sent →
  let st' := _connectResolve st in
  ws st'
  = Some (sent ++ imap (λ i w, frameOf st (Nat.iter i increment (reqId st)) w)
                       (waiting st)) ∧
  reqId st' = Nat.iter (length (waiting st)) increment (reqId st) ∧
  waiting st' = [] ∧ connectCallback st' = false.
Proof.
  intros Hcb Hws st'. subst st'. unfold _connectResolve. rewrite Hcb.
  set (st0 := with_waiting [] (with_connectCallback false st)).
  destruct (connectResolve_sends (waiting st) st0 sent Hws) as (Hw & Hr & _).
  destruct (sends_keep_queue (waiting st) st0 sent Hws) as (Hq & Hc).
  by rewrite Hw, Hr, Hq, Hc.
Qed.

(** A call made on a new client, and the connection that it waits for. *)
Lemma connectResolve_in_order_witness :
  let st := (callModel "svc.m" "ping" VUndefined constructor).1 in
  connectCallback st = true ∧ ws st = Some [] ∧
  ws (_connectResolve st) = Some [Frame 1 "call.svc.m.ping" VUndefined] ∧
  reqId (_connectResolve st) = 2.
Proof.
  cbv zeta. split_and!; [done..| |];
    by destruct (connectResolve_in_order
                   (callModel "svc.m" "ping" VUndefined constructor).1 []
                   eq_refl eq_refl) as (Hws & Hid & _).
Defined.

(** X29.  A call between [disconnect] and the close of the socket.  After
    [disconnect] on a connected client the socket is gone, but the client
    counts as connected until the close event comes; a call made meanwhile
    is rejected at once with a [TypeError], and has all the same taken the
    next request id and left its request in [requests], where no response
    will find it. *)
Theorem call_after_disconnect modelId method params st :
  connected st = true → is_Some (ws st) →
  let st1 := disconnect st in
  let st2 := (callModel modelId method params st1).1 in
  let p := (callModel modelId method params st1).2 in
  let m := "call." +:+ modelId +:+ "." +:+ method in
  let sent_params := if truthy params then params else VUndefined in
  ws st1 = None ∧ connected st1 = true ∧
  settled st2 !! p = Some (Throw (TypeError "this.ws is null")) ∧
  ws st2 = None ∧ reqId st2 = increment (reqId st) ∧
  requests st2 = <[reqId st := Request m sent_params KReturn p]> (requests st).
Proof.
  intros Hc [sent Hws] st1 st2 p m sent_params.
  assert (Hst1 : ws st1 = None ∧ connected st1 = true ∧
                 reqId st1 = reqId st ∧ requests st1 = requests st).
  { subst st1. unfold disconnect. cbn [ws with_tryConnect]. rewrite Hws.
    unfold _connectReject.
    destruct (connectCallback _) eqn:Hcb;
      [|split_and!; [done|exact Hc|done..]].
    match goal with |- context [foldl ?f ?s ?q] =>
      destruct (reject_all_settles_only (Error "Disconnect called") q s)
        as (_ & -> & -> & -> & -> & _) end.
    split_and!; [done|exact Hc|done..]. }
  destruct Hst1 as (Hws1 & Hc1 & Hid1 & Hreq1).
  subst st2 p. unfold callModel. fold m. clearbody st1.
  unfold _send. cbn [connected with_nextPromise]. rewrite Hc1.
  cbn [fst snd]. unfold _sendNow.
  cbn [ws reqId requests with_nextPromise with_reqId with_requests].
  rewrite Hws1. fold sent_params. unfold reject. cbn [chain rejected settles].
  cbn. rewrite lookup_insert_eq, Hws1, Hid1, Hreq1. done.
Qed.

(** [disconnect] and a call on a connected client. *)
Lemma call_after_disconnect_witness :
  connected online = true ∧ is_Some (ws online) ∧
  let st2 := (callModel "svc.m" "ping" VUndefined (disconnect online)).1 in
  settled st2 !! 0%nat = Some (Throw (TypeError "this.ws is null")) ∧
  reqId st2 = 2 ∧
  requests st2 = <[1 := Request "call.svc.m.ping" VUndefined KReturn 0]> ∅.
Proof.
  assert (H : is_Some (ws online)) by (by eexists).
  split_and!; [done..|]. cbv zeta.
  destruct (call_after_disconnect "svc.m" "ping" VUndefined online eq_refl H)
    as (_ & _ & Hs & _ & Hid & Hreq).
  split_and!; [exact Hs|exact Hid|exact Hreq].
Defined.

End Queue.

(** ** The release of a collection: [_tryDelete] and its models *)

Module Cascade.
Import Js Client Scenarios TryDelete Sending.

(** One turn of the loop of [_tryDelete], for a cached model that is no
    collection: the reference is dropped, and the model leaves the cache
    when it was the last one and nothing else holds the model. *)
Lemma releaseModel_model r lm cm st :
  cache st !! r = Some lm → items st !! lm = Some cm →
  collection cm = false →
  ∃ st', releaseModel r st = (st', Normal ()) ∧
         items st' = alter removeIndirect lm (items st) ∧
         cache st'
         = (if bool_decide (indirect cm = 1 ∧ direct cm = 0 ∧
                            subscribed cm = false)
            then delete (rid cm) (cache st) else cache st).
Proof.
  intros Hr Hlm Hmodel. unfold releaseModel. rewrite Hr.
  set (st1 := update lm removeIndirect st).
  assert (Hl : items st1 !! lm = Some (removeIndirect cm)).
  { subst st1. cbn [items update with_items]. by rewrite lookup_alter_eq, Hlm. }
  assert (Hi : items st1 = alter removeIndirect lm (items st)) by done.
  assert (Hc : cache st1 = cache st) by done.
  clearbody st1.
  destruct (decide (indirect cm = 1 ∧ direct cm = 0 ∧ subscribed cm = false))
    as [(Hind & Hd & Hs)|Hkept].
  - rewrite bool_decide_true by done.
    rewrite (tryDelete_released st1 lm (removeIndirect cm) Hl);
      [|cbn; lia|done|done].
    change (collection (removeIndirect cm)) with (collection cm).
    rewrite Hmodel. eexists. split; [done|]. cbn. by rewrite Hi, Hc.
  - rewrite bool_decide_false by done.
    rewrite (tryDelete_kept st1 lm (removeIndirect cm) Hl).
    2:{ cbn [indirect direct subscribed removeIndirect].
        destruct (decide (indirect cm - 1 = 0)); [|by left].
        destruct (decide (direct cm = 0)); [|by right; left].
        right; right. destruct (subscribed cm) eqn:Hs; [done|].
        destruct Hkept. split_and!; [lia|done..]. }
    eexists. split; [done|]. by case_bool_decide.
Qed.

(** The loop of [_tryDelete] over such models. *)
Lemma forEach_releaseModel models : ∀ st,
  NoDup models → cachedModels models st →
  ∃ st', forEach releaseModel models st = (st', Normal ()) ∧
    (∀ r lm cm, r ∈ models → cache st !! r = Some lm →
       items st !! lm = Some cm →
       items st' !! lm = Some (removeIndirect cm) ∧
       (indirect cm = 1 → direct cm = 0 → subscribed cm = false →
        cache st' !! r = None)) ∧
    (∀ k, k ∉ models → cache st' !! k = cache st !! k) ∧
    (∀ l, (∀ r, r ∈ models → cache st !! r ≠ Some l) →
          items st' !! l = items st !! l).
Proof.
  induction models as [|r0 models IH]; intros st Hnd Hcached.
  { exists st. split_and!; [done| |done..]. by intros r lm cm ?%elem_of_nil. }
  apply NoDup_cons in Hnd as [Hr0 Hnd].
  destruct (Hcached r0) as (l0 & c0 & Hl0 & Hc0 & Hrid0 & Hm0);
    [apply elem_of_cons; by left|].
  destruct (releaseModel_model r0 l0 c0 st Hl0 Hc0 Hm0)
    as (st1 & Hstep & Hi1 & Hca1).
  rewrite Hrid0 in Hca1.
  assert (Hsub : ∀ k lm, cache st1 !! k = Some lm → cache st !! k = Some lm).
  { intros k lm. rewrite Hca1. case_bool_decide; [|done].
    rewrite lookup_delete. by case_decide. }
  assert (Hother : ∀ r lm cm, r ∈ models → cache st !! r = Some lm →
                     items st !! lm = Some cm → rid cm = r →
                     cache st1 !! r = Some lm ∧ items st1 !! lm = Some cm).
  { intros r lm cm Hin Hr Hlm Hrid.
    assert (r ≠ r0) by (intros ->; done).
    assert (lm ≠ l0) by (intros ->; congruence).
    split.
    - rewrite Hca1. case_bool_decide; [|done]. by rewrite lookup_delete_ne.
    - by rewrite Hi1, lookup_alter_ne. }
  assert (Hfresh : ∀ r, r ∈ models → cache st !! r ≠ Some l0).
  { intros r Hin Hr.
    destruct (Hcached r) as (lm & cm & Hr' & Hlm & Hrid & _);
      [apply elem_of_cons; by right|].
    assert (lm = l0) as -> by congruence.
    assert (cm = c0) as -> by congruence.
    apply Hr0. congruence. }
  destruct (IH st1 Hnd) as (st' & Hloop & Hitems & Hcache & Hframe).
  { intros r Hin. destruct (Hcached r) as (lm & cm & Hr & Hlm & Hrid & Hm);
      [apply elem_of_cons; by right|].
    destruct (Hother r lm cm Hin Hr Hlm Hrid). by exists lm, cm. }
  exists st'. cbn [forEach]. rewrite Hstep. split_and!; [done| | |].
  - intros r lm cm [->|Hin]%elem_of_cons Hr Hlm.
    + assert (lm = l0) as -> by congruence.
      assert (cm = c0) as -> by congruence. split.
      * rewrite Hframe.
        { by rewrite Hi1, lookup_alter_eq, Hc0. }
        intros r Hin Hr1. by apply (Hfresh r Hin), Hsub.
      * intros Hind Hd Hs. rewrite Hcache by done. rewrite Hca1.
        rewrite bool_decide_true by done. apply lookup_delete_eq.
    + destruct (Hcached r) as (lm' & cm' & Hr' & Hlm' & Hrid & Hm);
        [apply elem_of_cons; by right|].
      assert (lm' = lm) as -> by congruence.
      assert (cm' = cm) as -> by congruence.
      destruct (Hother r lm cm Hin Hr Hlm Hrid) as [Hr1 Hlm1].
      by apply Hitems.
  - intros k Hk. rewrite Hcache by (intros Hin; apply Hk, elem_of_cons; by right).
    rewrite Hca1. case_bool_decide; [|done].
    rewrite lookup_delete_ne; [done|]. intros ->. apply Hk, elem_of_cons. by left.
  - intros l Hl.
    assert (l ≠ l0).
    { intros ->. apply (Hl r0); [apply elem_of_cons; by left|done]. }
    rewrite Hframe.
    + by rewrite Hi1, lookup_alter_ne.
    + intros r Hin Hr1. apply (Hl r); [apply elem_of_cons; by right|].
      by apply Hsub.
Qed.

(** X30.  The release of a collection takes its models along.  For a
    collection without listener, reference and subscription, whose models
    are different from each other, cached under their rids and no
    collections themselves, [_tryDelete] returns [true]; it has deleted the
    collection from the cache, lowered the [indirect] of each model by one,
    deleted from the cache every model whose last reference that was and
    that has no listener and no subscription, and left every other entry
    of the cache as it was. *)
Theorem tryDelete_cascade l st ci models :
  items st !! l = Some ci →
  indirect ci = 0 → direct ci = 0 → subscribed ci = false →
  isCollection ci = Some true → item ci = Some (Collection models) →
  NoDup models → cachedModels models st →
  let st' := (_tryDelete l st).1 in
  (_tryDelete l st).2 = Normal true ∧
  cache st' !! rid ci = None ∧
  (∀ r lm cm, r ∈ models → cache st !! r = Some lm →
     items st !! lm = Some cm →
     items st' !! lm = Some (removeIndirect cm) ∧
     (indirect cm = 1 → direct cm = 0 → subscribed cm = false →
      cache st' !! r = None)) ∧
  (∀ k, k ≠ rid ci → k ∉ models → cache st' !! k = cache st !! k).
Proof.
  intros Hl Hi Hd Hs Hcol Hitem Hnd Hcached st'. subst st'.
  rewrite (tryDelete_released st l ci Hl Hi Hd Hs).
  unfold collection. rewrite Hcol, Hitem.
  change (default false (Some true)) with true. cbn iota.
  destruct (forEach_releaseModel models st Hnd Hcached)
    as (st1 & -> & Hitems & Hcache & _).
  cbn [fst snd cache items with_cache]. split_and!; [done| | |].
  - apply lookup_delete_eq.
  - intros r lm cm Hin Hr Hlm.
    destruct (Hitems r lm cm Hin Hr Hlm) as [H1 H2]. split; [done|].
    intros ???. rewrite lookup_delete. case_decide; [done|]. by apply H2.
  - intros k Hk Hnin. rewrite lookup_delete_ne by done. by apply Hcache.
Qed.

(** A collection with one model that only the collection refers to. *)
Lemma tryDelete_cascade_witness :
  items releasedCollection !! 1%positive
  = Some (CacheItem "c" (Some (Collection ["m"])) (Some true) None 0 0 false
                    None) ∧
  NoDup ["m"] ∧ cachedModels ["m"] releasedCollection ∧
  (_tryDelete 1%positive releasedCollection).2 = Normal true ∧
  cache (_tryDelete 1%positive releasedCollection).1 !! "c" = None ∧
  cache (_tryDelete 1%positive releasedCollection).1 !! "m" = None.
Proof.
  assert (Hnd : NoDup ["m"]) by (apply (bool_decide_unpack _); by vm_compute).
  assert (Hin : "m" ∈ ["m"]) by (apply elem_of_cons; by left).
  assert (Hc : cachedModels ["m"] releasedCollection).
  { intros r ->%list_elem_of_singleton.
    by exists 2%positive,
              (CacheItem "m" (Some Model) (Some false) None 0 1 false None). }
  split_and!; [done..| | |];
    destruct (tryDelete_cascade 1%positive releasedCollection
                (CacheItem "c" (Some (Collection ["m"])) (Some true) None 0 0
                           false None)
                ["m"] eq_refl eq_refl eq_refl eq_refl eq_refl eq_refl Hnd Hc)
      as (H1 & H2 & H3 & _); [exact H1|exact H2|].
  destruct (H3 "m" 2%positive
               (CacheItem "m" (Some Model) (Some false) None 0 1 false None)
               Hin eq_refl eq_refl) as [_ H].
  by apply H.
Defined.

End Cascade.
